(** * OpenPilot SLAM module task and GPS-platinum bootloader bring-up

    A shallow embedding of

    - [flight/Modules/SLAM/slam.c]: the periodic task [slamTask], its
      start-up handshake on [AttitudeActual], the artificial-horizon overlay
      and the settings callback [SettingsUpdatedCb];
    - [flight/targets/boards/gpsplatinum/bootloader/pios_board.c]:
      [PIOS_Board_Init] and [setupCom].

    C integers are [Z] with the wrap-around of their type written out, C
    [float] and [double] are IEEE-754 binary32 and binary64 values
    ([spec_float] of the standard library, rounding to nearest even), calls
    into FreeRTOS, OpenCV, the UAVObject bus and the PiOS drivers are
    recorded in a trace, and what those collaborators return is an input of
    each step. *)

From Stdlib Require Import ZArith List Bool Lia QArith Qabs Qpower Lqa.
From Stdlib Require Import Floats.SpecFloat.
Import ListNotations.
Open Scope Z_scope.

(* ================================================================== *)
(** * Part I: the embedding *)
(* ================================================================== *)

(** ** Partial results

    [None] stands for a step whose behaviour C leaves undefined (a
    floating-point value converted to an integer type that cannot hold it,
    signed overflow). *)

Definition obind {A B : Type} (o : option A) (k : A -> option B) : option B :=
  match o with
  | Some a => k a
  | None => None
  end.

Notation "x <- e ;; k" := (obind e (fun x => k))
  (at level 61, e at next level, right associativity).

(** A bounded universal quantifier over the integers [lo, lo + n). *)
Fixpoint forall_range (n : nat) (lo : Z) (p : Z -> bool) : bool :=
  match n with
  | O => true
  | S n' => p lo && forall_range n' (Z.succ lo) p
  end.

(** ** C integer arithmetic *)
Module CInt.

(** Reduction of a value to an unsigned type of [bits] bits. *)
Definition wrap (bits : Z) (x : Z) : Z := x mod 2 ^ bits.

Definition INT_MIN : Z := - 2 ^ 31.
Definition INT_MAX : Z := 2 ^ 31 - 1.

Definition in_int (z : Z) : bool := (INT_MIN <=? z) && (z <=? INT_MAX).

(** The result of an [int] operation whose mathematical value is [z]. *)
Definition int_checked (z : Z) : option Z :=
  if in_int z then Some z else None.

Definition int_add (a b : Z) : option Z := int_checked (a + b).
Definition int_sub (a b : Z) : option Z := int_checked (a - b).

(** [a / b] on non-zero [b]: C division truncates toward zero. *)
Definition int_div (a b : Z) : Z := Z.quot a b.

End CInt.

(** ** C floating point *)
Module CFloat.

(** [float] is binary32 and [double] is binary64; both are carried by
    [spec_float], the operations fix the format. *)
Definition float : Type := spec_float.
Definition double : Type := spec_float.

Definition fmul (x y : float) : float := SFmul 24 128 x y.
Definition fdiv (x y : float) : float := SFdiv 24 128 x y.

Definition dadd (x y : double) : double := SFadd 53 1024 x y.
Definition dmul (x y : double) : double := SFmul 53 1024 x y.
Definition ddiv (x y : double) : double := SFdiv 53 1024 x y.
Definition dneg (x : double) : double := SFopp x.

(** Integer to floating conversions (round to nearest even). *)
Definition float_of_Z (z : Z) : float := binary_normalize 24 128 z 0 false.
Definition double_of_Z (z : Z) : double := binary_normalize 53 1024 z 0 false.

(** [float] to [double] is exact; [double] to [float] rounds. *)
Definition double_of_float (x : float) : double :=
  match x with
  | S754_finite s m e => binary_round 53 1024 s m e
  | _ => x
  end.

Definition float_of_double (x : double) : float :=
  match x with
  | S754_finite s m e => binary_round 24 128 s m e
  | _ => x
  end.

(** [x == y] and [x < y]. *)
Definition feq (x y : spec_float) : bool := SFeqb x y.
Definition flt (x y : spec_float) : bool := SFltb x y.

Definition is_nan (x : spec_float) : bool :=
  match x with
  | S754_nan => true
  | _ => false
  end.

Definition is_finite (x : spec_float) : bool :=
  match x with
  | S754_zero _ | S754_finite _ _ _ => true
  | _ => false
  end.

(** [fmin] of <math.h>: the smaller argument, a NaN counting as missing. *)
Definition fmin (x y : double) : double :=
  if is_nan x then y
  else if is_nan y then x
  else if flt y x then y else x.

(** The integral part of a finite value (the fraction is discarded, toward
    zero); there is none for an infinity or a NaN. *)
Definition trunc (x : spec_float) : option Z :=
  match x with
  | S754_zero _ => Some 0
  | S754_finite s m e =>
      Some (cond_Zopp s
              (match e with
               | Zneg p => Z.shiftr (Zpos m) (Zpos p)
               | _ => Z.shiftl (Zpos m) e
               end))
  | _ => None
  end.

(** Conversion to [int]: undefined when the integral part is not an [int]. *)
Definition int_of_double (x : double) : option Z :=
  z <- trunc x ;; CInt.int_checked z.

(** Conversion to an unsigned type of [bits] bits. *)
Definition unsigned_of_float (bits : Z) (x : float) : option Z :=
  z <- trunc x ;;
  if (0 <=? z) && (z <? 2 ^ bits) then Some z else None.

(** The exact rational value of a finite floating-point number. *)
Definition SF2Q (x : spec_float) : Q :=
  match x with
  | S754_finite s m e =>
      match e with
      | Zneg p => Qmake (cond_Zopp s (Zpos m)) (2 ^ p)
      | _ => inject_Z (cond_Zopp s (Zpos m) * 2 ^ e)
      end
  | _ => 0%Q
  end.

(** [x] is zero, or finite and below [2^B] in absolute value. *)
Definition magnitude_le (B : Z) (x : spec_float) : Prop :=
  match x with
  | S754_zero _ => True
  | S754_finite _ m e => Zdigits2 (Zpos m) + e <= B
  | _ => False
  end.

(** [2^k] as a rational, for any integer [k]: the unit in which the
    distance of a result from the exact value is counted. *)
Definition pow2 (k : Z) : Q := (2 ^ k)%Q.

(** A finite value between -1 and 1, as a cosine or a sine is. *)
Definition unit_range (x : double) : Prop :=
  is_finite x = true /\ (Qabs (SF2Q x) <= 1)%Q.

(** The cosine and the sine of one angle, as far as a C library gives them:
    their squares add up to 1 within [2^-40].  Values correct to a few units
    in the last place of a double are within [2^-50]. *)
Definition on_unit_circle (c s : double) : Prop :=
  (Qabs (SF2Q c * SF2Q c + SF2Q s * SF2Q s - 1) <= 1 # 2 ^ 40)%Q.

(** The transcendental functions of the C library are not part of the
    sources.  Their values at finite non-zero arguments are a parameter;
    at the other arguments they are those C99 Annex F (F.9.1.5, F.9.1.6)
    prescribes: [cos(+-0) = 1], [sin(+-0) = +-0], and a NaN at an infinity
    or a NaN. *)
Record Libm : Type := {
  libm_cos : double -> double;
  libm_sin : double -> double
}.

Definition cos (L : Libm) (x : double) : double :=
  match x with
  | S754_zero _ => double_of_Z 1
  | S754_finite _ _ _ => libm_cos L x
  | _ => S754_nan
  end.

Definition sin (L : Libm) (x : double) : double :=
  match x with
  | S754_zero _ => x
  | S754_finite _ _ _ => libm_sin L x
  | _ => S754_nan
  end.

(** A property that holds whichever C library is linked. *)
Definition for_every_libm (P : Libm -> Prop) : Prop := forall L, P L.

End CFloat.

(** ** The SLAM module ([slam.c]) *)
Module Slam.
Import CInt CFloat.

(** *** UAVObject data

    The object structures are generated from the UAVObject definitions and
    are not part of the sources; the fields the module touches are kept.
    [SLAMSettings] holds whole numbers (pixels, frames per second). *)
Record SLAMSettingsData : Type := {
  FrameDimensions_X : Z;
  FrameDimensions_Y : Z;
  FrameRate : Z
}.

Record AttitudeActualData : Type := {
  Roll : float;
  Pitch : float;
  Yaw : float
}.

Record PositionActualData : Type := {
  pos_North : float;
  pos_East : float;
  pos_Down : float
}.

Record VelocityActualData : Type := {
  vel_North : float;
  vel_East : float;
  vel_Down : float
}.

Definition set_Pitch (a : AttitudeActualData) (p : float) : AttitudeActualData :=
  {| Roll := Roll a; Pitch := p; Yaw := Yaw a |}.

(** The objects as the UAVObject bus stores them, shared by all tasks. *)
Record UAVObjects : Type := {
  obj_SLAMSettings : SLAMSettingsData;
  obj_AttitudeActual : AttitudeActualData;
  obj_PositionActual : PositionActualData;
  obj_VelocityActual : VelocityActualData
}.

Definition set_obj_SLAMSettings (o : UAVObjects) (s : SLAMSettingsData) : UAVObjects :=
  {| obj_SLAMSettings := s;
     obj_AttitudeActual := obj_AttitudeActual o;
     obj_PositionActual := obj_PositionActual o;
     obj_VelocityActual := obj_VelocityActual o |}.

Definition set_obj_AttitudeActual (o : UAVObjects) (a : AttitudeActualData) : UAVObjects :=
  {| obj_SLAMSettings := obj_SLAMSettings o;
     obj_AttitudeActual := a;
     obj_PositionActual := obj_PositionActual o;
     obj_VelocityActual := obj_VelocityActual o |}.

(** *** OpenCV values *)

(** Handles of a capture and of an image (what the pointers designate). *)
Definition CvCapture : Type := Z.
Definition IplImage : Type := Z.

(** [CvPoint] has [int] coordinates. *)
Record CvPoint : Type := cvPoint { pt_x : Z; pt_y : Z }.

Inductive capture_property : Type :=
| CV_CAP_PROP_FRAME_WIDTH
| CV_CAP_PROP_FRAME_HEIGHT.

(** *** Calls into the collaborators, in the order the task makes them *)
Inductive call : Type :=
| Call_cvCaptureFromFile
| Call_cvGrabFrame
| Call_cvRetrieveFrame
| Call_cvSetCaptureProperty (p : capture_property) (v : double)
| Call_cvCloneImage (img : IplImage)
| Call_cvNamedWindow
| Call_PIOS_DELAY_GetRaw
| Call_xTaskGetTickCount
| Call_fprintf_init (timeval increment : Z)
| Call_AttitudeActualGet
| Call_AttitudeActualSet (a : AttitudeActualData)
| Call_PositionActualGet
| Call_VelocityActualGet
| Call_cvWaitKey (delay : Z)
| Call_vTaskDelayUntil (previousWakeTime : Z) (arg : Z)
| Call_PIOS_DELAY_DiffuS (timeval : Z)
| Call_backgroundGrabFrame
| Call_opencvslam_run (x : Z)
| Call_cvReleaseImage (img : IplImage)
| Call_cvLine (img : IplImage) (left right : CvPoint) (r g b : Z) (thickness : Z)
| Call_cvShowImage (img : IplImage)
| Call_fprintf_frame (frame currentTime : Z).

(** What the collaborators hand back during one step of the task.
    [cvCloneImage] returns a new image, the copy: OpenCV reports a failed
    copy through its error handler, not by a NULL result. *)
Record TaskEnv : Type := {
  env_capture : option CvCapture;  (* cvCaptureFromFile *)
  env_frame : option IplImage;     (* cvRetrieveFrame *)
  env_clone : IplImage;            (* cvCloneImage *)
  env_raw : Z;                     (* PIOS_DELAY_GetRaw *)
  env_tick : Z;                    (* xTaskGetTickCount *)
  env_woke : Z                     (* what vTaskDelayUntil leaves in currentTime *)
}.

(** *** Private constants *)
Definition STACK_SIZE : Z := 16386.

(** The literal [3.1415926535897932] read as a double: the nearest one is
    [7074237752028440 * 2^-51]. *)
Definition PI_literal : double := S754_finite false 7074237752028440 (-51).

(** [#define DEG2RAD (3.1415926535897932/180.0)] *)
Definition DEG2RAD : double := ddiv PI_literal (double_of_Z 180).

(** The value the attitude pitch is forced to during the handshake. *)
Definition pitch_sentinel : float := float_of_Z 100.

(** *** What the build fixes outside the sources *)
Record Platform : Type := {
  tick_bits : Z;          (* width of portTickType *)
  portTICK_RATE_MS : Z;   (* (portTickType)1000 / configTICK_RATE_HZ *)
  libm : Libm
}.

(** *** Variables of [slamTask] *)
Record TaskLocals : Type := {
  attitudeActual : AttitudeActualData;
  positionActual : PositionActualData;
  velocityActual : VelocityActualData;
  currentFrame : option IplImage;
  lastFrame : option IplImage;
  frame : Z;
  VideoSource : option CvCapture;
  timeval : Z;
  currentTime : Z;
  startTime : Z;
  increment : Z
}.

(** Where the task stands. *)
Inductive PC : Type :=
| NotCreated   (* before xTaskCreate *)
| AtStart      (* created, slamTask not yet entered *)
| InHandshake  (* at the while of line 153 *)
| InLoop.      (* at the while (1) of line 156 *)

Record State : Type := {
  pc : PC;
  locals : TaskLocals;
  slamEnabled : bool;
  settings : SLAMSettingsData;   (* static SLAMSettingsData settings *)
  callback_connected : bool;
  objects : UAVObjects
}.

Definition set_settings (s : State) (v : SLAMSettingsData) : State :=
  {| pc := pc s; locals := locals s; slamEnabled := slamEnabled s;
     settings := v; callback_connected := callback_connected s;
     objects := objects s |}.

Definition set_objects (s : State) (o : UAVObjects) : State :=
  {| pc := pc s; locals := locals s; slamEnabled := slamEnabled s;
     settings := settings s; callback_connected := callback_connected s;
     objects := o |}.

Definition set_task (s : State) (p : PC) (l : TaskLocals) : State :=
  {| pc := p; locals := l; slamEnabled := slamEnabled s;
     settings := settings s; callback_connected := callback_connected s;
     objects := objects s |}.

(** *** [SettingsUpdatedCb]: [SLAMSettingsGet(&settings)] *)
Definition SettingsUpdatedCb (s : State) : State :=
  set_settings s (obj_SLAMSettings (objects s)).

(** *** [SLAMInitialize]: the module is enabled by the hardware settings *)
Definition SLAMInitialize (optionalModules_SLAM_enabled : bool) (s : State) : State :=
  {| pc := pc s; locals := locals s;
     slamEnabled := optionalModules_SLAM_enabled;
     settings := settings s; callback_connected := callback_connected s;
     objects := objects s |}.

(** *** [SLAMStart] *)
Definition SLAMStart (s : State) : State :=
  if slamEnabled s then
    let s1 :=
      {| pc := pc s; locals := locals s; slamEnabled := slamEnabled s;
         settings := settings s; callback_connected := true;
         objects := objects s |} in
    let s2 := SettingsUpdatedCb s1 in
    set_task s2 AtStart (locals s2)
  else s.

(** *** Timing *)

(** [portTickType increment = ((float)(1000./settings.FrameRate)) / portTICK_RATE_MS;]
    a double division, a conversion to float, a float division by the
    tick period and a conversion to the unsigned tick type. *)
Definition frame_increment (P : Platform) (st : SLAMSettingsData) : option Z :=
  unsigned_of_float (tick_bits P)
    (fdiv (float_of_double (ddiv (double_of_Z 1000) (double_of_Z (FrameRate st))))
          (float_of_Z (portTICK_RATE_MS P))).

(** The width [frame * increment] and the sum with [startTime] are computed
    in: that of [uint32_t frame], or of the tick type when it is wider. *)
Definition arith_bits (P : Platform) : Z := Z.max 32 (tick_bits P).

(** [startTime+(frame*increment)], passed as a [portTickType]. *)
Definition wake_argument (P : Platform) (startTime frame increment : Z) : Z :=
  wrap (tick_bits P)
    (wrap (arith_bits P) (startTime + wrap (arith_bits P) (frame * increment))).

(** *** The artificial horizon (lines 190 to 210) *)

(** [cvPoint(X/2, Y/2 + Pitch * Y/60.)]: the first coordinate is an integer
    division; in the second [Pitch * Y] is a float product, the division by
    [60.] and the sum are double, and the result is converted to [int]. *)
Definition horizon_center_y (st : SLAMSettingsData) (att : AttitudeActualData) : double :=
  dadd (double_of_Z (int_div (FrameDimensions_Y st) 2))
       (ddiv (double_of_float (fmul (Pitch att) (float_of_Z (FrameDimensions_Y st))))
             (double_of_Z 60)).

Definition horizon_center (st : SLAMSettingsData) (att : AttitudeActualData) : option CvPoint :=
  y <- int_of_double (horizon_center_y st att) ;;
  Some (cvPoint (int_div (FrameDimensions_X st) 2) y).

(** [fmin(X, Y)] on the dimensions converted to double. *)
Definition horizon_scale (st : SLAMSettingsData) : double :=
  fmin (double_of_Z (FrameDimensions_X st)) (double_of_Z (FrameDimensions_Y st)).

(** [DEG2RAD*attitudeActual.Roll] *)
Definition roll_radians (att : AttitudeActualData) : double :=
  dmul DEG2RAD (double_of_float (Roll att)).

(** The two arguments of [cvPoint] at line 197, before their conversion. *)
Definition horizon_right_x (P : Platform) (st : SLAMSettingsData) (att : AttitudeActualData) : double :=
  ddiv (dmul (horizon_scale st) (cos (libm P) (roll_radians att))) (double_of_Z 3).

Definition horizon_right_y (P : Platform) (st : SLAMSettingsData) (att : AttitudeActualData) : double :=
  ddiv (dmul (dneg (horizon_scale st)) (sin (libm P) (roll_radians att))) (double_of_Z 3).

(** [right] as line 197 builds it: the offset of the right end from the centre. *)
Definition horizon_right_offset (P : Platform) (st : SLAMSettingsData) (att : AttitudeActualData)
  : option CvPoint :=
  x <- int_of_double (horizon_right_x P st att) ;;
  y <- int_of_double (horizon_right_y P st att) ;;
  Some (cvPoint x y).

(** [left] and [right] as passed to [cvLine]. *)
Definition horizon_line (P : Platform) (st : SLAMSettingsData) (att : AttitudeActualData)
  : option (CvPoint * CvPoint) :=
  center <- horizon_center st att ;;
  right0 <- horizon_right_offset P st att ;;
  lx <- int_sub (pt_x center) (pt_x right0) ;;
  ly <- int_sub (pt_y center) (pt_y right0) ;;
  rx <- int_add (pt_x right0) (pt_x center) ;;
  ry <- int_add (pt_y right0) (pt_y center) ;;
  Some (cvPoint lx ly, cvPoint rx ry).

(** *** [slamTask], lines 119 to 152: everything before the handshake loop *)
Definition slamTask_init (P : Platform) (e : TaskEnv) (s : State) : option (State * list call) :=
  let st := settings s in
  let source := env_capture e in
  let current :=
    match source with
    | Some _ => env_frame e
    | None => None
    end in
  let tr_open :=
    Call_cvCaptureFromFile ::
    match source with
    | Some _ =>
        [Call_cvGrabFrame; Call_cvRetrieveFrame;
         Call_cvSetCaptureProperty CV_CAP_PROP_FRAME_WIDTH (double_of_Z (FrameDimensions_X st));
         Call_cvSetCaptureProperty CV_CAP_PROP_FRAME_HEIGHT (double_of_Z (FrameDimensions_Y st))]
    | None => []
    end in
  let tr_clone :=
    match current with
    | Some img => [Call_cvCloneImage img]
    | None => []
    end in
  let raw := wrap 32 (env_raw e) in
  let start := wrap (tick_bits P) (env_tick e) in
  inc <- frame_increment P st ;;
  let att := set_Pitch (obj_AttitudeActual (objects s)) pitch_sentinel in
  let l :=
    {| attitudeActual := att;
       positionActual := positionActual (locals s);
       velocityActual := velocityActual (locals s);
       currentFrame := current;
       lastFrame :=
         match current with
         | Some _ => Some (env_clone e)
         | None => None
         end;
       frame := 0;
       VideoSource := source;
       timeval := raw;
       currentTime := currentTime (locals s);
       startTime := start;
       increment := inc |} in
  Some (set_task (set_objects s (set_obj_AttitudeActual (objects s) att)) InHandshake l,
        tr_open ++ tr_clone ++
        [Call_cvNamedWindow; Call_PIOS_DELAY_GetRaw; Call_xTaskGetTickCount;
         Call_fprintf_init raw inc;
         Call_AttitudeActualGet; Call_AttitudeActualSet att]).

(** *** Line 153: one evaluation of
    [while (attitudeActual.Pitch==100) AttitudeActualGet(&attitudeActual);] *)
Definition set_attitudeActual (l : TaskLocals) (a : AttitudeActualData) : TaskLocals :=
  {| attitudeActual := a;
     positionActual := positionActual l;
     velocityActual := velocityActual l;
     currentFrame := currentFrame l;
     lastFrame := lastFrame l;
     frame := frame l;
     VideoSource := VideoSource l;
     timeval := timeval l;
     currentTime := currentTime l;
     startTime := startTime l;
     increment := increment l |}.

Definition slamTask_handshake (s : State) : State * list call :=
  if feq (Pitch (attitudeActual (locals s))) (float_of_Z 100) then
    (set_task s InHandshake
       (set_attitudeActual (locals s) (obj_AttitudeActual (objects s))),
     [Call_AttitudeActualGet])
  else (set_task s InLoop (locals s), []).

(** *** Lines 157 to 217: one pass of the main loop *)
Definition slamTask_loop (P : Platform) (e : TaskEnv) (s : State) : option (State * list call) :=
  let l := locals s in
  let frame' := wrap 32 (frame l + 1) in
  let woke := wrap (tick_bits P) (env_woke e) in
  let raw := wrap 32 (env_raw e) in
  let att := obj_AttitudeActual (objects s) in
  let current :=
    match VideoSource l with
    | Some _ => env_frame e
    | None => currentFrame l
    end in
  let tr_head :=
    [Call_cvWaitKey 1;
     Call_vTaskDelayUntil (startTime l)
       (wake_argument P (startTime l) frame' (increment l));
     Call_PIOS_DELAY_DiffuS (timeval l); Call_PIOS_DELAY_GetRaw] ++
    match VideoSource l with
    | Some _ => [Call_backgroundGrabFrame]
    | None => []
    end ++
    [Call_AttitudeActualGet; Call_PositionActualGet; Call_VelocityActualGet] ++
    match VideoSource l with
    | Some _ => [Call_cvRetrieveFrame]
    | None => []
    end ++
    [Call_opencvslam_run 0] ++
    match lastFrame l with
    | Some old => [Call_cvReleaseImage old]
    | None => []
    end in
  let finish (last : option IplImage) (tr_draw : list call) :=
    (set_task s InLoop
       {| attitudeActual := att;
          positionActual := obj_PositionActual (objects s);
          velocityActual := obj_VelocityActual (objects s);
          currentFrame := current;
          lastFrame := last;
          frame := frame';
          VideoSource := VideoSource l;
          timeval := raw;
          currentTime := woke;
          startTime := startTime l;
          increment := increment l |},
     tr_head ++ tr_draw ++ [Call_fprintf_frame frame' woke]) in
  match current with
  | Some img =>
      ends <- horizon_line P (settings s) att ;;
      Some (finish (Some (env_clone e))
              [Call_cvCloneImage img;
               Call_cvLine (env_clone e) (fst ends) (snd ends) 255 255 0 3;
               Call_cvShowImage (env_clone e)])
  | None => Some (finish None [])
  end.

(** *** The module among the other tasks

    Modelled from the spec: the UAVObject bus is not part of the sources.
    An object's [Get] copies the stored object, its [Set] stores one, and
    a change of the settings object runs the callback connected to it,
    then and there.  Between two steps of the task another task may
    publish an attitude sample or new settings; a settings update runs
    [SettingsUpdatedCb] once [SLAMStart] has connected it.

    A step of the task (the start-up, one evaluation of the handshake,
    one pass of the loop) runs to its end before the next event.  The
    interleavings covered are those in which the other tasks publish
    between two steps; an update that lands inside a pass, between two of
    its reads of [settings], is not among them. *)
Inductive event : Type :=
| Ev_Task (e : TaskEnv)
| Ev_AttitudeActualSet (a : AttitudeActualData)
| Ev_SLAMSettingsSet (v : SLAMSettingsData).

Definition step (P : Platform) (ev : event) (s : State) : option (State * list call) :=
  match ev with
  | Ev_Task e =>
      match pc s with
      | NotCreated => Some (s, [])
      | AtStart => slamTask_init P e s
      | InHandshake => Some (slamTask_handshake s)
      | InLoop => slamTask_loop P e s
      end
  | Ev_AttitudeActualSet a =>
      Some (set_objects s (set_obj_AttitudeActual (objects s) a), [])
  | Ev_SLAMSettingsSet v =>
      let s1 := set_objects s (set_obj_SLAMSettings (objects s) v) in
      Some (if callback_connected s then SettingsUpdatedCb s1 else s1, [])
  end.

Fixpoint run (P : Platform) (evs : list event) (s : State) : option (State * list call) :=
  match evs with
  | [] => Some (s, [])
  | ev :: rest =>
      r1 <- step P ev s ;;
      r2 <- run P rest (fst r1) ;;
      Some (fst r2, snd r1 ++ snd r2)
  end.

(** *** Readings of a trace *)

(** Modelled from the spec: [vTaskDelayUntil] belongs to the scheduler and
    is not part of the sources.  The spec reads the call as suspending the
    task until the tick given as its second argument; the scheduled wake
    ticks of a trace are those arguments, in order. *)
Fixpoint wake_arguments (tr : list call) : list Z :=
  match tr with
  | [] => []
  | Call_vTaskDelayUntil _ arg :: rest => arg :: wake_arguments rest
  | _ :: rest => wake_arguments rest
  end.

(** Calls that acquire a frame, draw the overlay or display. *)
Definition is_video_call (c : call) : bool :=
  match c with
  | Call_cvGrabFrame | Call_backgroundGrabFrame | Call_cvRetrieveFrame
  | Call_cvSetCaptureProperty _ _ | Call_cvCloneImage _ | Call_cvReleaseImage _
  | Call_cvLine _ _ _ _ _ _ _ | Call_cvShowImage _ => true
  | _ => false
  end.

(** Calls only the main loop makes. *)
Definition is_loop_call (c : call) : bool :=
  match c with
  | Call_cvWaitKey _ | Call_vTaskDelayUntil _ _ | Call_PIOS_DELAY_DiffuS _
  | Call_backgroundGrabFrame | Call_PositionActualGet | Call_VelocityActualGet
  | Call_opencvslam_run _ | Call_cvReleaseImage _ | Call_cvLine _ _ _ _ _ _ _
  | Call_cvShowImage _ | Call_fprintf_frame _ _ => true
  | _ => false
  end.

(** The number of task steps among the events. *)
Fixpoint task_steps (evs : list event) : nat :=
  match evs with
  | [] => O
  | Ev_Task _ :: rest => S (task_steps rest)
  | _ :: rest => task_steps rest
  end.

(** The ticks [start + k * inc] for the passes [k = 1 .. n] of a loop
    entered with the frame counter at [f0], in the arithmetic of the
    counter and of the tick type. *)
Definition wake_schedule (P : Platform) (start inc f0 : Z) (n : nat) : list Z :=
  map (fun k => (start + wrap 32 (f0 + Z.of_nat k) * inc) mod 2 ^ tick_bits P)
      (seq 1 n).

(** *** Degraded mode *)

(** The task runs its loop with no capture and no frame. *)
Definition degraded (s : State) : Prop :=
  pc s = InLoop /\
  VideoSource (locals s) = None /\
  currentFrame (locals s) = None.

(** The calls of one pass made without a source, a frame, or a previous
    frame to release. *)
Definition degraded_pass (P : Platform) (s : State) (e : TaskEnv) : list call :=
  [Call_cvWaitKey 1;
   Call_vTaskDelayUntil (startTime (locals s))
     (wake_argument P (startTime (locals s)) (wrap 32 (frame (locals s) + 1))
        (increment (locals s)));
   Call_PIOS_DELAY_DiffuS (timeval (locals s)); Call_PIOS_DELAY_GetRaw;
   Call_AttitudeActualGet; Call_PositionActualGet; Call_VelocityActualGet;
   Call_opencvslam_run 0] ++
  match lastFrame (locals s) with
  | Some old => [Call_cvReleaseImage old]
  | None => []
  end ++
  [Call_fprintf_frame (wrap 32 (frame (locals s) + 1))
     (wrap (tick_bits P) (env_woke e))].

Definition is_fusion_call (c : call) : bool :=
  match c with
  | Call_opencvslam_run _ => true
  | _ => false
  end.

(** No source, no current frame and no previous frame. *)
Definition no_video (s : State) : Prop :=
  VideoSource (locals s) = None /\
  currentFrame (locals s) = None /\
  lastFrame (locals s) = None.

(** The task is past its start-up, with no video and its counter in range. *)
Definition quiet (s : State) : Prop :=
  (pc s = InHandshake \/ pc s = InLoop) /\
  no_video s /\
  0 <= frame (locals s) < 2 ^ 32.

Definition is_line_call (c : call) : bool :=
  match c with
  | Call_cvLine _ _ _ _ _ _ _ => true
  | _ => false
  end.

Definition is_capture_property_call (c : call) : bool :=
  match c with
  | Call_cvSetCaptureProperty _ _ => true
  | _ => false
  end.

(** *** The handshake *)

(** The task waits at line 153 and both its copy of the attitude and the
    stored object hold the sentinel pitch. *)
Definition spinning (s : State) : Prop :=
  pc s = InHandshake /\
  feq (Pitch (attitudeActual (locals s))) (float_of_Z 100) = true /\
  feq (Pitch (obj_AttitudeActual (objects s))) (float_of_Z 100) = true /\
  frame (locals s) = 0.

(** No event publishes an attitude whose pitch differs from the sentinel. *)
Definition no_pitch_writer (evs : list event) : Prop :=
  forall a, In (Ev_AttitudeActualSet a) evs ->
            feq (Pitch a) (float_of_Z 100) = true.

(** *** The increment, platform apart *)

(** The float the increment is converted from, at a tick period of 1 ms. *)
Definition increment_float (frame_rate : Z) : float :=
  fdiv (float_of_double (ddiv (double_of_Z 1000) (double_of_Z frame_rate)))
       (float_of_Z 1).

(** Its integral part is the integer quotient [1000 / frame_rate]. *)
Definition increment_is_quotient (frame_rate : Z) : bool :=
  match trunc (increment_float frame_rate) with
  | Some z => z =? 1000 / frame_rate
  | None => false
  end.

(** *** The spec's reading of the increment: [round(1000 / frame_rate)] *)
Definition spec_round_increment (frame_rate : Z) : Z :=
  (2 * 1000 + frame_rate) / (2 * frame_rate).

(** *** Further readings of a trace and of the task's variables *)

Definition is_clone_call (c : call) : bool :=
  match c with
  | Call_cvCloneImage _ => true
  | _ => false
  end.

Definition is_release_call (c : call) : bool :=
  match c with
  | Call_cvReleaseImage _ => true
  | _ => false
  end.

(** The clones the task holds: the one [lastFrame] points to, if any. *)
Definition clones_held (s : State) : nat :=
  match lastFrame (locals s) with
  | Some _ => 1%nat
  | None => 0%nat
  end.

(** The first arguments of the calls of [vTaskDelayUntil]: what
    [currentTime] holds when the call is made. *)
Fixpoint delay_previous (tr : list call) : list Z :=
  match tr with
  | [] => []
  | Call_vTaskDelayUntil prev _ :: rest => prev :: delay_previous rest
  | _ :: rest => delay_previous rest
  end.

(** The arguments of the calls of [PIOS_DELAY_DiffuS]. *)
Fixpoint diffus_arguments (tr : list call) : list Z :=
  match tr with
  | [] => []
  | Call_PIOS_DELAY_DiffuS t :: rest => t :: diffus_arguments rest
  | _ :: rest => diffus_arguments rest
  end.

(** What [PIOS_DELAY_GetRaw] returns to the task, step by step, as the
    [uint32_t] it is stored in. *)
Fixpoint raw_reads (evs : list event) : list Z :=
  match evs with
  | [] => []
  | Ev_Task e :: rest => wrap 32 (env_raw e) :: raw_reads rest
  | _ :: rest => raw_reads rest
  end.

End Slam.

(** ** Board bring-up ([pios_board.c]) *)
Module Board.

(** The hardware and driver calls of the bring-up, as they are made. *)
Inductive hw_call : Type :=
| HW_PIOS_DELAY_Init
| HW_PIOS_BOARD_HW_DEFS_GetLedCfg (board_rev : Z)
| HW_PIOS_LED_Init (led_cfg : Z)
| HW_RCC_AHBPeriphClockCmd_CRC_ENABLE
| HW_PIOS_USART_Init
| HW_PIOS_COM_MSG_Init (usart_id : Z)
| HW_PIOS_Assert_failed.

(** What the build and the drivers fix outside the sources. *)
Record Drivers : Type := {
  PIOS_INCLUDE_LED : bool;
  board_rev : Z;                                (* pios_board_info_blob.board_rev *)
  PIOS_BOARD_HW_DEFS_GetLedCfg : Z -> option Z; (* the configuration, or NULL *)
  PIOS_USART_Init : Z * Z;                      (* result, id written *)
  PIOS_COM_MSG_Init : Z -> Z -> Z * Z           (* old com id, usart id: result, com id left *)
}.

Record BoardState : Type := {
  board_init_complete : bool;
  PIOS_COM_TELEM_USB : Z;
  hw : list hw_call        (* the calls made so far, oldest first *)
}.

(** Modelled from the spec: [PIOS_Assert] is not part of the sources; a
    failed assertion is fatal.  A call returns, or a failed [PIOS_Assert]
    halts the system in it. *)
Inductive outcome : Type :=
| Returned (s : BoardState)
| Halted (s : BoardState).

Definition log (s : BoardState) (c : hw_call) : BoardState :=
  {| board_init_complete := board_init_complete s;
     PIOS_COM_TELEM_USB := PIOS_COM_TELEM_USB s;
     hw := hw s ++ [c] |}.

Definition set_com (s : BoardState) (id : Z) : BoardState :=
  {| board_init_complete := board_init_complete s;
     PIOS_COM_TELEM_USB := id;
     hw := hw s |}.

Definition set_complete (s : BoardState) : BoardState :=
  {| board_init_complete := true;
     PIOS_COM_TELEM_USB := PIOS_COM_TELEM_USB s;
     hw := hw s |}.

(** [setupCom] *)
Definition setupCom (D : Drivers) (s : BoardState) : outcome :=
  let s1 := log s HW_PIOS_USART_Init in
  if negb (fst (PIOS_USART_Init D) =? 0) then Halted (log s1 HW_PIOS_Assert_failed)
  else
    let usart_id := snd (PIOS_USART_Init D) in
    let r := PIOS_COM_MSG_Init D (PIOS_COM_TELEM_USB s1) usart_id in
    let s2 := set_com (log s1 (HW_PIOS_COM_MSG_Init usart_id)) (snd r) in
    if negb (fst r =? 0) then Halted (log s2 HW_PIOS_Assert_failed)
    else Returned s2.

(** The status-indicator part, compiled in under [PIOS_INCLUDE_LED]. *)
Definition led_setup (D : Drivers) (s : BoardState) : outcome :=
  if PIOS_INCLUDE_LED D then
    let s1 := log s (HW_PIOS_BOARD_HW_DEFS_GetLedCfg (board_rev D)) in
    match PIOS_BOARD_HW_DEFS_GetLedCfg D (board_rev D) with
    | None => Halted (log s1 HW_PIOS_Assert_failed)
    | Some cfg => Returned (log s1 (HW_PIOS_LED_Init cfg))
    end
  else Returned s.

(** [PIOS_Board_Init] *)
Definition PIOS_Board_Init (D : Drivers) (s : BoardState) : outcome :=
  if board_init_complete s then Returned s
  else
    match led_setup D (log s HW_PIOS_DELAY_Init) with
    | Halted h => Halted h
    | Returned s1 =>
        match setupCom D (log s1 HW_RCC_AHBPeriphClockCmd_CRC_ENABLE) with
        | Halted h => Halted h
        | Returned s2 => Returned (set_complete s2)
        end
    end.

(** [n] successive calls of [PIOS_Board_Init]; a halted system calls nothing. *)
Fixpoint init_calls (D : Drivers) (n : nat) (s : BoardState) : outcome :=
  match n with
  | O => Returned s
  | S n' =>
      match PIOS_Board_Init D s with
      | Halted h => Halted h
      | Returned s' => init_calls D n' s'
      end
  end.

(** The state at reset. *)
Definition reset_state : BoardState :=
  {| board_init_complete := false; PIOS_COM_TELEM_USB := 0; hw := [] |}.

(** The calls of a bring-up in which no assertion fails. *)
Definition setup_steps (D : Drivers) : list hw_call :=
  [HW_PIOS_DELAY_Init] ++
  (if PIOS_INCLUDE_LED D then
     HW_PIOS_BOARD_HW_DEFS_GetLedCfg (board_rev D) ::
     match PIOS_BOARD_HW_DEFS_GetLedCfg D (board_rev D) with
     | Some cfg => [HW_PIOS_LED_Init cfg]
     | None => []
     end
   else []) ++
  [HW_RCC_AHBPeriphClockCmd_CRC_ENABLE; HW_PIOS_USART_Init;
   HW_PIOS_COM_MSG_Init (snd (PIOS_USART_Init D))].

(** Drivers for the examples: revision 1 has a LED configuration, both
    initialisations succeed, the USART gets id 17 and the channel id 42. *)
Definition sample_drivers : Drivers :=
  {| PIOS_INCLUDE_LED := true;
     board_rev := 1;
     PIOS_BOARD_HW_DEFS_GetLedCfg := fun rev => if rev =? 1 then Some 5 else None;
     PIOS_USART_Init := (0, 17);
     PIOS_COM_MSG_Init := fun _ _ => (0, 42) |}.

(** The bring-up finds everything it asserts: a LED configuration for the
    board revision when the LED is compiled in, and both initialisations
    report success. *)
Definition bring_up_succeeds (D : Drivers) (s : BoardState) : Prop :=
  (PIOS_INCLUDE_LED D = true -> PIOS_BOARD_HW_DEFS_GetLedCfg D (board_rev D) <> None) /\
  fst (PIOS_USART_Init D) = 0 /\
  fst (PIOS_COM_MSG_Init D (PIOS_COM_TELEM_USB s) (snd (PIOS_USART_Init D))) = 0.

Definition is_com_msg_call (c : hw_call) : bool :=
  match c with
  | HW_PIOS_COM_MSG_Init _ => true
  | _ => false
  end.

(** Drivers whose USART initialisation reports an error. *)
Definition usart_failing_drivers : Drivers :=
  {| PIOS_INCLUDE_LED := true;
     board_rev := 1;
     PIOS_BOARD_HW_DEFS_GetLedCfg := fun rev => if rev =? 1 then Some 5 else None;
     PIOS_USART_Init := (-1, 0);
     PIOS_COM_MSG_Init := fun _ _ => (0, 42) |}.

End Board.

(** ** A worked configuration

    A 32-bit tick at 1 kHz, and the system brought from power-on into the
    main loop; the examples below instantiate the theorems on it. *)
Module Sample.
Import CInt CFloat Slam.

(** [DEG2RAD * 90] as a double: the double nearest to pi/2. *)
Definition HALF_PI : double := S754_finite false 7074237752028440 (-52).

(** A C library for the examples: the correctly rounded cosine and sine at
    [HALF_PI], the one finite non-zero argument the examples reach, and a
    NaN elsewhere. *)
Definition sample_libm : Libm :=
  {| libm_cos := fun x =>
       if feq x HALF_PI then S754_finite false 4967757600021511 (-106)
       else S754_nan;
     libm_sin := fun x =>
       if feq x HALF_PI then double_of_Z 1 else S754_nan |}.

Definition platform32 : Platform :=
  {| tick_bits := 32; portTICK_RATE_MS := 1; libm := sample_libm |}.

Definition frame_settings (x y rate : Z) : SLAMSettingsData :=
  {| FrameDimensions_X := x; FrameDimensions_Y := y; FrameRate := rate |}.

Definition attitude (roll pitch : float) : AttitudeActualData :=
  {| Roll := roll; Pitch := pitch; Yaw := S754_zero false |}.

(** 1/8 as a float. *)
Definition eighth : float := S754_finite false 8388608 (-26).

Definition level : AttitudeActualData :=
  attitude (S754_zero false) (S754_zero false).

Definition still : PositionActualData :=
  {| pos_North := S754_zero false; pos_East := S754_zero false;
     pos_Down := S754_zero false |}.

Definition at_rest : VelocityActualData :=
  {| vel_North := S754_zero false; vel_East := S754_zero false;
     vel_Down := S754_zero false |}.

Definition power_on (st : SLAMSettingsData) : State :=
  {| pc := NotCreated;
     locals :=
       {| attitudeActual := level; positionActual := still;
          velocityActual := at_rest; currentFrame := None; lastFrame := None;
          frame := 0; VideoSource := None; timeval := 0; currentTime := 0;
          startTime := 0; increment := 0 |};
     slamEnabled := false;
     settings := frame_settings 0 0 0;
     callback_connected := false;
     objects :=
       {| obj_SLAMSettings := st; obj_AttitudeActual := level;
          obj_PositionActual := still; obj_VelocityActual := at_rest |} |}.

(** After [SLAMInitialize] found the module enabled and [SLAMStart]. *)
Definition started (st : SLAMSettingsData) : State :=
  SLAMStart (SLAMInitialize true (power_on st)).

(** What the collaborators return: the capture (or NULL), the frame
    retrieved (or NULL) and the tick count. *)
Definition env (capture : option CvCapture) (img : option IplImage) (tick : Z) : TaskEnv :=
  {| env_capture := capture; env_frame := img;
     env_clone := match img with Some i => i + 100 | None => 0 end;
     env_raw := tick * 1000;
     env_tick := tick; env_woke := tick |}.

(** The task starts, an estimator publishes a level attitude, and the
    task polls twice: it is in its main loop. *)
Definition to_loop (e : TaskEnv) : list event :=
  [Ev_Task e; Ev_AttitudeActualSet level; Ev_Task e; Ev_Task e].

(** The state in the main loop reached that way, if the start-up is defined. *)
Definition in_loop (st : SLAMSettingsData) (e : TaskEnv) : option State :=
  r <- run platform32 (to_loop e) (started st) ;; Some (fst r).

End Sample.

(* ================================================================== *)
(** * Part II: properties *)
(* ================================================================== *)

Import CInt CFloat Slam Sample.

(** ** Wrap-around *)

Lemma wrap_range (bits x : Z) : 0 <= bits -> 0 <= wrap bits x < 2 ^ bits.
Proof.
  intros Hb. unfold wrap. apply Z.mod_pos_bound. apply Z.pow_pos_nonneg; lia.
Qed.

Lemma wrap_small (bits x : Z) : 0 <= x < 2 ^ bits -> wrap bits x = x.
Proof. intros H. unfold wrap. apply Z.mod_small. exact H. Qed.

Lemma wrap_wrap_le (t a x : Z) : 0 <= t <= a -> wrap t (wrap a x) = wrap t x.
Proof.
  intros [Ht Hta]. unfold wrap.
  assert (H2 : 2 ^ a = 2 ^ t * 2 ^ (a - t)).
  { rewrite <- Z.pow_add_r by lia. f_equal. lia. }
  apply Z.mod_mod_divide.
  exists (2 ^ (a - t)). rewrite H2. ring.
Qed.

Lemma wrap_add_wrap_r (bits x y : Z) : wrap bits (x + wrap bits y) = wrap bits (x + y).
Proof. unfold wrap. apply Zplus_mod_idemp_r. Qed.

Lemma wrap_add_wrap_l (bits x y : Z) : wrap bits (wrap bits x + y) = wrap bits (x + y).
Proof. unfold wrap. apply Zplus_mod_idemp_l. Qed.

(** The argument handed to [vTaskDelayUntil] is the sum reduced to the
    tick type, whatever the width of the intermediate arithmetic. *)
Lemma wake_argument_mod (P : Platform) (start f inc : Z) :
  0 < tick_bits P ->
  wake_argument P start f inc = (start + f * inc) mod 2 ^ tick_bits P.
Proof.
  intros Hb. unfold wake_argument, arith_bits.
  rewrite wrap_add_wrap_r.
  rewrite wrap_wrap_le by lia.
  reflexivity.
Qed.

(** ** Floating point: magnitudes and integral parts

    What the proofs below need of the rounding of [spec_float]: how large
    the result of a conversion, a product or a quotient can be, and how the
    integral part of a value sits against its exact rational value. *)

Lemma digits2_pos_size (p : positive) : digits2_pos p = Pos.size p.
Proof. induction p as [p IH|p IH|]; simpl; rewrite ?IH; reflexivity. Qed.

Lemma Zdigits2_log2 (m : Z) : 0 < m -> Zdigits2 m = Z.log2 m + 1.
Proof.
  destruct m as [|p|p]; try lia. intros _. simpl.
  rewrite digits2_pos_size.
  destruct p as [p|p|]; simpl; try rewrite Pos2Z.inj_succ; lia.
Qed.

Lemma Zdigits2_nonneg (m : Z) : 0 <= Zdigits2 m.
Proof. destruct m; simpl; lia. Qed.

(** For non-negative [m]: [Zdigits2 m <= k] exactly when [m < 2^k]. *)
Lemma Zdigits2_le_iff (m k : Z) : 0 <= m -> 0 <= k -> (Zdigits2 m <= k <-> m < 2 ^ k).
Proof.
  intros Hm Hk.
  destruct (Z.eq_dec m 0) as [->|Hne].
  - simpl. split; intros _; [apply Z.pow_pos_nonneg; lia | exact Hk].
  - assert (Hpos : 0 < m) by lia.
    rewrite (Zdigits2_log2 m Hpos).
    split; intros H.
    + apply Z.log2_lt_pow2; lia.
    + apply Z.log2_lt_pow2 in H; lia.
Qed.

(** [iter_pos] is iteration [Pos.to_nat p] times. *)
Lemma iter_pos_nat {A : Type} (f : A -> A) (p : positive) :
  forall x : A, iter_pos f p x = Nat.iter (Pos.to_nat p) f x.
Proof.
  induction p as [p IH|p IH|]; intros x; cbn [iter_pos].
  - rewrite !IH, Pos2Nat.inj_xI.
    replace (S (2 * Pos.to_nat p)) with (Pos.to_nat p + Pos.to_nat p + 1)%nat by lia.
    rewrite !Nat.iter_add. reflexivity.
  - rewrite !IH, Pos2Nat.inj_xO.
    replace (2 * Pos.to_nat p)%nat with (Pos.to_nat p + Pos.to_nat p)%nat by lia.
    rewrite Nat.iter_add. reflexivity.
  - reflexivity.
Qed.

Lemma shr_1_m (r : shr_record) : 0 <= shr_m r -> shr_m (shr_1 r) = shr_m r / 2.
Proof.
  destruct r as [m b s]. simpl. intros Hm.
  rewrite <- Z.div2_div.
  destruct m as [|[p|p|]|p]; try reflexivity; lia.
Qed.

Lemma shr_iter_m (n : nat) (r : shr_record) :
  0 <= shr_m r ->
  shr_m (Nat.iter n shr_1 r) = shr_m r / 2 ^ Z.of_nat n.
Proof.
  intros Hm. induction n as [|n IH].
  - simpl. rewrite Z.div_1_r. reflexivity.
  - rewrite Nat.iter_succ, shr_1_m.
    + rewrite IH, Nat2Z.inj_succ, Z.pow_succ_r by lia.
      rewrite Z.div_div by (try apply Z.pow_pos_nonneg; lia).
      f_equal. ring.
    + rewrite IH. apply Z.div_pos; [exact Hm | apply Z.pow_pos_nonneg; lia].
Qed.

(** [shr] divides the mantissa by [2^n] and adds [n] to the exponent. *)
Lemma shr_spec (r : shr_record) (e n : Z) :
  0 <= shr_m r ->
  shr_m (fst (shr r e n)) = shr_m r / 2 ^ Z.max 0 n /\
  snd (shr r e n) = e + Z.max 0 n.
Proof.
  intros Hm. destruct n as [|p|p]; simpl.
  - rewrite Z.div_1_r. split; [reflexivity | lia].
  - rewrite iter_pos_nat, shr_iter_m, positive_nat_Z by exact Hm.
    split; reflexivity.
  - rewrite Z.div_1_r. split; [reflexivity | lia].
Qed.

Lemma shr_record_of_loc_m (m : Z) (l : location) : shr_m (shr_record_of_loc m l) = m.
Proof. destruct l as [|[| |]]; reflexivity. Qed.

Lemma round_nearest_even_bounds (m : Z) (l : location) :
  m <= round_nearest_even m l <= m + 1.
Proof.
  unfold round_nearest_even.
  destruct l as [|[| |]]; try lia.
  destruct (Z.even m); lia.
Qed.

(** Dividing by [2^n] takes [n] digits off, down to none. *)
Lemma Zdigits2_div_pow2 (m n : Z) :
  0 <= m -> 0 <= n -> Zdigits2 (m / 2 ^ n) + n <= Z.max (Zdigits2 m) n.
Proof.
  intros Hm Hn.
  assert (Hp : 0 < 2 ^ n) by (apply Z.pow_pos_nonneg; lia).
  assert (Hq : 0 <= m / 2 ^ n) by (apply Z.div_pos; lia).
  pose proof (Zdigits2_nonneg m) as Hd.
  assert (H : Zdigits2 (m / 2 ^ n) <= Z.max (Zdigits2 m) n - n).
  { apply Zdigits2_le_iff; [exact Hq | lia |].
    apply Z.div_lt_upper_bound; [exact Hp|].
    rewrite <- Z.pow_add_r by lia.
    replace (n + (Z.max (Zdigits2 m) n - n)) with (Z.max (Zdigits2 m) n) by lia.
    assert (Hm' : m < 2 ^ Zdigits2 m) by (apply Zdigits2_le_iff; lia).
    eapply Z.lt_le_trans; [exact Hm'|].
    apply Z.pow_le_mono_r; lia. }
  lia.
Qed.

Lemma Zdigits2_succ (m : Z) : 0 <= m -> Zdigits2 (m + 1) <= Zdigits2 m + 1.
Proof.
  intros Hm. pose proof (Zdigits2_nonneg m) as Hd.
  apply Zdigits2_le_iff; [lia | lia |].
  assert (Hm' : m < 2 ^ Zdigits2 m) by (apply Zdigits2_le_iff; lia).
  rewrite Z.pow_add_r, Z.pow_1_r by lia.
  lia.
Qed.

Lemma Zdigits2_mono (a b : Z) : 0 <= a <= b -> Zdigits2 a <= Zdigits2 b.
Proof.
  intros [Ha Hab]. pose proof (Zdigits2_nonneg b) as Hd.
  apply Zdigits2_le_iff; [lia | lia |].
  assert (Hb : b < 2 ^ Zdigits2 b) by (apply Zdigits2_le_iff; lia).
  lia.
Qed.


Lemma Zdigits2_mul (a b : Z) : 0 <= a -> 0 <= b -> Zdigits2 (a * b) <= Zdigits2 a + Zdigits2 b.
Proof.
  intros Ha Hb.
  pose proof (Zdigits2_nonneg a) as Hda. pose proof (Zdigits2_nonneg b) as Hdb.
  apply Zdigits2_le_iff; [nia | lia |].
  assert (Ha' : a < 2 ^ Zdigits2 a) by (apply Zdigits2_le_iff; lia).
  assert (Hb' : b < 2 ^ Zdigits2 b) by (apply Zdigits2_le_iff; lia).
  rewrite Z.pow_add_r by lia. nia.
Qed.

Lemma Zdigits2_mul_pow2 (m n : Z) : 0 < m -> 0 <= n -> Zdigits2 (m * 2 ^ n) = Zdigits2 m + n.
Proof.
  intros Hm Hn.
  assert (Hp : 0 < 2 ^ n) by (apply Z.pow_pos_nonneg; lia).
  rewrite !Zdigits2_log2 by nia.
  rewrite Z.log2_mul_pow2 by lia. lia.
Qed.

(** A positive [m] has at least [2^(Zdigits2 m - 1)]. *)
Lemma Zdigits2_lower (m : Z) : 0 < m -> 2 ^ (Zdigits2 m - 1) <= m.
Proof.
  intros Hm. rewrite Zdigits2_log2 by exact Hm.
  replace (Z.log2 m + 1 - 1) with (Z.log2 m) by lia.
  apply Z.log2_spec. exact Hm.
Qed.

Lemma Zdigits2_div (a b : Z) :
  0 <= a -> 0 < b -> Zdigits2 (a / b) <= Z.max 0 (Zdigits2 a - Zdigits2 b + 1).
Proof.
  intros Ha Hb.
  assert (Hq : 0 <= a / b) by (apply Z.div_pos; lia).
  apply Zdigits2_le_iff; [exact Hq | lia |].
  pose proof (Zdigits2_nonneg a) as Hda.
  assert (Ha' : a < 2 ^ Zdigits2 a) by (apply Zdigits2_le_iff; lia).
  pose proof (Zdigits2_lower b Hb) as Hb'.
  assert (Hdb : 1 <= Zdigits2 b) by (rewrite Zdigits2_log2 by lia; pose proof (Z.log2_nonneg b); lia).
  apply Z.div_lt_upper_bound; [exact Hb|].
  destruct (Z.le_gt_cases 0 (Zdigits2 a - Zdigits2 b + 1)) as [Hge|Hlt].
  - rewrite Z.max_r by lia.
    assert (E : 2 ^ Zdigits2 a = 2 ^ (Zdigits2 b - 1) * 2 ^ (Zdigits2 a - Zdigits2 b + 1)).
    { rewrite <- Z.pow_add_r by lia. f_equal. lia. }
    assert (0 < 2 ^ (Zdigits2 a - Zdigits2 b + 1)) by (apply Z.pow_pos_nonneg; lia).
    nia.
  - rewrite Z.max_l by lia. change (2 ^ 0) with 1.
    assert (2 ^ Zdigits2 a <= 2 ^ (Zdigits2 b - 1)) by (apply Z.pow_le_mono_r; lia).
    lia.
Qed.

Lemma Pos_iter_xO (m d : positive) : Zpos (Pos.iter xO m d) = Zpos m * 2 ^ Zpos d.
Proof.
  induction d as [|d IH] using Pos.peano_ind.
  - cbn [Pos.iter]. rewrite Pos2Z.inj_xO. change (2 ^ 1) with 2. ring.
  - rewrite Pos.iter_succ, Pos2Z.inj_xO, IH, Pos2Z.inj_succ, Z.pow_succ_r by lia.
    ring.
Qed.

(** Dividing by [2^n] with [n] below the number of digits leaves a
    positive number with at least the remaining digits. *)
Lemma Zdigits2_div_pow2_lower (m n : Z) :
  0 < m -> 0 <= n < Zdigits2 m ->
  0 < m / 2 ^ n /\ Zdigits2 m <= Zdigits2 (m / 2 ^ n) + n.
Proof.
  intros Hm Hn.
  assert (Hp : 0 < 2 ^ n) by (apply Z.pow_pos_nonneg; lia).
  pose proof (Zdigits2_lower m Hm) as Hl.
  assert (E : 2 ^ (Zdigits2 m - 1) = 2 ^ (Zdigits2 m - 1 - n) * 2 ^ n).
  { rewrite <- Z.pow_add_r by lia. f_equal. lia. }
  assert (Hq : 2 ^ (Zdigits2 m - 1 - n) <= m / 2 ^ n).
  { apply Z.div_le_lower_bound; [exact Hp|]. rewrite Z.mul_comm, <- E. exact Hl. }
  assert (Hp' : 0 < 2 ^ (Zdigits2 m - 1 - n)) by (apply Z.pow_pos_nonneg; lia).
  split; [lia|].
  destruct (Z.le_gt_cases (Zdigits2 m) (Zdigits2 (m / 2 ^ n) + n)) as [H|H]; [exact H|].
  exfalso.
  assert (Hd : Zdigits2 (m / 2 ^ n) <= Zdigits2 m - 1 - n) by lia.
  apply Zdigits2_le_iff in Hd; lia.
Qed.

Section Rounding.
Variables prec emax : Z.
Hypothesis prec_pos : 1 <= prec.

Local Abbreviation emin := (SpecFloat.emin prec emax).
Local Abbreviation fexp := (SpecFloat.fexp prec emax).

(** What [shr_fexp] returns for a non-negative mantissa. *)
Lemma shr_fexp_spec (m e : Z) (l : location) :
  0 <= m ->
  let r := shr_fexp prec emax m e l in
  let e' := Z.max e (fexp (Zdigits2 m + e)) in
  snd r = e' /\
  shr_m (fst r) = m / 2 ^ (e' - e).
Proof.
  intros Hm. unfold shr_fexp. cbv zeta.
  destruct (shr_spec (shr_record_of_loc m l) e (fexp (Zdigits2 m + e) - e))
    as [H1 H2].
  { rewrite shr_record_of_loc_m. exact Hm. }
  rewrite shr_record_of_loc_m in H1.
  rewrite H1, H2. split; [lia|].
  f_equal. f_equal. lia.
Qed.

(** The magnitude [Zdigits2 m + e] of what [binary_round_aux] returns. *)
Lemma binary_round_aux_spec (s : bool) (m e : Z) (l : location) :
  0 <= m ->
  Z.max (Zdigits2 m + e) emin <= emax - prec ->
  match binary_round_aux prec emax s m e l with
  | S754_zero s' => s' = s
  | S754_finite s' m' e' =>
      s' = s /\ Zdigits2 (Zpos m') + e' <= Z.max (Zdigits2 m + e) emin + 1
  | _ => False
  end.
Proof.
  intros Hm Hmax. unfold binary_round_aux.
  pose proof (shr_fexp_spec m e l Hm) as H1. cbv zeta in H1.
  destruct (shr_fexp prec emax m e l) as [mrs1 e1].
  cbn [fst snd] in H1. destruct H1 as [He1 Hm1]. rewrite <- He1 in Hm1.
  set (m1 := round_nearest_even (shr_m mrs1) (loc_of_shr_record mrs1)).
  assert (Hm1nn : 0 <= shr_m mrs1).
  { rewrite Hm1. apply Z.div_pos; [exact Hm | apply Z.pow_pos_nonneg; lia]. }
  pose proof (round_nearest_even_bounds (shr_m mrs1) (loc_of_shr_record mrs1)) as Hr.
  fold m1 in Hr.
  assert (Hm1' : 0 <= m1) by lia.
  pose proof (shr_fexp_spec m1 e1 loc_Exact Hm1') as H2. cbv zeta in H2.
  destruct (shr_fexp prec emax m1 e1 loc_Exact) as [mrs2 e2].
  cbn [fst snd] in H2. destruct H2 as [He2 Hm2]. rewrite <- He2 in Hm2.
  (* magnitudes *)
  pose proof (Zdigits2_nonneg m) as Hd.
  assert (Hfe : forall k, fexp k = Z.max (k - prec) emin) by reflexivity.
  assert (Hmag1 : Zdigits2 (shr_m mrs1) + e1 <= Z.max (Zdigits2 m + e) emin).
  { rewrite Hm1.
    pose proof (Zdigits2_div_pow2 m (e1 - e) Hm) as Hdv.
    rewrite He1, Hfe in *. lia. }
  assert (Hd1 : Zdigits2 m1 <= Zdigits2 (shr_m mrs1) + 1).
  { eapply Z.le_trans; [apply (Zdigits2_mono m1 (shr_m mrs1 + 1)); lia|].
    apply Zdigits2_succ. exact Hm1nn. }
  assert (He1b : e1 <= Z.max (Zdigits2 m + e) emin).
  { rewrite He1, Hfe. lia. }
  assert (He2b : e2 <= Z.max (Zdigits2 m + e) emin).
  { rewrite He2, Hfe. lia. }
  assert (Hmag2 : Zdigits2 (shr_m mrs2) + e2 <= Z.max (Zdigits2 m + e) emin + 1).
  { rewrite Hm2.
    pose proof (Zdigits2_div_pow2 m1 (e2 - e1) Hm1') as Hdv.
    assert (0 <= e2 - e1) by (rewrite He2; lia).
    specialize (Hdv H). lia. }
  assert (Hm2nn : 0 <= shr_m mrs2).
  { rewrite Hm2. apply Z.div_pos; [exact Hm1'|].
    apply Z.pow_pos_nonneg; [lia | rewrite He2; lia]. }
  destruct (shr_m mrs2) as [|p|p]; [reflexivity | | lia].
  replace (e2 <=? emax - prec) with true by (symmetry; apply Z.leb_le; lia).
  split; [reflexivity | exact Hmag2].
Qed.


(** [binary_round]: the mantissa is first shifted left onto at least
    [prec] digits, which leaves the magnitude as it is. *)
Lemma shl_align_spec (m : positive) (e e' : Z) :
  let r := shl_align m e e' in
  Zdigits2 (Zpos (fst r)) + snd r = Zdigits2 (Zpos m) + e.
Proof.
  unfold shl_align. destruct (e' - e) as [|d|d] eqn:E; cbn [fst snd]; try reflexivity.
  rewrite Pos_iter_xO, Zdigits2_mul_pow2 by lia. lia.
Qed.

Lemma binary_round_spec (s : bool) (m : positive) (e : Z) :
  Z.max (Zdigits2 (Zpos m) + e) emin <= emax - prec ->
  match binary_round prec emax s m e with
  | S754_zero s' => s' = s
  | S754_finite s' m' e' =>
      s' = s /\ Zdigits2 (Zpos m') + e' <= Z.max (Zdigits2 (Zpos m) + e) emin + 1
  | _ => False
  end.
Proof.
  intros H. unfold binary_round.
  pose proof (shl_align_spec m e (fexp (Zpos (digits2_pos m) + e))) as Hs.
  cbv zeta in Hs.
  destruct (shl_align m e (fexp (Zpos (digits2_pos m) + e))) as [mz ez].
  cbn [fst snd] in Hs.
  pose proof (binary_round_aux_spec s (Zpos mz) ez loc_Exact) as Hr.
  rewrite Hs in Hr. apply Hr; [lia | exact H].
Qed.


(** When the magnitude is above [emin], rounding never lowers it: the
    result is finite with a magnitude at least that of the input, or an
    infinity. *)
Lemma binary_round_aux_lower (s : bool) (m e : Z) (l : location) :
  0 < m ->
  emin < Zdigits2 m + e ->
  match binary_round_aux prec emax s m e l with
  | S754_finite _ m' e' => Zdigits2 m + e <= Zdigits2 (Zpos m') + e'
  | S754_infinity _ => True
  | _ => False
  end.
Proof.
  intros Hm Hmin. unfold binary_round_aux.
  pose proof (shr_fexp_spec m e l ltac:(lia)) as H1. cbv zeta in H1.
  destruct (shr_fexp prec emax m e l) as [mrs1 e1].
  cbn [fst snd] in H1. destruct H1 as [He1 Hm1]. rewrite <- He1 in Hm1.
  set (m1 := round_nearest_even (shr_m mrs1) (loc_of_shr_record mrs1)).
  assert (Hfe : forall k, fexp k = Z.max (k - prec) emin) by reflexivity.
  rewrite Hfe in He1.
  assert (Hdm : 1 <= Zdigits2 m).
  { rewrite Zdigits2_log2 by lia. pose proof (Z.log2_nonneg m). lia. }
  assert (Hn1 : 0 <= e1 - e < Zdigits2 m) by lia.
  pose proof (Zdigits2_div_pow2_lower m (e1 - e) Hm Hn1) as [Hpos1 Hlow1].
  rewrite <- Hm1 in Hpos1, Hlow1.
  pose proof (round_nearest_even_bounds (shr_m mrs1) (loc_of_shr_record mrs1)) as Hr.
  fold m1 in Hr.
  assert (Hm1pos : 0 < m1) by lia.
  assert (Hd1 : Zdigits2 (shr_m mrs1) <= Zdigits2 m1) by (apply Zdigits2_mono; lia).
  pose proof (shr_fexp_spec m1 e1 loc_Exact ltac:(lia)) as H2. cbv zeta in H2.
  destruct (shr_fexp prec emax m1 e1 loc_Exact) as [mrs2 e2].
  cbn [fst snd] in H2. destruct H2 as [He2 Hm2]. rewrite <- He2 in Hm2.
  rewrite Hfe in He2.
  assert (Hn2 : 0 <= e2 - e1 < Zdigits2 m1) by lia.
  pose proof (Zdigits2_div_pow2_lower m1 (e2 - e1) Hm1pos Hn2) as [Hpos2 Hlow2].
  rewrite <- Hm2 in Hpos2, Hlow2.
  destruct (shr_m mrs2) as [|p|p]; [lia | | lia].
  destruct (e2 <=? emax - prec); [|exact I].
  lia.
Qed.

Lemma binary_round_lower (s : bool) (m : positive) (e : Z) :
  emin < Zdigits2 (Zpos m) + e ->
  match binary_round prec emax s m e with
  | S754_finite _ m' e' => Zdigits2 (Zpos m) + e <= Zdigits2 (Zpos m') + e'
  | S754_infinity _ => True
  | _ => False
  end.
Proof.
  intros H. unfold binary_round.
  pose proof (shl_align_spec m e (fexp (Zpos (digits2_pos m) + e))) as Hs.
  cbv zeta in Hs.
  destruct (shl_align m e (fexp (Zpos (digits2_pos m) + e))) as [mz ez].
  cbn [fst snd] in Hs.
  pose proof (binary_round_aux_lower s (Zpos mz) ez loc_Exact) as Hr.
  rewrite Hs in Hr. apply Hr; [lia | exact H].
Qed.

End Rounding.


Lemma magnitude_le_mono (A B : Z) (x : spec_float) :
  A <= B -> magnitude_le A x -> magnitude_le B x.
Proof. destruct x; simpl; try tauto. lia. Qed.

Section Operations.
Variables prec emax : Z.
Hypothesis prec_pos : 1 <= prec.
Local Abbreviation emin := (SpecFloat.emin prec emax).

Lemma binary_normalize_magnitude (z : Z) (k : Z) :
  0 <= k ->
  Z.abs z < 2 ^ k ->
  Z.max k emin <= emax - prec ->
  magnitude_le (Z.max k emin + 1) (binary_normalize prec emax z 0 false).
Proof.
  intros Hk Hz Hmax.
  destruct z as [|m|m]; cbn [binary_normalize]; [exact I | |].
  - pose proof (binary_round_spec prec emax prec_pos false m 0) as H.
    assert (Hd : Zdigits2 (Zpos m) <= k) by (apply Zdigits2_le_iff; lia).
    assert (Hp : Z.max (Zdigits2 (Zpos m) + 0) emin <= emax - prec) by lia.
    specialize (H Hp).
    destruct (binary_round prec emax false m 0); cbn [magnitude_le]; try tauto.
    destruct H as [_ H]. lia.
  - pose proof (binary_round_spec prec emax prec_pos true m 0) as H.
    assert (Hd : Zdigits2 (Zpos m) <= k) by (apply Zdigits2_le_iff; lia).
    assert (Hp : Z.max (Zdigits2 (Zpos m) + 0) emin <= emax - prec) by lia.
    specialize (H Hp).
    destruct (binary_round prec emax true m 0); cbn [magnitude_le]; try tauto.
    destruct H as [_ H]. lia.
Qed.

Lemma SFmul_magnitude (A B : Z) (x y : spec_float) :
  magnitude_le A x -> magnitude_le B y ->
  Z.max (A + B) emin <= emax - prec ->
  magnitude_le (Z.max (A + B) emin + 1) (SFmul prec emax x y).
Proof.
  intros Hx Hy Hmax.
  destruct x as [sx|sx| |sx mx ex], y as [sy|sy| |sy my ey];
    cbn [SFmul]; cbn [magnitude_le] in Hx, Hy |- *; try tauto.
  pose proof (binary_round_aux_spec prec emax prec_pos (xorb sx sy)
                (Zpos (mx * my)) (ex + ey) loc_Exact) as H.
  pose proof (Zdigits2_mul (Zpos mx) (Zpos my)) as Hd.
  rewrite <- Pos2Z.inj_mul in Hd.
  assert (Hp : Z.max (Zdigits2 (Zpos (mx * my)) + (ex + ey)) emin <= emax - prec) by lia.
  specialize (H ltac:(lia) Hp).
  destruct (binary_round_aux prec emax (xorb sx sy) (Zpos (mx * my)) (ex + ey) loc_Exact);
    cbn [magnitude_le]; try tauto.
  destruct H as [_ H]. lia.
Qed.


Lemma SFdiv_core_binary_spec (m1 m2 : positive) (e1 e2 : Z) :
  let r := SFdiv_core_binary prec emax (Zpos m1) e1 (Zpos m2) e2 in
  0 <= fst (fst r) /\
  Zdigits2 (fst (fst r)) + snd (fst r)
    <= Z.max (Zdigits2 (Zpos m1) + e1 - (Zdigits2 (Zpos m2) + e2) + 1) emin.
Proof.
  unfold SFdiv_core_binary.
  set (M := Zdigits2 (Zpos m1) + e1 - (Zdigits2 (Zpos m2) + e2)).
  set (e' := Z.min (fexp prec emax M) (e1 - e2)).
  set (s := e1 - e2 - e').
  assert (Hs : 0 <= s) by (unfold s, e'; lia).
  set (m' := match s with
             | Zpos _ => Z.shiftl (Zpos m1) s
             | Z0 => Zpos m1
             | Zneg _ => Z0
             end).
  assert (Hm' : m' = Zpos m1 * 2 ^ s).
  { unfold m'. destruct s as [|p|p]; [simpl; lia | | lia].
    apply Z.shiftl_mul_pow2. lia. }
  destruct (Z.div_eucl m' (Zpos m2)) as [q r] eqn:E.
  assert (Hq : q = m' / Zpos m2) by (unfold Z.div; rewrite E; reflexivity).
  cbv zeta. cbn [fst snd].
  assert (Hp : 0 < 2 ^ s) by (apply Z.pow_pos_nonneg; lia).
  assert (Hm'pos : 0 < m') by (rewrite Hm'; nia).
  split.
  - rewrite Hq. apply Z.div_pos; lia.
  - pose proof (Zdigits2_div m' (Zpos m2) ltac:(lia) ltac:(lia)) as Hd.
    rewrite <- Hq in Hd.
    rewrite Hm', Zdigits2_mul_pow2 in Hd by lia.
    assert (He' : e' <= Z.max M emin).
    { unfold e', fexp. fold emin. lia. }
    unfold s in Hd. unfold M in *. lia.
Qed.

Lemma SFdiv_magnitude (A C : Z) (x : spec_float) (sy : bool) (my : positive) (ey : Z) :
  magnitude_le A x ->
  C <= Zdigits2 (Zpos my) + ey ->
  Z.max (A - C + 1) emin <= emax - prec ->
  magnitude_le (Z.max (A - C + 1) emin + 1)
    (SFdiv prec emax x (S754_finite sy my ey)).
Proof.
  intros Hx Hy Hmax.
  destruct x as [sx|sx| |sx mx ex]; cbn [SFdiv];
    cbn [magnitude_le] in Hx |- *; try tauto.
  pose proof (SFdiv_core_binary_spec mx my ex ey) as Hc. cbv zeta in Hc.
  destruct (SFdiv_core_binary prec emax (Zpos mx) ex (Zpos my) ey) as [[mz ez] lz].
  cbn [fst snd] in Hc. destruct Hc as [Hq Hmag].
  pose proof (binary_round_aux_spec prec emax prec_pos (xorb sx sy) mz ez lz Hq) as H.
  assert (Hp : Z.max (Zdigits2 mz + ez) emin <= emax - prec) by lia.
  specialize (H Hp).
  destruct (binary_round_aux prec emax (xorb sx sy) mz ez lz);
    cbn [magnitude_le]; try tauto.
  destruct H as [_ H]. lia.
Qed.

End Operations.


(** A value below 1 in absolute value has integral part 0. *)
Lemma trunc_small (x : spec_float) : magnitude_le 0 x -> trunc x = Some 0.
Proof.
  destruct x as [s|s| |s m e]; cbn [magnitude_le trunc]; try tauto.
  intros H.
  assert (Hd : 1 <= Zdigits2 (Zpos m)).
  { rewrite Zdigits2_log2 by lia. pose proof (Z.log2_nonneg (Zpos m)). lia. }
  destruct e as [|p|p]; try lia.
  rewrite Z.shiftr_div_pow2 by lia.
  assert (Hm : Zpos m < 2 ^ Zpos p).
  { apply Zdigits2_le_iff; lia. }
  rewrite Z.div_small by lia.
  destruct s; reflexivity.
Qed.



Lemma cond_Zopp_abs (s : bool) (m : Z) : Z.abs (cond_Zopp s m) = Z.abs m.
Proof. destruct s; simpl; [apply Z.abs_opp | reflexivity]. Qed.

(** A finite value below [2^-k] in absolute value has magnitude at most [-k]. *)
Lemma SF2Q_small (k : positive) (c : spec_float) :
  is_finite c = true ->
  (Qabs (SF2Q c) < 1 # (2 ^ k))%Q ->
  magnitude_le (- Zpos k) c.
Proof.
  destruct c as [s|s| |s m e]; cbn [is_finite magnitude_le SF2Q]; try discriminate;
    intros _ H; [exact I|].
  assert (Hk : 0 < 2 ^ Zpos k) by (apply Z.pow_pos_nonneg; lia).
  destruct e as [|p|p].
  - exfalso. unfold Qlt in H. cbn in H.
    rewrite Z.mul_1_r, cond_Zopp_abs, Pos2Z.inj_pow in H. lia.
  - exfalso. unfold Qlt, inject_Z, Qabs in H. cbn [Qnum Qden] in H.
    rewrite Z.abs_mul, cond_Zopp_abs, Pos2Z.inj_pow in H.
    assert (0 < 2 ^ Zpos p) by (apply Z.pow_pos_nonneg; lia).
    rewrite (Z.abs_eq (2 ^ Zpos p)) in H by lia.
    cbn [Z.abs] in H. nia.
  - unfold Qlt, Qabs in H. cbn [Qnum Qden] in H.
    rewrite cond_Zopp_abs, !Pos2Z.inj_pow in H. cbn [Z.abs] in H.
    rewrite Z.mul_1_l in H.
    assert (Hp : 0 < 2 ^ Zpos p) by (apply Z.pow_pos_nonneg; lia).
    (* m * 2^k < 2^p *)
    assert (Hkp : Zpos k < Zpos p).
    { destruct (Z.lt_ge_cases (Zpos k) (Zpos p)) as [Hlt|Hge]; [exact Hlt|].
      exfalso.
      assert (2 ^ Zpos p <= 2 ^ Zpos k) by (apply Z.pow_le_mono_r; lia).
      nia. }
    assert (Hm : Zpos m < 2 ^ (Zpos p - Zpos k)).
    { assert (E : 2 ^ Zpos p = 2 ^ (Zpos p - Zpos k) * 2 ^ Zpos k).
      { rewrite <- Z.pow_add_r by lia. f_equal. lia. }
      rewrite E in H. nia. }
    assert (Hd : Zdigits2 (Zpos m) <= Zpos p - Zpos k).
    { apply Zdigits2_le_iff; lia. }
    lia.
Qed.

(** The integral part against the exact value: it is no larger in absolute
    value, and less than 1 away. *)
Lemma trunc_spec (x : spec_float) (t : Z) :
  trunc x = Some t ->
  (Qabs (inject_Z t) <= Qabs (SF2Q x))%Q /\
  (Qabs (SF2Q x - inject_Z t) < 1)%Q.
Proof.
  destruct x as [s|s| |s m e]; cbn [trunc SF2Q]; try discriminate.
  - intros H. injection H as <-. split; [apply Qle_refl | reflexivity].
  - intros H. injection H as <-.
    destruct e as [|p|p].
    + rewrite Z.shiftl_0_r, Z.mul_1_r.
      split; [apply Qle_refl|].
      unfold Qlt, Qabs, Qminus, Qplus, Qopp, inject_Z. cbn [Qnum Qden].
      rewrite !Z.mul_1_r. rewrite Z.add_opp_diag_r. reflexivity.
    + rewrite Z.shiftl_mul_pow2 by lia.
      replace (cond_Zopp s (Zpos m * 2 ^ Zpos p))
        with (cond_Zopp s (Zpos m) * 2 ^ Zpos p)
        by (destruct s; cbn [cond_Zopp]; [apply Z.mul_opp_l | reflexivity]).
      split; [apply Qle_refl|].
      unfold Qlt, Qabs, Qminus, Qplus, Qopp, inject_Z. cbn [Qnum Qden].
      rewrite !Z.mul_1_r. rewrite Z.add_opp_diag_r. reflexivity.
    + rewrite Z.shiftr_div_pow2 by lia.
      assert (Hp : 0 < 2 ^ Zpos p) by (apply Z.pow_pos_nonneg; lia).
      pose proof (Z.div_mod (Zpos m) (2 ^ Zpos p) ltac:(lia)) as Hdm.
      pose proof (Z.mod_pos_bound (Zpos m) (2 ^ Zpos p) Hp) as Hr.
      assert (Hq : 0 <= Zpos m / 2 ^ Zpos p) by (apply Z.div_pos; lia).
      unfold Qle, Qlt, Qabs, Qminus, Qplus, Qopp, inject_Z. cbn [Qnum Qden].
      rewrite !cond_Zopp_abs, !Z.mul_1_r, !Pos2Z.inj_pow.
      rewrite Pos.mul_1_r, Pos2Z.inj_pow.
      rewrite (Z.abs_eq (Zpos m / 2 ^ Zpos p)) by exact Hq.
      cbn [Z.abs].
      split; [nia|].
      destruct s; cbn [cond_Zopp]; nia.
Qed.

Lemma trunc_integral (x : spec_float) (t n : Z) :
  trunc x = Some t -> (SF2Q x == inject_Z n)%Q -> t = n.
Proof.
  intros Ht Hn.
  destruct (trunc_spec x t Ht) as [_ H].
  rewrite Hn in H.
  unfold Qlt, Qabs, Qminus, Qplus, Qopp, inject_Z in H. cbn [Qnum Qden] in H.
  lia.
Qed.

Lemma int_of_double_trunc (x : double) (z : Z) :
  int_of_double x = Some z -> trunc x = Some z.
Proof.
  unfold int_of_double, int_checked. destruct (trunc x) as [t|]; cbn [obind].
  - destruct (in_int t); congruence.
  - discriminate.
Qed.

Lemma fmin_cases (x y : double) : fmin x y = x \/ fmin x y = y.
Proof.
  unfold fmin. destruct (is_nan x); [tauto|].
  destruct (is_nan y); [tauto|]. destruct (flt y x); tauto.
Qed.

Lemma double_of_Z_3 : double_of_Z 3 = S754_finite false 6755399441055744 (-51).
Proof. vm_compute. reflexivity. Qed.

(** The double taken for the literal [3.1415926535897932] is within half
    a unit in the last place, [2^-52], of the decimal. *)
Lemma PI_literal_nearest :
  (Qabs (SF2Q PI_literal - (31415926535897932 # 10000000000000000))
   <= 1 # (2 ^ 52))%Q.
Proof. vm_compute. discriminate. Qed.

(** ** Floating point: the distance to the exact result

    Each operation rounds to nearest even.  With the result not
    overflowing, it is less than two units in the last place away from the
    exact value; the lemmas below give that distance as a power of two, from
    the magnitudes of the operands. *)

Lemma pow2_pos (k : Z) : (0 < pow2 k)%Q.
Proof. apply Qpower_0_lt. reflexivity. Qed.

Lemma pow2_add (a b : Z) : (pow2 (a + b) == pow2 a * pow2 b)%Q.
Proof. apply Qpower_plus. discriminate. Qed.

Lemma pow2_le (a b : Z) : a <= b -> (pow2 a <= pow2 b)%Q.
Proof. intros H. apply Qpower_le_compat_l; [exact H | discriminate]. Qed.

Lemma pow2_inject (n : Z) : 0 <= n -> (inject_Z (2 ^ n) == pow2 n)%Q.
Proof. intros H. apply Zpower_Qpower. exact H. Qed.

Lemma pow2_S (k : Z) : (pow2 (k + 1) == 2 * pow2 k)%Q.
Proof. rewrite pow2_add. unfold pow2 at 2. rewrite Qpower_1_r. ring. Qed.

(** The exact value of a finite number: sign, mantissa, power of two. *)
Lemma SF2Q_finite (s : bool) (m : positive) (e : Z) :
  (SF2Q (S754_finite s m e) == inject_Z (cond_Zopp s (Zpos m)) * pow2 e)%Q.
Proof.
  cbn [SF2Q]. destruct e as [|p|p].
  - rewrite Z.mul_1_r. unfold pow2. rewrite Qpower_0_r. ring.
  - rewrite inject_Z_mult, pow2_inject by lia. reflexivity.
  - rewrite Qmake_Qdiv. unfold pow2.
    change (Z.neg p) with (- Z.pos p). rewrite Qpower_opp.
    rewrite <- (pow2_inject (Z.pos p)) by lia.
    rewrite Pos2Z.inj_pow. reflexivity.
Qed.

Lemma Qabs_inject_Z (z : Z) : Qabs (inject_Z z) = inject_Z (Z.abs z).
Proof. reflexivity. Qed.

Lemma Qabs_pow2 (k : Z) : (Qabs (pow2 k) == pow2 k)%Q.
Proof. apply Qabs_pos. apply Qlt_le_weak. apply pow2_pos. Qed.

(** An integer below [2^n] in absolute value, on the scale of [2^e]. *)
Lemma scaled_lt (z n e : Z) :
  0 <= n -> Z.abs z < 2 ^ n ->
  (Qabs (inject_Z z * pow2 e) < pow2 (n + e))%Q.
Proof.
  intros Hn Hz.
  rewrite Qabs_Qmult, Qabs_inject_Z, Qabs_pow2, pow2_add.
  rewrite <- (pow2_inject n Hn).
  apply Qmult_lt_compat_r; [apply pow2_pos|].
  rewrite <- Zlt_Qlt. exact Hz.
Qed.

Lemma cond_Zopp_sub (s : bool) (a b : Z) :
  cond_Zopp s a - cond_Zopp s b = cond_Zopp s (a - b).
Proof. destruct s; cbn [cond_Zopp]; lia. Qed.

Lemma cond_Zopp_mul (s : bool) (a b : Z) :
  cond_Zopp s a * b = cond_Zopp s (a * b).
Proof. destruct s; cbn [cond_Zopp]; lia. Qed.

Section RoundingError.
Variables prec emax : Z.
Hypothesis prec_pos : 1 <= prec.
Local Abbreviation emin := (SpecFloat.emin prec emax).
Local Abbreviation fexp := (SpecFloat.fexp prec emax).

(** How far [binary_round_aux] lands from [m * 2^e], on the scale of [2^e]. *)
Lemma binary_round_aux_error (s : bool) (m e : Z) (l : location) :
  0 <= m ->
  Z.max (Zdigits2 m + e) emin <= emax - prec ->
  match binary_round_aux prec emax s m e l with
  | S754_zero s' =>
      s' = s /\
      m < 2 ^ (Z.max e (Z.max (Zdigits2 m + e + 1 - prec) emin) + 1 - e)
  | S754_finite s' m2 e2 =>
      s' = s /\
      e <= e2 <= Z.max e (Z.max (Zdigits2 m + e + 1 - prec) emin) /\
      Z.abs (Zpos m2 * 2 ^ (e2 - e) - m) < 2 ^ (e2 - e + 1)
  | _ => False
  end.
Proof.
  intros Hm Hmax. unfold binary_round_aux.
  pose proof (shr_fexp_spec prec emax m e l Hm) as H1. cbv zeta in H1.
  destruct (shr_fexp prec emax m e l) as [mrs1 e1].
  cbn [fst snd] in H1. destruct H1 as [He1 Hm1]. rewrite <- He1 in Hm1.
  set (m1 := round_nearest_even (shr_m mrs1) (loc_of_shr_record mrs1)).
  assert (Hfe : forall k, fexp k = Z.max (k - prec) emin) by reflexivity.
  rewrite Hfe in He1.
  assert (Hn1 : 0 <= e1 - e) by lia.
  assert (Hp1 : 0 < 2 ^ (e1 - e)) by (apply Z.pow_pos_nonneg; lia).
  assert (Hm1nn : 0 <= shr_m mrs1).
  { rewrite Hm1. apply Z.div_pos; lia. }
  pose proof (Z.div_mod m (2 ^ (e1 - e)) ltac:(lia)) as Hdm1.
  pose proof (Z.mod_pos_bound m (2 ^ (e1 - e)) Hp1) as Hr1.
  rewrite <- Hm1 in Hdm1.
  pose proof (round_nearest_even_bounds (shr_m mrs1) (loc_of_shr_record mrs1)) as Hr.
  fold m1 in Hr.
  assert (Hm1' : 0 <= m1) by lia.
  pose proof (shr_fexp_spec prec emax m1 e1 loc_Exact Hm1') as H2. cbv zeta in H2.
  destruct (shr_fexp prec emax m1 e1 loc_Exact) as [mrs2 e2].
  cbn [fst snd] in H2. destruct H2 as [He2 Hm2]. rewrite <- He2 in Hm2.
  rewrite Hfe in He2.
  assert (Hn2 : 0 <= e2 - e1) by lia.
  assert (Hp2 : 0 < 2 ^ (e2 - e1)) by (apply Z.pow_pos_nonneg; lia).
  pose proof (Z.div_mod m1 (2 ^ (e2 - e1)) ltac:(lia)) as Hdm2.
  pose proof (Z.mod_pos_bound m1 (2 ^ (e2 - e1)) Hp2) as Hr2.
  rewrite <- Hm2 in Hdm2.
  assert (Hm2nn : 0 <= shr_m mrs2).
  { rewrite Hm2. apply Z.div_pos; lia. }
  (* exponents *)
  pose proof (Zdigits2_nonneg m) as Hd.
  assert (Hmag1 : Zdigits2 (shr_m mrs1) + e1 <= Z.max (Zdigits2 m + e) emin).
  { rewrite Hm1.
    pose proof (Zdigits2_div_pow2 m (e1 - e) Hm Hn1) as Hdv. lia. }
  assert (Hd1 : Zdigits2 m1 <= Zdigits2 (shr_m mrs1) + 1).
  { eapply Z.le_trans; [apply (Zdigits2_mono m1 (shr_m mrs1 + 1)); lia|].
    apply Zdigits2_succ. exact Hm1nn. }
  assert (He2B : e2 <= Z.max e (Z.max (Zdigits2 m + e + 1 - prec) emin)) by lia.
  (* the three scales *)
  assert (E12 : 2 ^ (e2 - e) = 2 ^ (e1 - e) * 2 ^ (e2 - e1)).
  { rewrite <- Z.pow_add_r by lia. f_equal. lia. }
  assert (E2 : 2 ^ (e2 - e + 1) = 2 * 2 ^ (e2 - e)).
  { rewrite Z.pow_add_r, Z.pow_1_r by lia. ring. }
  assert (Hle : 2 ^ (e1 - e) <= 2 ^ (e2 - e)).
  { apply Z.pow_le_mono_r; lia. }
  destruct (shr_m mrs2) as [|p|p] eqn:Ep; [| | lia].
  - split; [reflexivity|].
    eapply Z.lt_le_trans with (2 ^ (e2 - e + 1)).
    + rewrite E2, E12. nia.
    + apply Z.pow_le_mono_r; lia.
  - replace (e2 <=? emax - prec) with true by (symmetry; apply Z.leb_le; lia).
    split; [reflexivity|]. split; [lia|].
    rewrite E2. apply Z.abs_lt. rewrite E12. nia.
Qed.


(** The same against the exact rational: the result is zero or finite,
    has the sign asked for, and is less than [2^(B+1)] away, [B] the
    largest exponent the rounding can end on. *)
Lemma binary_round_aux_error_Q (s : bool) (m e : Z) (l : location) :
  0 <= m ->
  Z.max (Zdigits2 m + e) emin <= emax - prec ->
  is_finite (binary_round_aux prec emax s m e l) = true /\
  (Qabs (SF2Q (binary_round_aux prec emax s m e l)
         - inject_Z (cond_Zopp s m) * pow2 e)
   < pow2 (Z.max e (Z.max (Zdigits2 m + e + 1 - prec) emin) + 1))%Q.
Proof.
  intros Hm Hmax.
  pose proof (binary_round_aux_error s m e l Hm Hmax) as H.
  set (B := Z.max e (Z.max (Zdigits2 m + e + 1 - prec) emin)) in *.
  destruct (binary_round_aux prec emax s m e l) as [s'|s'| |s' m2 e2];
    try contradiction.
  - destruct H as [_ H]. split; [reflexivity|].
    cbn [SF2Q].
    setoid_replace (0 - inject_Z (cond_Zopp s m) * pow2 e)%Q
      with (inject_Z (- cond_Zopp s m) * pow2 e)%Q
      by (rewrite inject_Z_opp; ring).
    replace (B + 1) with (B + 1 - e + e) by lia.
    apply scaled_lt; [lia|].
    rewrite Z.abs_opp, cond_Zopp_abs, Z.abs_eq by exact Hm. exact H.
  - destruct H as (-> & He2 & H). split; [reflexivity|].
    rewrite SF2Q_finite.
    assert (E : (pow2 e2 == inject_Z (2 ^ (e2 - e)) * pow2 e)%Q).
    { rewrite pow2_inject by lia. rewrite <- pow2_add. f_equiv. lia. }
    setoid_replace (inject_Z (cond_Zopp s (Z.pos m2)) * pow2 e2
                    - inject_Z (cond_Zopp s m) * pow2 e)%Q
      with (inject_Z (cond_Zopp s (Z.pos m2 * 2 ^ (e2 - e) - m)) * pow2 e)%Q.
    + eapply Qlt_le_trans.
      * apply (scaled_lt _ (e2 - e + 1) e); [lia|].
        rewrite cond_Zopp_abs. exact H.
      * apply pow2_le. lia.
    + rewrite E, <- cond_Zopp_sub, <- cond_Zopp_mul.
      unfold Zminus. rewrite inject_Z_plus, inject_Z_opp, inject_Z_mult. ring.
Qed.


Lemma shr_fexp_noshift (m e : Z) (l : location) :
  fexp (Zdigits2 m + e) <= e ->
  shr_fexp prec emax m e l = (shr_record_of_loc m l, e).
Proof.
  intros H. unfold shr_fexp, shr.
  destruct (fexp (Zdigits2 m + e) - e) as [|p|p] eqn:E; try reflexivity. lia.
Qed.

(** A mantissa that already sits on its exponent goes through unchanged. *)
Lemma binary_round_aux_exact (s : bool) (m : positive) (e : Z) :
  fexp (Zdigits2 (Zpos m) + e) <= e ->
  e <= emax - prec ->
  binary_round_aux prec emax s (Zpos m) e loc_Exact = S754_finite s m e.
Proof.
  intros Hf He. unfold binary_round_aux.
  rewrite (shr_fexp_noshift (Zpos m) e loc_Exact Hf).
  cbn [shr_record_of_loc shr_m loc_of_shr_record round_nearest_even].
  rewrite (shr_fexp_noshift (Zpos m) e loc_Exact Hf).
  cbn [shr_record_of_loc shr_m].
  replace (e <=? emax - prec) with true by (symmetry; apply Z.leb_le; exact He).
  reflexivity.
Qed.

(** [binary_round] against the exact rational. *)
Lemma binary_round_error_Q (s : bool) (m : positive) (e : Z) :
  Z.max (Zdigits2 (Zpos m) + e) emin <= emax - prec ->
  is_finite (binary_round prec emax s m e) = true /\
  (Qabs (SF2Q (binary_round prec emax s m e)
         - inject_Z (cond_Zopp s (Zpos m)) * pow2 e)
   < pow2 (Z.max (Zdigits2 (Zpos m) + e + 1 - prec) emin + 1))%Q.
Proof.
  intros Hmax. unfold binary_round.
  pose proof (shl_align_spec m e (fexp (Zpos (digits2_pos m) + e))) as Hs.
  cbv zeta in Hs.
  assert (Hv : let r := shl_align m e (fexp (Zpos (digits2_pos m) + e)) in
               snd r <= e /\ snd r <= fexp (Zpos (digits2_pos m) + e) /\
               Zpos (fst r) = Zpos m * 2 ^ (e - snd r)).
  { unfold shl_align. cbv zeta.
    destruct (fexp (Zpos (digits2_pos m) + e) - e) as [|d|d] eqn:E; cbn [fst snd].
    - rewrite Z.sub_diag, Z.pow_0_r, Z.mul_1_r. lia.
    - rewrite Z.sub_diag, Z.pow_0_r, Z.mul_1_r. lia.
    - rewrite Pos_iter_xO. split; [lia|]. split; [lia|]. f_equal. f_equal. lia. }
  cbv zeta in Hv.
  destruct (shl_align m e (fexp (Zpos (digits2_pos m) + e))) as [mz ez].
  cbn [fst snd] in Hs, Hv. destruct Hv as (Hez & Hezf & Hmz).
  change (Zpos (digits2_pos m)) with (Zdigits2 (Zpos m)) in *.
  pose proof (binary_round_aux_error_Q s (Zpos mz) ez loc_Exact ltac:(lia)) as H.
  rewrite Hs in H. specialize (H Hmax). destruct H as [Hfin H].
  split; [exact Hfin|].
  assert (Hfe : forall k, fexp k = Z.max (k - prec) emin) by reflexivity.
  rewrite Hfe in Hezf.
  replace (Z.max ez (Z.max (Zdigits2 (Zpos m) + e + 1 - prec) emin))
    with (Z.max (Zdigits2 (Zpos m) + e + 1 - prec) emin) in H by lia.
  assert (E : (inject_Z (cond_Zopp s (Zpos mz)) * pow2 ez
               == inject_Z (cond_Zopp s (Zpos m)) * pow2 e)%Q).
  { rewrite Hmz, <- cond_Zopp_mul, inject_Z_mult.
    rewrite (pow2_inject (e - ez)) by lia.
    rewrite <- Qmult_assoc, <- pow2_add. f_equiv. f_equiv. lia. }
  rewrite E in H. exact H.
Qed.

End RoundingError.

Lemma cond_Zopp_xorb (sx sy : bool) (a b : Z) :
  cond_Zopp (xorb sx sy) (a * b) = cond_Zopp sx a * cond_Zopp sy b.
Proof. destruct sx, sy; cbn [xorb cond_Zopp]; lia. Qed.

Section OperationErrors.
Variables prec emax : Z.
Hypothesis prec_pos : 1 <= prec.
Local Abbreviation emin := (SpecFloat.emin prec emax).
Local Abbreviation fexp := (SpecFloat.fexp prec emax).

(** An integer of at most [prec] digits converts exactly, onto a mantissa
    of [prec] digits. *)
Lemma binary_normalize_small (z : Z) :
  z <> 0 ->
  Z.abs z < 2 ^ prec ->
  emin <= 1 - prec ->
  prec <= emax ->
  exists m : positive,
    binary_normalize prec emax z 0 false
      = S754_finite (z <? 0) m (Zdigits2 (Z.abs z) - prec) /\
    Zpos m = Z.abs z * 2 ^ (prec - Zdigits2 (Z.abs z)).
Proof.
  intros Hz Hlt Hemin Hemax.
  assert (Hgen : forall (s : bool) (p : positive),
             Zpos p < 2 ^ prec ->
             exists m : positive,
               binary_round prec emax s p 0
                 = S754_finite s m (Zdigits2 (Zpos p) - prec) /\
               Zpos m = Zpos p * 2 ^ (prec - Zdigits2 (Zpos p))).
  { intros s p Hp.
    assert (Hd : Zdigits2 (Zpos p) <= prec) by (apply Zdigits2_le_iff; lia).
    assert (Hd1 : 1 <= Zdigits2 (Zpos p)).
    { rewrite Zdigits2_log2 by lia. pose proof (Z.log2_nonneg (Zpos p)). lia. }
    assert (Hfe : forall k, fexp k = Z.max (k - prec) emin) by reflexivity.
    unfold binary_round.
    pose proof (shl_align_spec p 0 (fexp (Zpos (digits2_pos p) + 0))) as Hs.
    cbv zeta in Hs.
    assert (Hv : let r := shl_align p 0 (fexp (Zpos (digits2_pos p) + 0)) in
                 snd r = Zdigits2 (Zpos p) - prec /\
                 Zpos (fst r) = Zpos p * 2 ^ (prec - Zdigits2 (Zpos p))).
    { change (Zpos (digits2_pos p)) with (Zdigits2 (Zpos p)).
      unfold shl_align. cbv zeta. rewrite Hfe.
      destruct (Z.max (Zdigits2 (Zpos p) + 0 - prec) emin - 0) as [|d|d] eqn:E;
        cbn [fst snd].
      - replace (prec - Zdigits2 (Zpos p)) with 0 by lia.
        rewrite Z.pow_0_r, Z.mul_1_r. split; [lia | reflexivity].
      - lia.
      - rewrite Pos_iter_xO. split; [lia|]. f_equal. f_equal. lia. }
    cbv zeta in Hv.
    destruct (shl_align p 0 (fexp (Zpos (digits2_pos p) + 0))) as [mz ez].
    cbn [fst snd] in Hs, Hv. destruct Hv as [Hez Hmz].
    exists mz. split; [|exact Hmz].
    rewrite <- Hez. apply binary_round_aux_exact; [|lia].
    rewrite Hs, Hfe. lia. }
  destruct z as [|p|p]; [congruence | |].
  - destruct (Hgen false p Hlt) as (m & E & Hm). exists m. split; assumption.
  - destruct (Hgen true p Hlt) as (m & E & Hm). exists m. split; assumption.
Qed.

Lemma binary_normalize_small_Q (z : Z) :
  Z.abs z < 2 ^ prec ->
  emin <= 1 - prec ->
  prec <= emax ->
  (SF2Q (binary_normalize prec emax z 0 false) == inject_Z z)%Q.
Proof.
  intros Hlt Hemin Hemax.
  destruct (Z.eq_dec z 0) as [->|Hz]; [reflexivity|].
  destruct (binary_normalize_small z Hz Hlt Hemin Hemax) as (m & E & Hm).
  rewrite E, SF2Q_finite.
  assert (Hd : Zdigits2 (Z.abs z) <= prec) by (apply Zdigits2_le_iff; lia).
  assert (Hs : cond_Zopp (z <? 0) (Zpos m)
               = z * 2 ^ (prec - Zdigits2 (Z.abs z))).
  { rewrite Hm, <- cond_Zopp_mul. f_equal.
    destruct (Z.ltb_spec z 0); cbn [cond_Zopp]; lia. }
  rewrite Hs, inject_Z_mult, (pow2_inject (prec - Zdigits2 (Z.abs z))) by lia.
  rewrite <- Qmult_assoc, <- pow2_add.
  replace (prec - Zdigits2 (Z.abs z) + (Zdigits2 (Z.abs z) - prec)) with 0 by lia.
  unfold pow2. rewrite Qpower_0_r. ring.
Qed.

(** A product against the exact product of the values. *)
Lemma SFmul_error_Q (sx sy : bool) (mx my : positive) (ex ey : Z) :
  Z.max (Zdigits2 (Zpos (mx * my)) + (ex + ey)) emin <= emax - prec ->
  is_finite (SFmul prec emax (S754_finite sx mx ex) (S754_finite sy my ey)) = true /\
  (Qabs (SF2Q (SFmul prec emax (S754_finite sx mx ex) (S754_finite sy my ey))
         - SF2Q (S754_finite sx mx ex) * SF2Q (S754_finite sy my ey))
   < pow2 (Z.max (Zdigits2 (Zpos (mx * my)) + (ex + ey) + 1 - prec) emin + 1))%Q.
Proof.
  intros Hmax. cbn [SFmul].
  assert (E : (SF2Q (S754_finite sx mx ex) * SF2Q (S754_finite sy my ey)
               == inject_Z (cond_Zopp (xorb sx sy) (Zpos (mx * my))) * pow2 (ex + ey))%Q).
  { rewrite !SF2Q_finite, Pos2Z.inj_mul, cond_Zopp_xorb, inject_Z_mult, pow2_add. ring. }
  assert (Hfe : forall k, fexp k = Z.max (k - prec) emin) by reflexivity.
  assert (Hd : 0 < Zdigits2 (Zpos (mx * my))).
  { rewrite Zdigits2_log2 by lia. pose proof (Z.log2_nonneg (Zpos (mx * my))). lia. }
  destruct (Z_le_gt_dec (fexp (Zdigits2 (Zpos (mx * my)) + (ex + ey))) (ex + ey))
    as [Hle|Hgt].
  - (* the product fits: nothing is rounded *)
    rewrite (binary_round_aux_exact prec emax _ _ _ Hle ltac:(lia)).
    split; [reflexivity|].
    rewrite E.
    setoid_replace (SF2Q (S754_finite (xorb sx sy) (mx * my) (ex + ey))
                    - inject_Z (cond_Zopp (xorb sx sy) (Zpos (mx * my))) * pow2 (ex + ey))%Q
      with 0%Q by (rewrite SF2Q_finite; ring).
    apply pow2_pos.
  - pose proof (binary_round_aux_error_Q prec emax prec_pos (xorb sx sy)
                  (Zpos (mx * my)) (ex + ey) loc_Exact ltac:(lia) Hmax) as [Hfin H].
    split; [exact Hfin|].
    rewrite E. rewrite Hfe in Hgt.
    replace (Z.max (ex + ey)
               (Z.max (Zdigits2 (Zpos (mx * my)) + (ex + ey) + 1 - prec) emin))
      with (Z.max (Zdigits2 (Zpos (mx * my)) + (ex + ey) + 1 - prec) emin) in H by lia.
    exact H.
Qed.


(** The quotient [SFdiv_core_binary] hands to the rounding, against the
    exact quotient of the values. *)
Lemma SFdiv_core_binary_Q (mx my : positive) (ex ey : Z) :
  let r := SFdiv_core_binary prec emax (Zpos mx) ex (Zpos my) ey in
  let q := fst (fst r) in
  let e' := snd (fst r) in
  0 <= q /\
  e' <= Z.max (Zdigits2 (Zpos mx) + ex - (Zdigits2 (Zpos my) + ey) - prec) emin /\
  Zdigits2 q + e'
    <= Z.max (Zdigits2 (Zpos mx) + ex - (Zdigits2 (Zpos my) + ey) + 1) emin /\
  (0 <= inject_Z (Zpos mx) * pow2 ex / (inject_Z (Zpos my) * pow2 ey)
        - inject_Z q * pow2 e' < pow2 e')%Q.
Proof.
  pose proof (SFdiv_core_binary_spec prec emax prec_pos mx my ex ey) as Hspec.
  cbv zeta in Hspec |- *.
  unfold SFdiv_core_binary in *.
  set (M := Zdigits2 (Zpos mx) + ex - (Zdigits2 (Zpos my) + ey)) in *.
  set (e' := Z.min (fexp M) (ex - ey)) in *.
  set (s := ex - ey - e') in *.
  assert (Hs : 0 <= s) by (unfold s, e'; lia).
  set (m' := match s with
             | Zpos _ => Z.shiftl (Zpos mx) s
             | Z0 => Zpos mx
             | Zneg _ => Z0
             end) in *.
  assert (Hm' : m' = Zpos mx * 2 ^ s).
  { unfold m'. destruct s as [|p|p]; [simpl; lia | | lia].
    apply Z.shiftl_mul_pow2. lia. }
  pose proof (Z.div_mod m' (Zpos my) ltac:(lia)) as Hdm.
  pose proof (Z.mod_pos_bound m' (Zpos my) ltac:(lia)) as Hrem.
  destruct (Z.div_eucl m' (Zpos my)) as [q r] eqn:E.
  assert (Hq : q = m' / Zpos my) by (unfold Z.div; rewrite E; reflexivity).
  assert (Hr : r = m' mod Zpos my) by (unfold Z.modulo; rewrite E; reflexivity).
  rewrite <- Hq, <- Hr in Hdm. rewrite <- Hr in Hrem.
  cbn [fst snd] in Hspec |- *. destruct Hspec as [Hq0 Hmag].
  split; [exact Hq0|]. split.
  { assert (Hfe : fexp M = Z.max (M - prec) emin) by reflexivity.
    unfold e'. rewrite Hfe. fold M. lia. }
  split; [exact Hmag|].
  (* the exact quotient is (q + r / my) * 2^e' *)
  assert (Hmy : ~ (inject_Z (Zpos my) == 0)%Q).
  { intros H. apply (inject_Z_injective (Zpos my) 0) in H. lia. }
  assert (Hey : ~ (pow2 ey == 0)%Q).
  { intros H. pose proof (pow2_pos ey) as Hp. rewrite H in Hp. discriminate. }
  assert (Eex : (pow2 ex == inject_Z (2 ^ s) * pow2 e' * pow2 ey)%Q).
  { rewrite pow2_inject by exact Hs. rewrite <- !pow2_add. f_equiv. unfold s. lia. }
  assert (EZ : (inject_Z (Zpos mx) * inject_Z (2 ^ s)
                == inject_Z (Zpos my) * inject_Z q + inject_Z r)%Q).
  { rewrite <- !inject_Z_mult, <- inject_Z_plus, <- Hm', Hdm. reflexivity. }
  assert (Ediff : (inject_Z (Zpos mx) * pow2 ex / (inject_Z (Zpos my) * pow2 ey)
                   - inject_Z q * pow2 e'
                   == inject_Z r / inject_Z (Zpos my) * pow2 e')%Q).
  { rewrite Eex.
    setoid_replace (inject_Z (Zpos mx) * (inject_Z (2 ^ s) * pow2 e' * pow2 ey))%Q
      with ((inject_Z (Zpos my) * inject_Z q + inject_Z r) * pow2 e' * pow2 ey)%Q
      by (rewrite <- EZ; ring).
    field. split; assumption. }
  rewrite Ediff.
  assert (Hpe : (0 < pow2 e')%Q) by apply pow2_pos.
  assert (Hfrac : (0 <= inject_Z r / inject_Z (Zpos my) < 1)%Q).
  { split.
    - apply Qle_shift_div_l; [reflexivity|]. rewrite Qmult_0_l.
      change 0%Q with (inject_Z 0). rewrite <- Zle_Qle. lia.
    - apply Qlt_shift_div_r; [reflexivity|]. rewrite Qmult_1_l.
      rewrite <- Zlt_Qlt. lia. }
  destruct Hfrac as [Hf0 Hf1].
  split.
  - apply Qmult_le_0_compat; [exact Hf0 | apply Qlt_le_weak; exact Hpe].
  - rewrite <- (Qmult_1_l (pow2 e')) at 2.
    apply Qmult_lt_compat_r; assumption.
Qed.


(** A quotient against the exact quotient of the values. *)
Lemma SFdiv_error_Q (sx sy : bool) (mx my : positive) (ex ey : Z) :
  Z.max (Zdigits2 (Zpos mx) + ex - (Zdigits2 (Zpos my) + ey) + 1) emin
    <= emax - prec ->
  is_finite (SFdiv prec emax (S754_finite sx mx ex) (S754_finite sy my ey)) = true /\
  (Qabs (SF2Q (SFdiv prec emax (S754_finite sx mx ex) (S754_finite sy my ey))
         - SF2Q (S754_finite sx mx ex) / SF2Q (S754_finite sy my ey))
   < pow2 (Z.max (Zdigits2 (Zpos mx) + ex - (Zdigits2 (Zpos my) + ey) + 2 - prec)
             emin + 2))%Q.
Proof.
  intros Hmax. cbn [SFdiv].
  pose proof (SFdiv_core_binary_Q mx my ex ey) as Hc. cbv zeta in Hc.
  destruct (SFdiv_core_binary prec emax (Zpos mx) ex (Zpos my) ey) as [[q e'] l].
  cbn [fst snd] in Hc. destruct Hc as (Hq & He' & Hmag & Hlo & Hhi).
  set (M := Zdigits2 (Zpos mx) + ex - (Zdigits2 (Zpos my) + ey)) in *.
  pose proof (binary_round_aux_error_Q prec emax prec_pos (xorb sx sy) q e' l Hq
                ltac:(lia)) as [Hfin H].
  split; [exact Hfin|].
  set (B := Z.max e' (Z.max (Zdigits2 q + e' + 1 - prec) emin)) in *.
  set (B' := Z.max (M + 2 - prec) emin).
  assert (HB : B <= B') by (unfold B, B'; lia).
  assert (HU : (pow2 (B + 1) + pow2 e' <= pow2 (B' + 2))%Q).
  { replace (B' + 2) with (B' + 1 + 1) by lia. rewrite (pow2_S (B' + 1)).
    pose proof (pow2_le (B + 1) (B' + 1) ltac:(lia)).
    pose proof (pow2_le e' (B' + 1) ltac:(unfold B in HB; lia)).
    lra. }
  assert (Hmy : ~ (inject_Z (Zpos my) == 0)%Q).
  { intros E. apply (inject_Z_injective (Zpos my) 0) in E. lia. }
  assert (Hey : ~ (pow2 ey == 0)%Q).
  { intros E. pose proof (pow2_pos ey) as Hp. rewrite E in Hp. discriminate. }
  set (X := (inject_Z (Zpos mx) * pow2 ex / (inject_Z (Zpos my) * pow2 ey))%Q) in *.
  set (R := SF2Q (binary_round_aux prec emax (xorb sx sy) q e' l)) in *.
  set (t := (inject_Z q * pow2 e')%Q) in *.
  apply Qabs_Qlt_condition in H. apply Qabs_Qlt_condition.
  rewrite !SF2Q_finite.
  destruct sx, sy; cbn [xorb cond_Zopp] in H |- *;
    rewrite ?inject_Z_opp in H; rewrite ?inject_Z_opp.
  - setoid_replace (- inject_Z (Zpos mx) * pow2 ex / (- inject_Z (Zpos my) * pow2 ey))%Q
      with X by (unfold X; field; split; assumption).
    fold t in H. lra.
  - setoid_replace (- inject_Z (Zpos mx) * pow2 ex / (inject_Z (Zpos my) * pow2 ey))%Q
      with (- X)%Q by (unfold X; field; split; assumption).
    setoid_replace (- inject_Z q * pow2 e')%Q with (- t)%Q in H by (unfold t; ring).
    lra.
  - setoid_replace (inject_Z (Zpos mx) * pow2 ex / (- inject_Z (Zpos my) * pow2 ey))%Q
      with (- X)%Q by (unfold X; field; split; assumption).
    setoid_replace (- inject_Z q * pow2 e')%Q with (- t)%Q in H by (unfold t; ring).
    lra.
  - fold X. fold t in H. lra.
Qed.


(** [binary_normalize] against the exact rational. *)
Lemma binary_normalize_error_Q (z e : Z) :
  Z.max (Zdigits2 (Z.abs z) + e) emin <= emax - prec ->
  is_finite (binary_normalize prec emax z e false) = true /\
  magnitude_le (Z.max (Zdigits2 (Z.abs z) + e) emin + 1)
    (binary_normalize prec emax z e false) /\
  (Qabs (SF2Q (binary_normalize prec emax z e false) - inject_Z z * pow2 e)
   < pow2 (Z.max (Zdigits2 (Z.abs z) + e + 1 - prec) emin + 1))%Q.
Proof.
  intros Hmax. destruct z as [|p|p]; cbn [binary_normalize Z.abs] in Hmax |- *.
  - split; [reflexivity|]. split; [exact I|].
    setoid_replace (SF2Q (S754_zero false) - inject_Z 0 * pow2 e)%Q with 0%Q
      by (cbn [SF2Q]; ring).
    apply pow2_pos.
  - pose proof (binary_round_error_Q prec emax prec_pos false p e Hmax) as [Hf H].
    pose proof (binary_round_spec prec emax prec_pos false p e Hmax) as Hm.
    split; [exact Hf|]. split; [|exact H].
    destruct (binary_round prec emax false p e); cbn [magnitude_le];
      tauto.
  - pose proof (binary_round_error_Q prec emax prec_pos true p e Hmax) as [Hf H].
    pose proof (binary_round_spec prec emax prec_pos true p e Hmax) as Hm.
    split; [exact Hf|]. split; [|exact H].
    destruct (binary_round prec emax true p e); cbn [magnitude_le];
      tauto.
Qed.

Lemma shl_align_value (m : positive) (e e' : Z) :
  e' <= e -> Zpos (fst (shl_align m e e')) = Zpos m * 2 ^ (e - e').
Proof.
  intros H. unfold shl_align.
  destruct (e' - e) as [|d|d] eqn:E; cbn [fst].
  - replace (e - e') with 0 by lia. lia.
  - lia.
  - rewrite Pos_iter_xO. f_equal. f_equal. lia.
Qed.

(** A sum against the exact sum of the values. *)
Lemma SFadd_error_Q (A : Z) (sx sy : bool) (mx my : positive) (ex ey : Z) :
  Zdigits2 (Zpos mx) + ex <= A ->
  Zdigits2 (Zpos my) + ey <= A ->
  Z.max (A + 1) emin <= emax - prec ->
  is_finite (SFadd prec emax (S754_finite sx mx ex) (S754_finite sy my ey)) = true /\
  magnitude_le (Z.max (A + 1) emin + 1)
    (SFadd prec emax (S754_finite sx mx ex) (S754_finite sy my ey)) /\
  (Qabs (SF2Q (SFadd prec emax (S754_finite sx mx ex) (S754_finite sy my ey))
         - (SF2Q (S754_finite sx mx ex) + SF2Q (S754_finite sy my ey)))
   < pow2 (Z.max (A + 2 - prec) emin + 1))%Q.
Proof.
  intros Hx Hy Hmax. cbn [SFadd].
  set (ez := Z.min ex ey).
  pose proof (shl_align_value mx ex ez ltac:(unfold ez; lia)) as Ex.
  pose proof (shl_align_value my ey ez ltac:(unfold ez; lia)) as Ey.
  rewrite Ex, Ey.
  set (S := cond_Zopp sx (Zpos mx * 2 ^ (ex - ez))
            + cond_Zopp sy (Zpos my * 2 ^ (ey - ez))).
  pose proof (Zdigits2_nonneg (Zpos mx)) as Hdx.
  pose proof (Zdigits2_nonneg (Zpos my)) as Hdy.
  assert (Hdx1 : Zpos mx < 2 ^ (A - ex)).
  { apply Zdigits2_le_iff; [lia| |lia].
    assert (0 < Zdigits2 (Zpos mx)); [|lia].
    rewrite Zdigits2_log2 by lia. pose proof (Z.log2_nonneg (Zpos mx)). lia. }
  assert (Hdy1 : Zpos my < 2 ^ (A - ey)).
  { apply Zdigits2_le_iff; [lia| |lia].
    assert (0 < Zdigits2 (Zpos my)); [|lia].
    rewrite Zdigits2_log2 by lia. pose proof (Z.log2_nonneg (Zpos my)). lia. }
  assert (Hpx : Zpos mx * 2 ^ (ex - ez) < 2 ^ (A - ez)).
  { replace (A - ez) with ((A - ex) + (ex - ez)) by lia.
    rewrite Z.pow_add_r by (unfold ez; lia).
    apply Z.mul_lt_mono_pos_r; [apply Z.pow_pos_nonneg; unfold ez; lia | exact Hdx1]. }
  assert (Hpy : Zpos my * 2 ^ (ey - ez) < 2 ^ (A - ez)).
  { replace (A - ez) with ((A - ey) + (ey - ez)) by lia.
    rewrite Z.pow_add_r by (unfold ez; lia).
    apply Z.mul_lt_mono_pos_r; [apply Z.pow_pos_nonneg; unfold ez; lia | exact Hdy1]. }
  assert (HS : Z.abs S < 2 ^ (A + 1 - ez)).
  { replace (A + 1 - ez) with ((A - ez) + 1) by lia.
    rewrite Z.pow_add_r, Z.pow_1_r by (unfold ez; lia).
    assert (0 < Zpos mx * 2 ^ (ex - ez))
      by (apply Z.mul_pos_pos; [lia | apply Z.pow_pos_nonneg; unfold ez; lia]).
    assert (0 < Zpos my * 2 ^ (ey - ez))
      by (apply Z.mul_pos_pos; [lia | apply Z.pow_pos_nonneg; unfold ez; lia]).
    unfold S. destruct sx, sy; cbn [cond_Zopp]; lia. }
  assert (HD : Zdigits2 (Z.abs S) + ez <= A + 1).
  { assert (Zdigits2 (Z.abs S) <= A + 1 - ez); [|lia].
    apply Zdigits2_le_iff; [lia | unfold ez; lia | exact HS]. }
  pose proof (binary_normalize_error_Q S ez ltac:(lia)) as (Hf & Hm & H).
  split; [exact Hf|]. split.
  { eapply magnitude_le_mono; [|exact Hm]. lia. }
  assert (E : (SF2Q (S754_finite sx mx ex) + SF2Q (S754_finite sy my ey)
               == inject_Z S * pow2 ez)%Q).
  { rewrite !SF2Q_finite. unfold S.
    rewrite inject_Z_plus, <- !cond_Zopp_mul, !inject_Z_mult.
    rewrite (pow2_inject (ex - ez)) by (unfold ez; lia).
    rewrite (pow2_inject (ey - ez)) by (unfold ez; lia).
    setoid_replace (pow2 ex) with (pow2 (ex - ez) * pow2 ez)%Q
      by (rewrite <- pow2_add; f_equiv; lia).
    setoid_replace (pow2 ey) with (pow2 (ey - ez) * pow2 ez)%Q
      by (rewrite <- pow2_add; f_equiv; lia).
    ring. }
  rewrite E.
  eapply Qlt_le_trans; [exact H|]. apply pow2_le. lia.
Qed.

(** The same three operations on any finite operands, zeros included, with
    the operands known by their magnitudes. *)
Lemma SFadd_error (A : Z) (x y : spec_float) :
  is_finite x = true -> is_finite y = true ->
  magnitude_le A x -> magnitude_le A y ->
  Z.max (A + 1) emin <= emax - prec ->
  is_finite (SFadd prec emax x y) = true /\
  magnitude_le (Z.max (A + 1) emin + 1) (SFadd prec emax x y) /\
  (Qabs (SF2Q (SFadd prec emax x y) - (SF2Q x + SF2Q y))
   < pow2 (Z.max (A + 2 - prec) emin + 1))%Q.
Proof.
  intros Fx Fy Hx Hy Hmax.
  assert (Hzero : forall u : Q, (u == 0)%Q ->
            (Qabs u < pow2 (Z.max (A + 2 - prec) emin + 1))%Q).
  { intros u ->. apply pow2_pos. }
  destruct x as [sx|sx| |sx mx ex]; try discriminate;
    destruct y as [sy|sy| |sy my ey]; try discriminate.
  - destruct sx, sy; cbn [SFadd Bool.eqb];
      (split; [reflexivity|]; split; [exact I|]; apply Hzero; cbn [SF2Q]; ring).
  - cbn [SFadd]. split; [reflexivity|]. split.
    + eapply magnitude_le_mono; [|exact Hy]. lia.
    + apply Hzero. cbn [SF2Q]. ring.
  - cbn [SFadd]. split; [reflexivity|]. split.
    + eapply magnitude_le_mono; [|exact Hx]. lia.
    + apply Hzero. cbn [SF2Q]. ring.
  - apply SFadd_error_Q; assumption.
Qed.

Lemma SFdiv_error (A C : Z) (x : spec_float) (sy : bool) (my : positive) (ey : Z) :
  is_finite x = true ->
  magnitude_le A x ->
  C <= Zdigits2 (Zpos my) + ey ->
  Z.max (A - C + 1) emin <= emax - prec ->
  is_finite (SFdiv prec emax x (S754_finite sy my ey)) = true /\
  (Qabs (SF2Q (SFdiv prec emax x (S754_finite sy my ey))
         - SF2Q x / SF2Q (S754_finite sy my ey))
   < pow2 (Z.max (A - C + 2 - prec) emin + 2))%Q.
Proof.
  intros Fx Hx Hy Hmax.
  destruct x as [sx|sx| |sx mx ex]; try discriminate.
  - cbn [SFdiv]. split; [reflexivity|].
    setoid_replace (SF2Q (S754_zero (xorb sx sy))
                    - SF2Q (S754_zero sx) / SF2Q (S754_finite sy my ey))%Q
      with 0%Q by (cbn [SF2Q]; unfold Qdiv; ring).
    apply pow2_pos.
  - cbn [magnitude_le] in Hx.
    pose proof (SFdiv_error_Q sx sy mx my ex ey ltac:(lia)) as [Hf H].
    split; [exact Hf|].
    eapply Qlt_le_trans; [exact H|]. apply pow2_le. lia.
Qed.

Lemma SFmul_error (A B : Z) (x y : spec_float) :
  is_finite x = true -> is_finite y = true ->
  magnitude_le A x -> magnitude_le B y ->
  Z.max (A + B) emin <= emax - prec ->
  is_finite (SFmul prec emax x y) = true /\
  (Qabs (SF2Q (SFmul prec emax x y) - SF2Q x * SF2Q y)
   < pow2 (Z.max (A + B + 1 - prec) emin + 1))%Q.
Proof.
  intros Fx Fy Hx Hy Hmax.
  assert (Hzero : forall u : Q, (u == 0)%Q ->
            (Qabs u < pow2 (Z.max (A + B + 1 - prec) emin + 1))%Q).
  { intros u ->. apply pow2_pos. }
  destruct x as [sx|sx| |sx mx ex]; try discriminate;
    destruct y as [sy|sy| |sy my ey]; try discriminate; cbn [SFmul];
    try (split; [reflexivity | apply Hzero; cbn [SF2Q]; ring]).
  cbn [magnitude_le] in Hx, Hy.
  pose proof (Zdigits2_mul (Zpos mx) (Zpos my) ltac:(lia) ltac:(lia)) as Hd.
  change (Zpos mx * Zpos my) with (Zpos (mx * my)) in Hd.
  pose proof (SFmul_error_Q sx sy mx my ex ey ltac:(lia)) as [Hf H].
  split; [exact Hf|].
  eapply Qlt_le_trans; [exact H|]. apply pow2_le. lia.
Qed.

End OperationErrors.

(** A finite number against the power of two of its magnitude. *)
Lemma magnitude_le_Q (k : Z) (x : spec_float) :
  magnitude_le k x -> (Qabs (SF2Q x) < pow2 k)%Q.
Proof.
  destruct x as [s|s| |s m e]; cbn [magnitude_le]; try tauto.
  - intros _. apply pow2_pos.
  - intros H. rewrite SF2Q_finite.
    eapply Qlt_le_trans.
    + apply (scaled_lt _ (Zdigits2 (Zpos m)) e (Zdigits2_nonneg _)).
      rewrite cond_Zopp_abs. cbn [Z.abs].
      apply (proj1 (Zdigits2_le_iff (Zpos m) _ ltac:(lia) (Zdigits2_nonneg _))). lia.
    + apply pow2_le. exact H.
Qed.

Lemma Q_magnitude_le (k : Z) (x : spec_float) :
  is_finite x = true -> (Qabs (SF2Q x) < pow2 k)%Q -> magnitude_le k x.
Proof.
  destruct x as [s|s| |s m e]; cbn [magnitude_le is_finite]; try discriminate.
  - intros _ _. exact I.
  - intros _ H. rewrite SF2Q_finite in H.
    rewrite Qabs_Qmult, Qabs_inject_Z, cond_Zopp_abs, Qabs_pow2 in H.
    cbn [Z.abs] in H.
    assert (Hk : (inject_Z (Zpos m) < pow2 (k - e))%Q).
    { apply (Qmult_lt_r _ _ (pow2 e) (pow2_pos e)).
      rewrite <- pow2_add. replace (k - e + e) with k by lia. exact H. }
    destruct (Z_lt_le_dec (k - e) 0) as [Hneg|Hpos].
    + exfalso.
      assert (Hone : (1 <= inject_Z (Zpos m))%Q) by (rewrite <- (Zle_Qle 1); lia).
      pose proof (pow2_le (k - e) 0 ltac:(lia)) as Hp.
      change (pow2 0) with 1%Q in Hp.
      apply (Qlt_irrefl 1). eapply Qle_lt_trans; [exact Hone|].
      eapply Qlt_le_trans; [exact Hk | exact Hp].
    + rewrite <- (pow2_inject (k - e) Hpos) in Hk. rewrite <- Zlt_Qlt in Hk.
      assert (Zdigits2 (Zpos m) <= k - e); [|lia].
      apply Zdigits2_le_iff; [lia | exact Hpos | exact Hk].
Qed.

(** ** Floating point: conversions, [fmin] and negation *)

Lemma is_finite_not_nan (x : spec_float) : is_finite x = true -> is_nan x = false.
Proof. destruct x; cbn [is_finite is_nan]; congruence. Qed.

(** An integer of at most 24 binary digits is a [float]. *)
Lemma float_of_Z_exact (z k : Z) :
  0 <= k <= 24 ->
  Z.abs z < 2 ^ k ->
  is_finite (float_of_Z z) = true /\
  magnitude_le k (float_of_Z z) /\
  (SF2Q (float_of_Z z) == inject_Z z)%Q.
Proof.
  intros Hk Hz. unfold float_of_Z.
  assert (Hemin : SpecFloat.emin 24 128 = -149) by reflexivity.
  assert (Hd : Zdigits2 (Z.abs z) <= k) by (apply Zdigits2_le_iff; lia).
  pose proof (Zdigits2_nonneg (Z.abs z)) as Hd0.
  destruct (binary_normalize_error_Q 24 128 ltac:(lia) z 0 ltac:(lia))
    as (Hf & _ & _).
  assert (E : (SF2Q (binary_normalize 24 128 z 0 false) == inject_Z z)%Q).
  { apply (binary_normalize_small_Q 24 128 ltac:(lia) z).
    - eapply Z.lt_le_trans; [exact Hz|]. apply Z.pow_le_mono_r; lia.
    - rewrite Hemin. lia.
    - lia. }
  split; [exact Hf|]. split; [|exact E].
  apply Q_magnitude_le; [exact Hf|].
  rewrite E, Qabs_inject_Z, <- (pow2_inject k) by lia.
  rewrite <- Zlt_Qlt. exact Hz.
Qed.

(** An integer of at most 53 binary digits is a [double]. *)
Lemma double_of_Z_exact (z k : Z) :
  0 <= k <= 53 ->
  Z.abs z < 2 ^ k ->
  is_finite (double_of_Z z) = true /\
  magnitude_le k (double_of_Z z) /\
  (SF2Q (double_of_Z z) == inject_Z z)%Q.
Proof.
  intros Hk Hz. unfold double_of_Z.
  assert (Hemin : SpecFloat.emin 53 1024 = -1074) by reflexivity.
  assert (Hd : Zdigits2 (Z.abs z) <= k) by (apply Zdigits2_le_iff; lia).
  pose proof (Zdigits2_nonneg (Z.abs z)) as Hd0.
  destruct (binary_normalize_error_Q 53 1024 ltac:(lia) z 0 ltac:(lia))
    as (Hf & _ & _).
  assert (E : (SF2Q (binary_normalize 53 1024 z 0 false) == inject_Z z)%Q).
  { apply (binary_normalize_small_Q 53 1024 ltac:(lia) z).
    - eapply Z.lt_le_trans; [exact Hz|]. apply Z.pow_le_mono_r; lia.
    - rewrite Hemin. lia.
    - lia. }
  split; [exact Hf|]. split; [|exact E].
  apply Q_magnitude_le; [exact Hf|].
  rewrite E, Qabs_inject_Z, <- (pow2_inject k) by lia.
  rewrite <- Zlt_Qlt. exact Hz.
Qed.

(** The conversion of a [float] to [double], by its magnitude. *)
Lemma double_of_float_error (A : Z) (x : float) :
  is_finite x = true ->
  magnitude_le A x ->
  Z.max A (-1074) <= 971 ->
  is_finite (double_of_float x) = true /\
  magnitude_le (Z.max A (-1074) + 1) (double_of_float x) /\
  (Qabs (SF2Q (double_of_float x) - SF2Q x)
   < pow2 (Z.max (A + 1 - 53) (-1074) + 1))%Q.
Proof.
  intros Fx Hx Hmax.
  destruct x as [s|s| |s m e]; try discriminate; cbn [double_of_float].
  - split; [reflexivity|]. split; [exact I|].
    setoid_replace (SF2Q (S754_zero s) - SF2Q (S754_zero s))%Q with 0%Q by ring.
    apply pow2_pos.
  - cbn [magnitude_le] in Hx.
    assert (Hemin : SpecFloat.emin 53 1024 = -1074) by reflexivity.
    pose proof (binary_round_error_Q 53 1024 ltac:(lia) s m e) as H.
    pose proof (binary_round_spec 53 1024 ltac:(lia) s m e) as Hm.
    rewrite Hemin in H, Hm.
    specialize (H ltac:(lia)). specialize (Hm ltac:(lia)).
    destruct H as [Hf H].
    split; [exact Hf|]. split.
    + destruct (binary_round 53 1024 s m e); cbn [magnitude_le]; try tauto.
      destruct Hm as [_ Hm]. lia.
    + rewrite SF2Q_finite.
      eapply Qlt_le_trans; [exact H|]. apply pow2_le. lia.
Qed.

(** A finite double of magnitude at most [k], [k] at most 31, converts to
    an [int] below [2^k] in absolute value. *)
Lemma int_of_double_bounded (k : Z) (x : double) :
  0 <= k <= 31 ->
  is_finite x = true -> magnitude_le k x ->
  exists z, int_of_double x = Some z /\ Z.abs z < 2 ^ k.
Proof.
  intros Hk Fx Hx.
  assert (Ht : exists t, trunc x = Some t).
  { destruct x as [s|s| |s m e]; try discriminate; cbn [trunc]; eauto. }
  destruct Ht as [t Ht].
  destruct (trunc_spec x t Ht) as [Hle _].
  pose proof (magnitude_le_Q k x Hx) as Hlt.
  assert (Habs : Z.abs t < 2 ^ k).
  { rewrite Qabs_inject_Z in Hle.
    rewrite <- (pow2_inject k) in Hlt by lia.
    rewrite Zlt_Qlt. eapply Qle_lt_trans; [exact Hle | exact Hlt]. }
  assert (Hp : 2 ^ k <= 2 ^ 31) by (apply Z.pow_le_mono_r; lia).
  exists t. split; [|exact Habs].
  unfold int_of_double. rewrite Ht. cbn [obind].
  unfold int_checked, in_int, INT_MIN, INT_MAX.
  replace ((- 2 ^ 31 <=? t) && (t <=? 2 ^ 31 - 1)) with true; [reflexivity|].
  symmetry. apply andb_true_iff. split; apply Z.leb_le; lia.
Qed.

(** The double of a positive integer: the integer on 53 digits. *)
Lemma double_of_Z_pos (z : Z) :
  0 < z < 2 ^ 53 ->
  exists m : positive,
    double_of_Z z = S754_finite false m (Zdigits2 z - 53) /\
    Zpos m = z * 2 ^ (53 - Zdigits2 z).
Proof.
  intros Hz.
  destruct (binary_normalize_small 53 1024 ltac:(lia) z ltac:(lia) ltac:(lia)
              ltac:(vm_compute; discriminate) ltac:(lia)) as (m & E & Hm).
  rewrite Z.abs_eq in E, Hm by lia.
  replace (z <? 0) with false in E by (symmetry; apply Z.ltb_ge; lia).
  exists m. split; assumption.
Qed.

(** [flt] on the doubles of two non-negative integers is [<] on the integers. *)
Lemma flt_double_of_Z (a b : Z) :
  0 <= a < 2 ^ 53 -> 0 <= b < 2 ^ 53 ->
  flt (double_of_Z a) (double_of_Z b) = (a <? b).
Proof.
  intros Ha Hb. unfold flt, SFltb.
  destruct (Z.eq_dec a 0) as [->|Ha0]; destruct (Z.eq_dec b 0) as [->|Hb0].
  - reflexivity.
  - destruct (double_of_Z_pos b ltac:(lia)) as (mb & -> & _).
    change (double_of_Z 0) with (S754_zero false). cbn [SFcompare].
    symmetry. apply Z.ltb_lt. lia.
  - destruct (double_of_Z_pos a ltac:(lia)) as (ma & -> & _).
    change (double_of_Z 0) with (S754_zero false). cbn [SFcompare].
    symmetry. apply Z.ltb_ge. lia.
  - destruct (double_of_Z_pos a ltac:(lia)) as (ma & -> & Hma).
    destruct (double_of_Z_pos b ltac:(lia)) as (mb & -> & Hmb).
    cbn [SFcompare].
    assert (Hda : Zdigits2 a <= 53) by (apply Zdigits2_le_iff; lia).
    assert (Hdb : Zdigits2 b <= 53) by (apply Zdigits2_le_iff; lia).
    destruct (Z.compare_spec (Zdigits2 a - 53) (Zdigits2 b - 53)) as [He|He|He].
    + change (Pos.compare_cont Eq ma mb) with (Pos.compare ma mb).
      assert (Hd : Zdigits2 a = Zdigits2 b) by lia.
      rewrite Hd in Hma.
      assert (Hp : 0 < 2 ^ (53 - Zdigits2 b)) by (apply Z.pow_pos_nonneg; lia).
      destruct (Pos.compare_spec ma mb) as [Hc|Hc|Hc].
      * symmetry. apply Z.ltb_ge. assert (Zpos ma = Zpos mb) by congruence. nia.
      * symmetry. apply Z.ltb_lt. assert (Zpos ma < Zpos mb) by lia. nia.
      * symmetry. apply Z.ltb_ge. assert (Zpos mb < Zpos ma) by lia. nia.
    + symmetry. apply Z.ltb_lt.
      destruct (Z_lt_le_dec a b) as [|Hle]; [assumption|].
      pose proof (Zdigits2_mono b a ltac:(lia)). lia.
    + symmetry. apply Z.ltb_ge.
      destruct (Z_lt_le_dec a b) as [Hlt|]; [|assumption].
      pose proof (Zdigits2_mono a b ltac:(lia)). lia.
Qed.

(** [fmin] on the doubles of two non-negative integers is the double of
    their minimum. *)
Lemma fmin_double_of_Z (a b : Z) :
  0 <= a < 2 ^ 53 -> 0 <= b < 2 ^ 53 ->
  fmin (double_of_Z a) (double_of_Z b) = double_of_Z (Z.min a b).
Proof.
  intros Ha Hb. unfold fmin.
  destruct (double_of_Z_exact a 53 ltac:(lia) ltac:(lia)) as (Fa & _ & _).
  destruct (double_of_Z_exact b 53 ltac:(lia) ltac:(lia)) as (Fb & _ & _).
  rewrite (is_finite_not_nan _ Fa), (is_finite_not_nan _ Fb).
  rewrite (flt_double_of_Z b a Hb Ha).
  destruct (Z.ltb_spec b a) as [H|H].
  - rewrite Z.min_r by lia. reflexivity.
  - rewrite Z.min_l by lia. reflexivity.
Qed.

Lemma SFopp_Q (x : spec_float) : (SF2Q (SFopp x) == - SF2Q x)%Q.
Proof.
  destruct x as [s|s| |s m e]; cbn [SFopp]; try reflexivity.
  rewrite !SF2Q_finite. destruct s; cbn [negb cond_Zopp];
    rewrite ?inject_Z_opp; ring.
Qed.

Lemma SFopp_magnitude (k : Z) (x : spec_float) :
  magnitude_le k x -> magnitude_le k (SFopp x).
Proof. destruct x; cbn [SFopp magnitude_le]; tauto. Qed.

Lemma SFopp_finite (x : spec_float) : is_finite (SFopp x) = is_finite x.
Proof. destruct x; reflexivity. Qed.

Lemma unit_range_magnitude (v : double) : unit_range v -> magnitude_le 1 v.
Proof.
  intros [Fv Hv]. apply Q_magnitude_le; [exact Fv|].
  eapply Qle_lt_trans; [exact Hv|]. reflexivity.
Qed.

Lemma unit_range_one : unit_range (double_of_Z 1).
Proof. split; vm_compute; [reflexivity | discriminate]. Qed.

Lemma unit_range_zero (sgn : bool) : unit_range (S754_zero sgn).
Proof. split; [reflexivity | vm_compute; discriminate]. Qed.

(** ** The main loop among the other tasks *)

Lemma wake_arguments_app (t1 t2 : list call) :
  wake_arguments (t1 ++ t2) = wake_arguments t1 ++ wake_arguments t2.
Proof.
  induction t1 as [|c t1 IH]; [reflexivity|].
  destruct c; simpl; rewrite ?IH; reflexivity.
Qed.

(** What one pass of the main loop leaves unchanged, and what it advances. *)
Lemma slamTask_loop_spec (P : Platform) (e : TaskEnv) (s s' : State) (tr : list call) :
  slamTask_loop P e s = Some (s', tr) ->
  pc s' = InLoop /\
  startTime (locals s') = startTime (locals s) /\
  increment (locals s') = increment (locals s) /\
  VideoSource (locals s') = VideoSource (locals s) /\
  settings s' = settings s /\
  objects s' = objects s /\
  frame (locals s') = wrap 32 (frame (locals s) + 1) /\
  wake_arguments tr =
    [wake_argument P (startTime (locals s)) (wrap 32 (frame (locals s) + 1))
       (increment (locals s))].
Proof.
  unfold slamTask_loop. intros H.
  destruct (match VideoSource (locals s) with
            | Some _ => env_frame e
            | None => currentFrame (locals s)
            end) as [img|].
  - destruct (horizon_line P (settings s) (obj_AttitudeActual (objects s))) as [ends|];
      simpl in H; [|discriminate].
    injection H as <- <-. simpl.
    repeat split.
    destruct (VideoSource (locals s)), (lastFrame (locals s)); reflexivity.
  - injection H as <- <-. simpl.
    repeat split.
    destruct (VideoSource (locals s)), (lastFrame (locals s)); reflexivity.
Qed.

(** A step taken while the task is in its main loop. *)
Lemma step_InLoop (P : Platform) (ev : event) (s s' : State) (tr : list call) :
  pc s = InLoop ->
  step P ev s = Some (s', tr) ->
  pc s' = InLoop /\
  startTime (locals s') = startTime (locals s) /\
  increment (locals s') = increment (locals s) /\
  VideoSource (locals s') = VideoSource (locals s) /\
  match ev with
  | Ev_Task _ =>
      frame (locals s') = wrap 32 (frame (locals s) + 1) /\
      wake_arguments tr =
        [wake_argument P (startTime (locals s)) (wrap 32 (frame (locals s) + 1))
           (increment (locals s))]
  | _ => frame (locals s') = frame (locals s) /\ tr = []
  end.
Proof.
  intros Hpc H. destruct ev as [e|a|v]; simpl in H.
  - rewrite Hpc in H. apply slamTask_loop_spec in H. tauto.
  - injection H as <- <-. simpl. tauto.
  - injection H as <- <-.
    destruct (callback_connected s); simpl; tauto.
Qed.

Lemma wake_schedule_S (P : Platform) (start inc f0 : Z) (n : nat) :
  wake_schedule P start inc f0 (S n) =
  (start + wrap 32 (f0 + 1) * inc) mod 2 ^ tick_bits P
    :: wake_schedule P start inc (wrap 32 (f0 + 1)) n.
Proof.
  unfold wake_schedule. cbn [seq map]. f_equal.
  rewrite <- seq_shift, map_map.
  apply map_ext. intros k.
  rewrite wrap_add_wrap_l.
  replace (f0 + 1 + Z.of_nat k) with (f0 + Z.of_nat (S k)) by lia.
  reflexivity.
Qed.

(** Any interleaving of passes of the loop with the other tasks' updates:
    the start tick, the increment and the video source stay as they were
    on entry, the counter counts the passes, and the wake arguments are
    those of the schedule. *)
Lemma run_InLoop (P : Platform) (evs : list event) :
  0 < tick_bits P ->
  forall (s s' : State) (tr : list call),
  pc s = InLoop ->
  0 <= frame (locals s) < 2 ^ 32 ->
  run P evs s = Some (s', tr) ->
  pc s' = InLoop /\
  startTime (locals s') = startTime (locals s) /\
  increment (locals s') = increment (locals s) /\
  VideoSource (locals s') = VideoSource (locals s) /\
  frame (locals s') = wrap 32 (frame (locals s) + Z.of_nat (task_steps evs)) /\
  wake_arguments tr =
    wake_schedule P (startTime (locals s)) (increment (locals s))
      (frame (locals s)) (task_steps evs).
Proof.
  intros Hb. induction evs as [|ev rest IH]; intros s s' tr Hpc Hf Hrun.
  - simpl in Hrun. injection Hrun as <- <-. simpl.
    rewrite Z.add_0_r, wrap_small by exact Hf.
    repeat split. exact Hpc.
  - simpl in Hrun.
    destruct (step P ev s) as [[s1 tr1]|] eqn:Hstep; [|discriminate].
    simpl in Hrun.
    destruct (run P rest s1) as [[s2 tr2]|] eqn:Hrest; [|discriminate].
    simpl in Hrun. injection Hrun as <- <-.
    destruct (step_InLoop P ev s s1 tr1 Hpc Hstep)
      as (Hpc1 & Hst1 & Hinc1 & Hvs1 & Hev).
    assert (Hf1 : 0 <= frame (locals s1) < 2 ^ 32).
    { destruct ev; destruct Hev as [Hfr _]; rewrite Hfr;
        [apply wrap_range; lia | exact Hf | exact Hf]. }
    destruct (IH s1 s2 tr2 Hpc1 Hf1 Hrest)
      as (Hpc2 & Hst2 & Hinc2 & Hvs2 & Hfr2 & Hw2).
    rewrite wake_arguments_app, Hw2, Hst2, Hinc2, Hvs2, Hfr2, Hst1, Hinc1, Hvs1.
    destruct ev as [e|a|v]; destruct Hev as [Hfr Htr]; cbn [task_steps].
    + rewrite Htr, Hfr, wake_schedule_S, wake_argument_mod by exact Hb.
      rewrite wrap_add_wrap_l.
      replace (frame (locals s) + 1 + Z.of_nat (task_steps rest))
        with (frame (locals s) + Z.of_nat (S (task_steps rest))) by lia.
      repeat split; assumption.
    + rewrite Htr, Hfr. repeat split; assumption.
    + rewrite Htr, Hfr. repeat split; assumption.
Qed.

(** What no step of a running loop touches, with no assumption on the
    platform. *)
Lemma run_InLoop_fixed (P : Platform) (evs : list event) :
  forall (s s' : State) (tr : list call),
  pc s = InLoop ->
  run P evs s = Some (s', tr) ->
  pc s' = InLoop /\
  startTime (locals s') = startTime (locals s) /\
  increment (locals s') = increment (locals s) /\
  VideoSource (locals s') = VideoSource (locals s).
Proof.
  induction evs as [|ev rest IH]; intros s s' tr Hpc Hrun; simpl in Hrun.
  - injection Hrun as <- <-. tauto.
  - destruct (step P ev s) as [[s1 tr1]|] eqn:Hstep; [|discriminate].
    simpl in Hrun.
    destruct (run P rest s1) as [[s2 tr2]|] eqn:Hrest; [|discriminate].
    simpl in Hrun. injection Hrun as <- <-.
    destruct (step_InLoop P ev s s1 tr1 Hpc Hstep) as (Hpc1 & Hst1 & Hinc1 & Hvs1 & _).
    destruct (IH s1 s2 tr2 Hpc1 Hrest) as (Hpc2 & Hst2 & Hinc2 & Hvs2).
    rewrite Hst2, Hinc2, Hvs2. tauto.
Qed.

Lemma run_app (P : Platform) (evs1 evs2 : list event) (s : State) :
  run P (evs1 ++ evs2) s =
  (r1 <- run P evs1 s ;;
   r2 <- run P evs2 (fst r1) ;;
   Some (fst r2, snd r1 ++ snd r2)).
Proof.
  revert s. induction evs1 as [|ev rest IH]; intros s; simpl.
  - destruct (run P evs2 s) as [[s2 tr2]|]; reflexivity.
  - destruct (step P ev s) as [[s1 tr1]|]; simpl; [|reflexivity].
    rewrite IH.
    destruct (run P rest s1) as [[s2 tr2]|]; simpl; [|reflexivity].
    destruct (run P evs2 s2) as [[s3 tr3]|]; simpl; [|reflexivity].
    rewrite app_assoc. reflexivity.
Qed.

(** ** Degraded mode: no video source *)

Lemma slamTask_loop_degraded (P : Platform) (e : TaskEnv) (s : State) :
  degraded s ->
  exists s',
    slamTask_loop P e s = Some (s', degraded_pass P s e) /\
    degraded s' /\
    lastFrame (locals s') = None /\
    frame (locals s') = wrap 32 (frame (locals s) + 1).
Proof.
  intros (Hpc & Hvs & Hcf).
  unfold slamTask_loop, degraded_pass. rewrite Hvs, Hcf.
  eexists. split; [reflexivity|].
  unfold degraded. simpl. repeat split.
Qed.

Lemma step_degraded (P : Platform) (ev : event) (s : State) :
  degraded s ->
  exists s' tr,
    step P ev s = Some (s', tr) /\ degraded s' /\
    tr = match ev with
         | Ev_Task e => degraded_pass P s e
         | _ => []
         end.
Proof.
  intros Hd. destruct ev as [e|a|v]; simpl.
  - destruct Hd as (Hpc & Hd). rewrite Hpc.
    destruct (slamTask_loop_degraded P e s (conj Hpc Hd)) as (s' & H1 & H2 & _).
    exists s', (degraded_pass P s e). tauto.
  - eexists. eexists. split; [reflexivity|]. split; [exact Hd|reflexivity].
  - eexists. eexists. split; [reflexivity|]. split; [|reflexivity].
    destruct (callback_connected s); exact Hd.
Qed.

Lemma degraded_pass_calls (P : Platform) (s : State) (e : TaskEnv) :
  lastFrame (locals s) = None ->
  filter is_video_call (degraded_pass P s e) = [] /\
  filter is_fusion_call (degraded_pass P s e) = [Call_opencvslam_run 0].
Proof.
  intros Hl. unfold degraded_pass. rewrite Hl. split; reflexivity.
Qed.

(** In degraded mode every interleaving runs to its end, stays degraded,
    counts its passes, makes no video call and one fusion call per pass. *)
Lemma run_degraded (P : Platform) (evs : list event) :
  forall s : State,
  degraded s ->
  lastFrame (locals s) = None ->
  0 <= frame (locals s) < 2 ^ 32 ->
  exists s' tr,
    run P evs s = Some (s', tr) /\
    degraded s' /\
    frame (locals s') = wrap 32 (frame (locals s) + Z.of_nat (task_steps evs)) /\
    filter is_video_call tr = [] /\
    filter is_fusion_call tr = repeat (Call_opencvslam_run 0) (task_steps evs).
Proof.
  induction evs as [|ev rest IH]; intros s Hd Hl Hf.
  - exists s, []. simpl. rewrite Z.add_0_r, wrap_small by exact Hf. tauto.
  - destruct (step_degraded P ev s Hd) as (s1 & tr1 & Hstep & Hd1 & Htr1).
    assert (H1 : lastFrame (locals s1) = None /\
                 frame (locals s1) =
                   match ev with
                   | Ev_Task _ => wrap 32 (frame (locals s) + 1)
                   | _ => frame (locals s)
                   end).
    { destruct ev as [e|a|v]; simpl in Hstep.
      - destruct Hd as (Hpc & Hd). rewrite Hpc in Hstep.
        destruct (slamTask_loop_degraded P e s (conj Hpc Hd)) as (s1' & E & _ & Hl1 & Hf1).
        rewrite E in Hstep. injection Hstep as <- _. tauto.
      - injection Hstep as <- _. simpl. tauto.
      - injection Hstep as <- _. destruct (callback_connected s); simpl; tauto. }
    destruct H1 as [Hl1 Hf1].
    assert (Hr1 : 0 <= frame (locals s1) < 2 ^ 32).
    { rewrite Hf1. destruct ev; [apply wrap_range; lia | exact Hf | exact Hf]. }
    destruct (IH s1 Hd1 Hl1 Hr1) as (s2 & tr2 & Hrun & Hd2 & Hf2 & Hv2 & Hfu2).
    exists s2, (tr1 ++ tr2). simpl. rewrite Hstep. simpl. rewrite Hrun. simpl.
    split; [reflexivity|]. split; [exact Hd2|].
    rewrite !filter_app, Hv2, Hfu2, Hf2, Hf1, Htr1.
    destruct ev as [e|a|v]; cbn [task_steps].
    + destruct (degraded_pass_calls P s e Hl) as [-> ->].
      rewrite wrap_add_wrap_l.
      replace (frame (locals s) + 1 + Z.of_nat (task_steps rest))
        with (frame (locals s) + Z.of_nat (S (task_steps rest))) by lia.
      repeat split.
    + repeat split.
    + repeat split.
Qed.

Lemma task_steps_repeat (e : TaskEnv) (n : nat) :
  task_steps (repeat (Ev_Task e) n) = n.
Proof. induction n as [|n IH]; simpl; [reflexivity | rewrite IH; reflexivity]. Qed.

(** ** C1: frame counter and wake tick *)

(** C1, as the code has it.  In the main loop, under any interleaving with
    the other tasks and whatever the collaborators return, after [N] passes
    the frame counter is [N] modulo [2^32] (it is a [uint32_t]) and the
    value passed to [vTaskDelayUntil] in pass [k] is [start + k * increment]
    reduced to the tick type; it is exactly [start + k * increment] as long
    as neither the counter nor the tick has wrapped. *)
Theorem C1_frame_counter_and_wake_tick
  (P : Platform) (evs : list event) (s s' : State) (tr : list call) :
  0 < tick_bits P ->
  pc s = InLoop ->
  frame (locals s) = 0 ->
  run P evs s = Some (s', tr) ->
  frame (locals s') = Z.of_nat (task_steps evs) mod 2 ^ 32 /\
  wake_arguments tr =
    map (fun k => (startTime (locals s)
                   + (Z.of_nat k mod 2 ^ 32) * increment (locals s))
                  mod 2 ^ tick_bits P)
        (seq 1 (task_steps evs)) /\
  (forall k : nat,
     (1 <= k <= task_steps evs)%nat ->
     Z.of_nat k < 2 ^ 32 ->
     0 <= startTime (locals s) + Z.of_nat k * increment (locals s) < 2 ^ tick_bits P ->
     nth_error (wake_arguments tr) (k - 1) =
       Some (startTime (locals s) + Z.of_nat k * increment (locals s))).
Proof.
  intros Hb Hpc Hf0 Hrun.
  assert (Hr : 0 <= frame (locals s) < 2 ^ 32) by (rewrite Hf0; lia).
  destruct (run_InLoop P evs Hb s s' tr Hpc Hr Hrun) as (_ & _ & _ & _ & Hf & Hw).
  rewrite Hf0 in Hf, Hw. rewrite Z.add_0_l in Hf.
  assert (Hw' : wake_arguments tr =
                map (fun k => (startTime (locals s)
                               + (Z.of_nat k mod 2 ^ 32) * increment (locals s))
                              mod 2 ^ tick_bits P)
                    (seq 1 (task_steps evs))).
  { rewrite Hw. unfold wake_schedule. apply map_ext. intros k.
    unfold wrap. rewrite Z.add_0_l. reflexivity. }
  split; [exact Hf|]. split; [exact Hw'|].
  intros k Hk Hk32 Hsum.
  rewrite Hw', nth_error_map, nth_error_seq.
  replace (k - 1 <? task_steps evs)%nat with true
    by (symmetry; apply Nat.ltb_lt; lia).
  cbn [option_map]. f_equal.
  replace (1 + (k - 1))%nat with k by lia.
  rewrite (Z.mod_small (Z.of_nat k)) by lia.
  apply Z.mod_small. exact Hsum.
Qed.

(** C1 on the worked configuration: started at tick 5000 with 30 frames
    per second, two passes wake at 5033 and 5066. *)
Lemma C1_frame_counter_and_wake_tick_witness :
  exists s s' tr,
    in_loop (frame_settings 640 480 30) (env None None 5000) = Some s /\
    run platform32 [Ev_Task (env None None 5040); Ev_Task (env None None 5070)] s
      = Some (s', tr) /\
    frame (locals s') = 2 /\
    wake_arguments tr = [5033; 5066].
Proof.
  eexists. eexists. eexists.
  split; [vm_compute; reflexivity|].
  match goal with
  | |- run _ _ ?s = _ /\ _ => pose (s0 := s)
  end.
  split; [vm_compute; reflexivity|].
  match goal with
  | |- frame (locals ?s') = _ /\ wake_arguments ?tr = _ =>
      destruct (C1_frame_counter_and_wake_tick platform32
                  [Ev_Task (env None None 5040); Ev_Task (env None None 5070)]
                  s0 s' tr
                  ltac:(reflexivity) ltac:(reflexivity) ltac:(reflexivity)
                  ltac:(vm_compute; reflexivity)) as (Hf & Hw & _)
  end.
  split; [exact Hf | exact Hw].
Defined.

(** C1 as stated fails where the arithmetic wraps.  Started at tick
    [2^32 - 6] with an increment of 33, the first pass passes 27 to
    [vTaskDelayUntil], not [2^32 - 6 + 33]; and after [2^32] passes the
    frame counter is back at 0. *)
Lemma C1_counterexample_wrap_around :
  exists s,
    in_loop (frame_settings 640 480 30) (env None None 4294967290) = Some s /\
    startTime (locals s) = 4294967290 /\
    increment (locals s) = 33 /\
    (exists s' tr,
       run platform32 [Ev_Task (env None None 4294967295)] s = Some (s', tr) /\
       frame (locals s') = 1 /\
       wake_arguments tr = [27] /\
       27 <> 4294967290 + 1 * 33) /\
    (exists s' tr,
       run platform32
         (repeat (Ev_Task (env None None 0)) (Z.to_nat (2 ^ 32))) s = Some (s', tr) /\
       frame (locals s') = 0).
Proof.
  eexists.
  split; [vm_compute; reflexivity|].
  split; [reflexivity|]. split; [reflexivity|].
  split.
  - eexists. eexists.
    split; [vm_compute; reflexivity|].
    split; [reflexivity|]. split; [reflexivity|]. discriminate.
  - match goal with
    | |- exists s' tr, run _ ?evs ?s = _ /\ _ =>
        destruct (run_degraded platform32 evs s) as (s' & tr & Hrun & _ & Hf & _)
    end.
    + repeat split.
    + reflexivity.
    + simpl. lia.
    + exists s', tr. split; [exact Hrun|].
      rewrite Hf, task_steps_repeat, Z2Nat.id by lia.
      reflexivity.
Qed.

(** ** C2: the start-up handshake *)

Lemma slamTask_init_handshake (P : Platform) (e : TaskEnv) (s s' : State) (tr : list call) :
  slamTask_init P e s = Some (s', tr) ->
  spinning s' /\
  obj_AttitudeActual (objects s') =
    set_Pitch (obj_AttitudeActual (objects s)) (float_of_Z 100) /\
  attitudeActual (locals s') = obj_AttitudeActual (objects s') /\
  exists tr0,
    tr = tr0 ++ [Call_AttitudeActualGet;
                 Call_AttitudeActualSet
                   (set_Pitch (obj_AttitudeActual (objects s)) (float_of_Z 100))].
Proof.
  unfold slamTask_init. intros H.
  destruct (frame_increment P (settings s)) as [inc|]; [|discriminate].
  cbn [obind] in H. injection H as <- <-.
  unfold spinning.
  cbn [pc locals objects frame attitudeActual set_task set_objects
       set_obj_AttitudeActual obj_AttitudeActual Pitch set_Pitch].
  repeat split.
  match goal with
  | |- exists tr0, ?c0 :: ?a ++ ?b ++ [?c1; ?c2; ?c3; ?c4; ?c5; ?c6] = @?r tr0 =>
      exists (c0 :: a ++ b ++ [c1; c2; c3; c4])
  end.
  cbn [app]. rewrite <- !app_assoc. reflexivity.
Qed.

Lemma step_spinning (P : Platform) (ev : event) (s : State) :
  spinning s ->
  match ev with
  | Ev_AttitudeActualSet a => feq (Pitch a) (float_of_Z 100) = true
  | _ => True
  end ->
  exists s',
    step P ev s =
      Some (s', match ev with
                | Ev_Task _ => [Call_AttitudeActualGet]
                | _ => []
                end) /\
    spinning s'.
Proof.
  intros (Hpc & Hl & Ho & Hf) Hev.
  destruct ev as [e|a|v]; simpl.
  - rewrite Hpc. unfold slamTask_handshake. rewrite Hl.
    eexists. split; [reflexivity|]. unfold spinning. simpl. tauto.
  - eexists. split; [reflexivity|]. unfold spinning. simpl. tauto.
  - eexists. split; [reflexivity|].
    unfold spinning. destruct (callback_connected s); simpl; tauto.
Qed.

Lemma run_spinning (P : Platform) (evs : list event) :
  forall s : State,
  spinning s ->
  no_pitch_writer evs ->
  exists s' tr,
    run P evs s = Some (s', tr) /\
    spinning s' /\
    tr = repeat Call_AttitudeActualGet (task_steps evs).
Proof.
  induction evs as [|ev rest IH]; intros s Hs Hw.
  - exists s, []. simpl. tauto.
  - destruct (step_spinning P ev s Hs) as (s1 & Hstep & Hs1).
    { destruct ev as [e|a|v]; [exact I | | exact I].
      apply Hw. left. reflexivity. }
    destruct (IH s1 Hs1) as (s2 & tr2 & Hrun & Hs2 & Htr2).
    { intros a Ha. apply Hw. right. exact Ha. }
    eexists. eexists. simpl. rewrite Hstep. simpl. rewrite Hrun. simpl.
    split; [reflexivity|]. split; [exact Hs2|].
    rewrite Htr2. destruct ev; reflexivity.
Qed.

Lemma filter_loop_call_repeat_Get (n : nat) :
  filter is_loop_call (repeat Call_AttitudeActualGet n) = [].
Proof. induction n as [|n IH]; simpl; [reflexivity | exact IH]. Qed.

(** C2.  The start-up reads the attitude, writes it back with the pitch
    forced to 100 and enters the handshake.  Each evaluation of the loop
    condition re-reads the attitude when the pitch it holds equals 100 and
    leaves the handshake for the main loop when it differs.  As long as no
    other task publishes a pitch other than 100, however many steps the
    task is given it stays in the handshake, only re-reads the attitude
    and makes no call of the main loop. *)
Theorem C2_handshake_spins_on_sentinel
  (P : Platform) (e0 : TaskEnv) (s0 s1 : State) (tr1 : list call)
  (evs : list event) :
  pc s0 = AtStart ->
  step P (Ev_Task e0) s0 = Some (s1, tr1) ->
  no_pitch_writer evs ->
  (pc s1 = InHandshake /\
   obj_AttitudeActual (objects s1) =
     set_Pitch (obj_AttitudeActual (objects s0)) (float_of_Z 100) /\
   exists tr0,
     tr1 = tr0 ++ [Call_AttitudeActualGet;
                   Call_AttitudeActualSet
                     (set_Pitch (obj_AttitudeActual (objects s0)) (float_of_Z 100))]) /\
  (forall (s s' : State) (e : TaskEnv) (tr : list call),
     pc s = InHandshake ->
     step P (Ev_Task e) s = Some (s', tr) ->
     if feq (Pitch (attitudeActual (locals s))) (float_of_Z 100)
     then pc s' = InHandshake /\
          attitudeActual (locals s') = obj_AttitudeActual (objects s) /\
          tr = [Call_AttitudeActualGet]
     else pc s' = InLoop /\ tr = []) /\
  (exists s' tr,
     run P evs s1 = Some (s', tr) /\
     pc s' = InHandshake /\
     frame (locals s') = 0 /\
     tr = repeat Call_AttitudeActualGet (task_steps evs) /\
     filter is_loop_call tr = []).
Proof.
  intros Hpc0 Hstep Hw.
  simpl in Hstep. rewrite Hpc0 in Hstep.
  destruct (slamTask_init_handshake P e0 s0 s1 tr1 Hstep) as (Hs1 & Hobj & _ & Htr).
  split; [|split].
  - destruct Hs1 as (Hpc1 & _). tauto.
  - intros s s' e tr Hpc H. simpl in H. rewrite Hpc in H.
    unfold slamTask_handshake in H.
    destruct (feq (Pitch (attitudeActual (locals s))) (float_of_Z 100));
      injection H as <- <-; simpl; tauto.
  - destruct (run_spinning P evs s1 Hs1 Hw) as (s' & tr & Hrun & (Hpc' & _ & _ & Hf') & Htr').
    exists s', tr.
    split; [exact Hrun|]. split; [exact Hpc'|]. split; [exact Hf'|].
    split; [exact Htr'|].
    rewrite Htr'. apply filter_loop_call_repeat_Get.
Qed.

(** C2 on the worked configuration: with no estimator the task is polled
    three times and is still in the handshake; once a level attitude is
    published, two more polls take it into the main loop. *)
Lemma C2_handshake_spins_on_sentinel_witness :
  exists s1 tr1 s' tr,
    step platform32 (Ev_Task (env None None 5000))
      (started (frame_settings 640 480 30)) = Some (s1, tr1) /\
    run platform32
      [Ev_Task (env None None 5001); Ev_Task (env None None 5002);
       Ev_Task (env None None 5003)] s1 = Some (s', tr) /\
    pc s' = InHandshake /\
    tr = [Call_AttitudeActualGet; Call_AttitudeActualGet; Call_AttitudeActualGet] /\
    (exists s'' tr',
       run platform32
         [Ev_AttitudeActualSet level; Ev_Task (env None None 5004);
          Ev_Task (env None None 5005)] s' = Some (s'', tr') /\
       pc s'' = InLoop).
Proof.
  eexists. eexists.
  match goal with
  | |- exists s' tr, step _ _ ?s0 = Some (?s1, ?tr1) /\ run _ ?evs _ = _ /\ _ =>
      assert (H1 : step platform32 (Ev_Task (env None None 5000)) s0 = Some (s1, tr1))
        by (vm_compute; reflexivity);
      destruct (C2_handshake_spins_on_sentinel platform32
                  (env None None 5000) s0 s1 tr1 evs
                  ltac:(reflexivity) H1
                  ltac:(intros a [Ha|[Ha|[Ha|[]]]]; discriminate Ha))
        as (_ & _ & s' & tr & Hrun & Hpc & _ & Htr & _)
  end.
  exists s', tr.
  split; [exact H1|]. split; [exact Hrun|]. split; [exact Hpc|].
  split; [exact Htr|].
  vm_compute in Hrun. injection Hrun as <- _.
  eexists. eexists. split; [vm_compute; reflexivity | reflexivity].
Defined.

(** ** C3: the tick increment *)

Lemma forall_range_spec (n : nat) (p : Z -> bool) :
  forall lo : Z,
  forall_range n lo p = true ->
  forall z : Z, lo <= z < lo + Z.of_nat n -> p z = true.
Proof.
  induction n as [|n IH]; intros lo H z Hz.
  - simpl in Hz. lia.
  - cbn [forall_range] in H. apply andb_prop in H. destruct H as [H0 H1].
    destruct (Z.eq_dec z lo) as [->|Hne]; [exact H0|].
    apply (IH (Z.succ lo) H1). lia.
Qed.

(** Every rate from 1 to 8191 frames per second, one by one. *)
Lemma increment_is_quotient_below_8192 :
  forall_range (Z.to_nat 8191) 1 increment_is_quotient = true.
Proof. vm_compute. reflexivity. Qed.

Lemma float_of_double_magnitude (A : Z) (d : double) :
  magnitude_le A d ->
  Z.max A (-149) <= 104 ->
  magnitude_le (Z.max A (-149) + 1) (float_of_double d).
Proof.
  intros Hd Hmax.
  destruct d as [s|s| |s m e]; cbn [float_of_double magnitude_le] in Hd |- *; try tauto.
  pose proof (binary_round_spec 24 128 ltac:(lia) s m e) as H.
  unfold SpecFloat.emin in H. specialize (H ltac:(lia)).
  destruct (binary_round 24 128 s m e); cbn [magnitude_le]; try tauto.
  destruct H as [_ H]. lia.
Qed.

(** From 8192 frames per second on, the quotient is so far below 1 that
    no rounding on the way brings it up to 1: the increment is 0. *)
Lemma increment_float_large (frame_rate : Z) :
  2 ^ 13 <= frame_rate -> trunc (increment_float frame_rate) = Some 0.
Proof.
  intros Hfr. apply trunc_small. unfold increment_float.
  assert (Hq : magnitude_le (- 2)
                 (ddiv (double_of_Z 1000) (double_of_Z frame_rate))).
  { assert (Hx : magnitude_le 10 (double_of_Z 1000)) by (vm_compute; discriminate).
    destruct frame_rate as [|m|m]; try lia.
    unfold double_of_Z at 2. cbn [binary_normalize].
    pose proof (binary_round_lower 53 1024 ltac:(lia) false m 0) as Hl.
    unfold SpecFloat.emin in Hl.
    assert (Hd : 14 <= Zdigits2 (Zpos m)).
    { destruct (Z.le_gt_cases 14 (Zdigits2 (Zpos m))) as [H|H]; [exact H|].
      exfalso.
      assert (H' : Zdigits2 (Zpos m) <= 13) by lia.
      apply Zdigits2_le_iff in H'; lia. }
    specialize (Hl ltac:(lia)).
    destruct (binary_round 53 1024 false m 0) as [sy|sy| |sy my ey];
      [contradiction | | contradiction | ].
    - destruct (double_of_Z 1000); cbn [ddiv SFdiv magnitude_le] in Hx |- *; tauto.
    - pose proof (SFdiv_magnitude 53 1024 ltac:(lia) 10 14 _ sy my ey Hx ltac:(lia)) as H.
      unfold SpecFloat.emin in H. specialize (H ltac:(lia)).
      eapply magnitude_le_mono; [|exact H]. lia. }
  pose proof (float_of_double_magnitude (- 2) _ Hq ltac:(lia)) as Hf.
  assert (E1 : float_of_Z 1 = S754_finite false 8388608 (-23)) by (vm_compute; reflexivity).
  rewrite E1.
  pose proof (SFdiv_magnitude 24 128 ltac:(lia) _ 1 _ false 8388608 (-23) Hf
                ltac:(vm_compute; discriminate)) as H.
  unfold SpecFloat.emin in H. specialize (H ltac:(lia)).
  eapply magnitude_le_mono; [|exact H]. lia.
Qed.

Lemma increment_is_quotient_all (frame_rate : Z) :
  1 <= frame_rate -> increment_is_quotient frame_rate = true.
Proof.
  intros Hfr.
  destruct (Z.lt_ge_cases frame_rate (2 ^ 13)) as [Hlt|Hge].
  - apply (forall_range_spec (Z.to_nat 8191) increment_is_quotient 1
             increment_is_quotient_below_8192).
    change (2 ^ 13) with 8192 in Hlt. lia.
  - unfold increment_is_quotient.
    rewrite (increment_float_large frame_rate Hge).
    change (2 ^ 13) with 8192 in Hge.
    rewrite Z.div_small by lia. reflexivity.
Qed.

Lemma frame_increment_quotient (P : Platform) (st : SLAMSettingsData) :
  10 <= tick_bits P ->
  portTICK_RATE_MS P = 1 ->
  1 <= FrameRate st ->
  frame_increment P st = Some (1000 / FrameRate st).
Proof.
  intros Hb Hms Hr.
  pose proof (increment_is_quotient_all (FrameRate st) Hr) as Hq.
  unfold increment_is_quotient in Hq.
  unfold frame_increment, unsigned_of_float. rewrite Hms.
  fold (increment_float (FrameRate st)).
  destruct (trunc (increment_float (FrameRate st))) as [z|]; [|discriminate].
  apply Z.eqb_eq in Hq. subst z. cbn [obind].
  assert (H0 : 0 <= 1000 / FrameRate st) by (apply Z.div_pos; lia).
  assert (H1 : 1000 / FrameRate st <= 1000).
  { apply Z.div_le_upper_bound; nia. }
  assert (H2 : 2 ^ 10 <= 2 ^ tick_bits P) by (apply Z.pow_le_mono_r; lia).
  change (2 ^ 10) with 1024 in H2.
  replace (0 <=? 1000 / FrameRate st) with true by (symmetry; apply Z.leb_le; lia).
  replace (1000 / FrameRate st <? 2 ^ tick_bits P) with true
    by (symmetry; apply Z.ltb_lt; lia).
  reflexivity.
Qed.

(** Past the start-up no step of the task or of the other tasks changes
    the increment. *)
Lemma step_increment_fixed (P : Platform) (ev : event) (s s' : State) (tr : list call) :
  pc s = InHandshake \/ pc s = InLoop ->
  step P ev s = Some (s', tr) ->
  (pc s' = InHandshake \/ pc s' = InLoop) /\
  increment (locals s') = increment (locals s).
Proof.
  intros Hpc H. destruct ev as [e|a|v]; simpl in H.
  - destruct Hpc as [Hpc|Hpc]; rewrite Hpc in H.
    + unfold slamTask_handshake in H.
      destruct (feq (Pitch (attitudeActual (locals s))) (float_of_Z 100));
        injection H as <- <-; simpl; tauto.
    + apply slamTask_loop_spec in H. tauto.
  - injection H as <- <-. simpl. tauto.
  - injection H as <- <-. destruct (callback_connected s); simpl; tauto.
Qed.

Lemma run_increment_fixed (P : Platform) (evs : list event) :
  forall (s s' : State) (tr : list call),
  pc s = InHandshake \/ pc s = InLoop ->
  run P evs s = Some (s', tr) ->
  increment (locals s') = increment (locals s).
Proof.
  induction evs as [|ev rest IH]; intros s s' tr Hpc Hrun; simpl in Hrun.
  - injection Hrun as <- <-. reflexivity.
  - destruct (step P ev s) as [[s1 tr1]|] eqn:Hstep; [|discriminate].
    simpl in Hrun.
    destruct (run P rest s1) as [[s2 tr2]|] eqn:Hrest; [|discriminate].
    simpl in Hrun. injection Hrun as <- <-.
    destruct (step_increment_fixed P ev s s1 tr1 Hpc Hstep) as [Hpc1 Hinc1].
    rewrite (IH s1 s2 tr2 Hpc1 Hrest). exact Hinc1.
Qed.

(** C3, as the code has it.  At 1000 ticks per second, for every frame
    rate of at least 1 the increment the start-up computes is the integer
    quotient [1000 / frame_rate]: the conversion to the tick type drops the
    fraction, it does not round.  It is 33 for 30 frames per second.  The
    start-up stores it once, and nothing that follows changes it. *)
Theorem C3_increment_truncates
  (P : Platform) (e0 : TaskEnv) (s0 s1 s' : State) (tr1 tr : list call)
  (evs : list event) :
  10 <= tick_bits P ->
  portTICK_RATE_MS P = 1 ->
  1 <= FrameRate (settings s0) ->
  pc s0 = AtStart ->
  step P (Ev_Task e0) s0 = Some (s1, tr1) ->
  run P evs s1 = Some (s', tr) ->
  frame_increment P (settings s0) = Some (1000 / FrameRate (settings s0)) /\
  increment (locals s1) = 1000 / FrameRate (settings s0) /\
  increment (locals s') = 1000 / FrameRate (settings s0) /\
  (FrameRate (settings s0) = 30 -> increment (locals s') = 33).
Proof.
  intros Hb Hms Hr Hpc0 Hstep Hrun.
  pose proof (frame_increment_quotient P (settings s0) Hb Hms Hr) as Hq.
  assert (H1 : increment (locals s1) = 1000 / FrameRate (settings s0)
               /\ pc s1 = InHandshake).
  { simpl in Hstep. rewrite Hpc0 in Hstep. unfold slamTask_init in Hstep.
    rewrite Hq in Hstep. cbn [obind] in Hstep.
    injection Hstep as <- _. split; reflexivity. }
  destruct H1 as [Hinc1 Hpc1].
  assert (Hinc : increment (locals s') = 1000 / FrameRate (settings s0)).
  { rewrite <- Hinc1. apply (run_increment_fixed P evs s1 s' tr); [|exact Hrun].
    left. exact Hpc1. }
  split; [exact Hq|]. split; [exact Hinc1|]. split; [exact Hinc|].
  intros H30. rewrite Hinc, H30. reflexivity.
Qed.

(** C3 on the worked configuration: 30 frames per second, 33 ticks. *)
Lemma C3_increment_truncates_witness :
  exists s1 tr1 s' tr,
    step platform32 (Ev_Task (env None None 5000))
      (started (frame_settings 640 480 30)) = Some (s1, tr1) /\
    run platform32
      [Ev_AttitudeActualSet level; Ev_Task (env None None 5001);
       Ev_Task (env None None 5002);
       Ev_SLAMSettingsSet (frame_settings 640 480 60);
       Ev_Task (env None None 5040)] s1 = Some (s', tr) /\
    increment (locals s1) = 33 /\
    increment (locals s') = 33.
Proof.
  eexists. eexists.
  match goal with
  | |- exists s' tr, step _ ?ev ?s0 = Some (?s1, ?tr1) /\ run _ ?evs _ = _ /\ _ =>
      assert (H1 : step platform32 ev s0 = Some (s1, tr1))
        by (vm_compute; reflexivity);
      pose (evs0 := evs)
  end.
  eexists. eexists.
  split; [exact H1|].
  match goal with
  | |- run _ _ ?s1 = Some (?s', ?tr) /\ _ =>
      assert (H2 : run platform32 evs0 s1 = Some (s', tr))
        by (vm_compute; reflexivity);
      destruct (C3_increment_truncates platform32 (env None None 5000)
                  (started (frame_settings 640 480 30)) s1 s' _ tr evs0
                  ltac:(vm_compute; discriminate) ltac:(reflexivity)
                  ltac:(vm_compute; discriminate)
                  ltac:(reflexivity) H1 H2) as (_ & Ha & Hb & _)
  end.
  split; [exact H2|]. split; [exact Ha | exact Hb].
Defined.

(** C3 as stated fails at 60 (and at 15) frames per second: the increment
    is 16 (66) ticks where [round(1000 / frame_rate)] is 17 (67). *)
Lemma C3_counterexample_rate_60 :
  frame_increment platform32 (frame_settings 640 480 60) = Some 16 /\
  spec_round_increment 60 = 17 /\
  frame_increment platform32 (frame_settings 640 480 15) = Some 66 /\
  spec_round_increment 15 = 67.
Proof. repeat split; vm_compute; reflexivity. Qed.

(** ** The horizon line *)

(** The ends of the line against the centre and the offset of line 197. *)
Lemma horizon_line_spec (P : Platform) (st : SLAMSettingsData)
  (att : AttitudeActualData) (l r : CvPoint) :
  horizon_line P st att = Some (l, r) ->
  exists c off,
    horizon_center st att = Some c /\
    horizon_right_offset P st att = Some off /\
    pt_x l = pt_x c - pt_x off /\ pt_y l = pt_y c - pt_y off /\
    pt_x r = pt_x off + pt_x c /\ pt_y r = pt_y off + pt_y c.
Proof.
  unfold horizon_line, int_sub, int_add, int_checked. intros H.
  destruct (horizon_center st att) as [c|]; [|discriminate].
  destruct (horizon_right_offset P st att) as [off|]; [|discriminate].
  cbn [obind] in H.
  destruct (in_int (pt_x c - pt_x off)); [|discriminate].
  destruct (in_int (pt_y c - pt_y off)); [|discriminate].
  destruct (in_int (pt_x off + pt_x c)); [|discriminate].
  destruct (in_int (pt_y off + pt_y c)); [|discriminate].
  cbn [obind] in H. injection H as <- <-.
  exists c, off. cbn [pt_x pt_y]. repeat split.
Qed.

Lemma horizon_right_offset_spec (P : Platform) (st : SLAMSettingsData)
  (att : AttitudeActualData) (off : CvPoint) :
  horizon_right_offset P st att = Some off ->
  trunc (horizon_right_x P st att) = Some (pt_x off) /\
  trunc (horizon_right_y P st att) = Some (pt_y off).
Proof.
  unfold horizon_right_offset. intros H.
  destruct (int_of_double (horizon_right_x P st att)) as [x|] eqn:Hx; [|discriminate].
  destruct (int_of_double (horizon_right_y P st att)) as [y|] eqn:Hy; [|discriminate].
  cbn [obind] in H. injection H as <-. cbn [pt_x pt_y].
  split; apply int_of_double_trunc; assumption.
Qed.

(** ** C4: the centre of the overlay *)

Lemma double_of_Z_60 : double_of_Z 60 = S754_finite false 8444249301319680 (-47).
Proof. vm_compute. reflexivity. Qed.

(** [Pitch * Y]: the float product is less than 1 away from the exact one
    when the pitch is at most 60 in absolute value and the height is below
    [2^16]. *)
Lemma pitch_times_height (p : float) (Y : Z) :
  is_finite p = true ->
  (Qabs (SF2Q p) <= 60)%Q ->
  Z.abs Y < 2 ^ 16 ->
  is_finite (fmul p (float_of_Z Y)) = true /\
  magnitude_le 23 (fmul p (float_of_Z Y)) /\
  (Qabs (SF2Q (fmul p (float_of_Z Y)) - SF2Q p * inject_Z Y) < 1)%Q.
Proof.
  intros Fp Hp HY.
  assert (Hmp : magnitude_le 6 p).
  { apply Q_magnitude_le; [exact Fp|].
    eapply Qle_lt_trans; [exact Hp|]. reflexivity. }
  destruct (float_of_Z_exact Y 16 ltac:(lia) HY) as (FY & MY & EY).
  assert (Hemin : SpecFloat.emin 24 128 = -149) by reflexivity.
  destruct (SFmul_error 24 128 ltac:(lia) 6 16 p (float_of_Z Y)
              Fp FY Hmp MY ltac:(rewrite Hemin; lia)) as [Hf H].
  pose proof (SFmul_magnitude 24 128 ltac:(lia) 6 16 p (float_of_Z Y) Hmp MY
                ltac:(rewrite Hemin; lia)) as Hm.
  rewrite Hemin in H, Hm.
  split; [exact Hf|]. split; [exact Hm|].
  rewrite <- EY. exact H.
Qed.

(** The double [Y/2 + Pitch * Y/60.] against the exact
    [Y/2 + Pitch * Y / 60], the first quotient the integer one. *)
Lemma horizon_center_y_error (st : SLAMSettingsData) (att : AttitudeActualData) :
  Z.abs (FrameDimensions_Y st) < 2 ^ 16 ->
  is_finite (Pitch att) = true ->
  (Qabs (SF2Q (Pitch att)) <= 60)%Q ->
  is_finite (horizon_center_y st att) = true /\
  magnitude_le 22 (horizon_center_y st att) /\
  (Qabs (SF2Q (horizon_center_y st att)
         - (inject_Z (Z.quot (FrameDimensions_Y st) 2)
            + SF2Q (Pitch att) * inject_Z (FrameDimensions_Y st) / 60))
   < 1 # 32)%Q.
Proof.
  intros HY Fp Hp. unfold horizon_center_y, int_div.
  set (Y := FrameDimensions_Y st) in *. set (p := Pitch att) in *.
  destruct (pitch_times_height p Y Fp Hp HY) as (F1 & M1 & E1).
  set (t1 := fmul p (float_of_Z Y)) in *.
  destruct (double_of_float_error 23 t1 F1 M1 ltac:(lia)) as (F2 & M2 & E2).
  set (t2 := double_of_float t1) in *.
  change (Z.max 23 (-1074) + 1) with 24 in M2.
  change (Z.max (23 + 1 - 53) (-1074) + 1) with (-28) in E2.
  rewrite double_of_Z_60.
  assert (Hemin : SpecFloat.emin 53 1024 = -1074) by reflexivity.
  destruct (SFdiv_error 53 1024 ltac:(lia) 24 6 t2 false 8444249301319680 (-47)
              F2 M2 ltac:(vm_compute; discriminate)
              ltac:(rewrite Hemin; lia)) as (F3 & E3).
  pose proof (SFdiv_magnitude 53 1024 ltac:(lia) 24 6 t2 false 8444249301319680 (-47)
                M2 ltac:(vm_compute; discriminate) ltac:(rewrite Hemin; lia)) as M3.
  rewrite Hemin in E3, M3.
  change (Z.max (24 - 6 + 1) (-1074) + 1) with 20 in M3.
  change (Z.max (24 - 6 + 2 - 53) (-1074) + 2) with (-31) in E3.
  fold (ddiv t2 (S754_finite false 8444249301319680 (-47))) in F3, E3, M3.
  set (t3 := ddiv t2 (S754_finite false 8444249301319680 (-47))) in *.
  assert (HYq : Z.abs (Z.quot Y 2) < 2 ^ 15).
  { pose proof (Z.quot_abs Y 2 ltac:(lia)) as Hq. rewrite <- Hq.
    change (Z.abs 2) with 2.
    apply Z.quot_lt_upper_bound; [lia|lia|].
    change (2 * 2 ^ 15) with (2 ^ 16). exact HY. }
  destruct (double_of_Z_exact (Z.quot Y 2) 15 ltac:(lia) HYq) as (F0 & M0 & E0).
  set (t0 := double_of_Z (Z.quot Y 2)) in *.
  destruct (SFadd_error 53 1024 ltac:(lia) 20 t0 t3 F0 F3
              ltac:(eapply magnitude_le_mono; [|exact M0]; lia) M3
              ltac:(rewrite Hemin; lia)) as (F4 & M4 & E4).
  rewrite Hemin in E4, M4.
  change (Z.max (20 + 1) (-1074) + 1) with 22 in M4.
  change (Z.max (20 + 2 - 53) (-1074) + 1) with (-30) in E4.
  fold (dadd t0 t3) in F4, M4, E4.
  split; [exact F4|]. split; [exact M4|].
  assert (E60 : (SF2Q (S754_finite false 8444249301319680 (-47)) == 60)%Q)
    by reflexivity.
  rewrite E60 in E3. rewrite E0 in E4.
  assert (P28 : (pow2 (-28) == 1 # 268435456)%Q) by reflexivity.
  assert (P30 : (pow2 (-30) == 1 # 1073741824)%Q) by reflexivity.
  assert (P31 : (pow2 (-31) == 1 # 2147483648)%Q) by reflexivity.
  rewrite P28 in E2. rewrite P31 in E3. rewrite P30 in E4.
  apply Qabs_Qlt_condition in E1, E2, E3, E4. apply Qabs_Qlt_condition.
  unfold Qdiv in *. change (/ 60)%Q with (1 # 60)%Q in *.
  set (v4 := SF2Q (dadd t0 t3)) in *. set (v3 := SF2Q t3) in *.
  set (v2 := SF2Q t2) in *. set (v1 := SF2Q t1) in *.
  set (w := (SF2Q p * inject_Z Y)%Q) in *.
  lra.
Qed.

(** The centre is computed, within [2^15] columns and [2^22] rows. *)
Lemma horizon_center_defined (st : SLAMSettingsData) (att : AttitudeActualData) :
  Z.abs (FrameDimensions_X st) < 2 ^ 16 ->
  Z.abs (FrameDimensions_Y st) < 2 ^ 16 ->
  is_finite (Pitch att) = true ->
  (Qabs (SF2Q (Pitch att)) <= 60)%Q ->
  exists c, horizon_center st att = Some c /\
            Z.abs (pt_x c) < 2 ^ 15 /\ Z.abs (pt_y c) < 2 ^ 22.
Proof.
  intros HX HY Fp Hp.
  destruct (horizon_center_y_error st att HY Fp Hp) as (Hf & Hm & _).
  destruct (int_of_double_bounded 22 _ ltac:(lia) Hf Hm) as (y & Hy & Hby).
  exists (cvPoint (int_div (FrameDimensions_X st) 2) y).
  unfold horizon_center. rewrite Hy. cbn [obind pt_x pt_y].
  split; [reflexivity|]. split; [|exact Hby].
  unfold int_div.
  pose proof (Z.quot_abs (FrameDimensions_X st) 2 ltac:(lia)) as Hq.
  rewrite <- Hq. change (Z.abs 2) with 2.
  apply Z.quot_lt_upper_bound; [lia|lia|].
  change (2 * 2 ^ 15) with (2 ^ 16). exact HX.
Qed.

(** C4, as the code has it.  For a frame height below 65536 in absolute
    value and a finite pitch between -60 and 60 degrees the centre is
    computed, no conversion out of range.  It is a [CvPoint], a pair of
    [int]: its first coordinate is the integer quotient of the frame width
    by 2, its second is the double [Y/2 + Pitch * Y/60.] with its fraction
    dropped.  That double is less than 1/32 away from the exact
    [Y/2 + pitch * Y / 60], [Y/2] the integer quotient; the coordinate is
    never larger in absolute value than the double, less than one pixel
    away from it, equal to it when it is a whole number, and so less than
    33/32 away from the exact value. *)
Theorem C4_center_is_truncated (st : SLAMSettingsData) (att : AttitudeActualData) :
  Z.abs (FrameDimensions_Y st) < 2 ^ 16 ->
  is_finite (Pitch att) = true ->
  (Qabs (SF2Q (Pitch att)) <= 60)%Q ->
  exists c : CvPoint,
    horizon_center st att = Some c /\
    pt_x c = Z.quot (FrameDimensions_X st) 2 /\
    (Qabs (inject_Z (pt_y c)) <= Qabs (SF2Q (horizon_center_y st att)))%Q /\
    (Qabs (SF2Q (horizon_center_y st att) - inject_Z (pt_y c)) < 1)%Q /\
    (forall n : Z, (SF2Q (horizon_center_y st att) == inject_Z n)%Q -> pt_y c = n) /\
    (Qabs (SF2Q (horizon_center_y st att)
           - (inject_Z (Z.quot (FrameDimensions_Y st) 2)
              + SF2Q (Pitch att) * inject_Z (FrameDimensions_Y st) / 60))
     < 1 # 32)%Q /\
    (Qabs (inject_Z (pt_y c)
           - (inject_Z (Z.quot (FrameDimensions_Y st) 2)
              + SF2Q (Pitch att) * inject_Z (FrameDimensions_Y st) / 60))
     < 33 # 32)%Q.
Proof.
  intros HY Fp Hp.
  destruct (horizon_center_y_error st att HY Fp Hp) as (Hf & Hm & He).
  destruct (int_of_double_bounded 22 (horizon_center_y st att) ltac:(lia) Hf Hm)
    as (y & Hy & _).
  exists (cvPoint (int_div (FrameDimensions_X st) 2) y).
  unfold horizon_center. rewrite Hy. cbn [obind pt_x pt_y].
  apply int_of_double_trunc in Hy.
  destruct (trunc_spec _ _ Hy) as [H1 H2].
  split; [reflexivity|]. split; [reflexivity|].
  split; [exact H1|]. split; [exact H2|].
  split; [intros n Hn; exact (trunc_integral _ _ _ Hy Hn)|].
  split; [exact He|].
  apply Qabs_Qlt_condition in He, H2. apply Qabs_Qlt_condition.
  lra.
Qed.

(** C4 on a 320 by 240 frame: a pitch of 20 degrees puts the centre 80
    rows down, at (160, 200). *)
Lemma C4_center_is_truncated_witness :
  exists c,
    horizon_center (frame_settings 320 240 30)
      (attitude (S754_zero false) (float_of_Z 20)) = Some c /\
    pt_x c = 160 /\ pt_y c = 200.
Proof.
  destruct (C4_center_is_truncated (frame_settings 320 240 30)
              (attitude (S754_zero false) (float_of_Z 20))
              ltac:(vm_compute; reflexivity)
              ltac:(vm_compute; reflexivity)
              ltac:(vm_compute; discriminate)) as (c & Hc & _).
  exists c. split; [exact Hc|].
  vm_compute in Hc. injection Hc as <-. split; reflexivity.
Defined.

(** C4 as stated fails whenever [pitch * height / 60] is not a whole
    number.  On a 320 by 240 frame a pitch of 1/8 degree gives the centre
    (160, 120): its offset from [240 / 2] is 0, where [pitch * 240 / 60]
    is 1/2. *)
Lemma C4_counterexample_half_pixel :
  (SF2Q eighth == 1 # 8)%Q /\
  (SF2Q eighth * inject_Z 240 / inject_Z 60 == 1 # 2)%Q /\
  horizon_center (frame_settings 320 240 30) (attitude (S754_zero false) eighth)
    = Some (cvPoint 160 120) /\
  120 - 240 / 2 = 0.
Proof. repeat split; vm_compute; reflexivity. Qed.

(** ** C5: the two ends against the centre *)

Lemma horizon_scale_exact (st : SLAMSettingsData) :
  0 <= FrameDimensions_X st < 2 ^ 16 ->
  0 <= FrameDimensions_Y st < 2 ^ 16 ->
  horizon_scale st = double_of_Z (Z.min (FrameDimensions_X st) (FrameDimensions_Y st)).
Proof.
  intros Hx Hy. unfold horizon_scale. apply fmin_double_of_Z; lia.
Qed.

(** [s * v / 3] in double, for a scale [s] below [2^16] and [v] a cosine
    or a sine. *)
Lemma scaled_third (s v : double) :
  is_finite s = true -> magnitude_le 16 s -> unit_range v ->
  is_finite (ddiv (dmul s v) (double_of_Z 3)) = true /\
  magnitude_le 18 (ddiv (dmul s v) (double_of_Z 3)) /\
  (Qabs (SF2Q (ddiv (dmul s v) (double_of_Z 3)) - SF2Q s * SF2Q v / 3)
   < 1 # 2 ^ 32)%Q.
Proof.
  intros Fs Ms Hv. pose proof (unit_range_magnitude v Hv) as Mv.
  destruct Hv as [Fv _].
  assert (Hemin : SpecFloat.emin 53 1024 = -1074) by reflexivity.
  unfold dmul, ddiv.
  destruct (SFmul_error 53 1024 ltac:(lia) 16 1 s v Fs Fv Ms Mv
              ltac:(rewrite Hemin; lia)) as [F1 E1].
  pose proof (SFmul_magnitude 53 1024 ltac:(lia) 16 1 s v Ms Mv
                ltac:(rewrite Hemin; lia)) as M1.
  rewrite Hemin in E1, M1.
  change (Z.max (16 + 1) (-1074) + 1) with 18 in M1.
  change (Z.max (16 + 1 + 1 - 53) (-1074) + 1) with (-34) in E1.
  set (t := SFmul 53 1024 s v) in *.
  rewrite double_of_Z_3.
  destruct (SFdiv_error 53 1024 ltac:(lia) 18 2 t false 6755399441055744 (-51)
              F1 M1 ltac:(vm_compute; discriminate)
              ltac:(rewrite Hemin; lia)) as [F2 E2].
  pose proof (SFdiv_magnitude 53 1024 ltac:(lia) 18 2 t false 6755399441055744 (-51)
                M1 ltac:(vm_compute; discriminate) ltac:(rewrite Hemin; lia)) as M2.
  rewrite Hemin in E2, M2.
  change (Z.max (18 - 2 + 1) (-1074) + 1) with 18 in M2.
  change (Z.max (18 - 2 + 2 - 53) (-1074) + 2) with (-33) in E2.
  split; [exact F2|]. split; [exact M2|].
  assert (E3 : (SF2Q (S754_finite false 6755399441055744 (-51)) == 3)%Q)
    by reflexivity.
  rewrite E3 in E2.
  assert (P33 : (pow2 (-33) == 1 # 8589934592)%Q) by reflexivity.
  assert (P34 : (pow2 (-34) == 1 # 17179869184)%Q) by reflexivity.
  rewrite P34 in E1. rewrite P33 in E2.
  change (1 # 2 ^ 32)%Q with (1 # 4294967296)%Q.
  apply Qabs_Qlt_condition in E1, E2. apply Qabs_Qlt_condition.
  unfold Qdiv in *. change (/ 3)%Q with (1 # 3)%Q in *.
  set (d := SF2Q (SFdiv 53 1024 t (S754_finite false 6755399441055744 (-51)))) in *.
  set (vt := SF2Q t) in *. set (w := (SF2Q s * SF2Q v)%Q) in *.
  lra.
Qed.

(** The offset of the right end is computed, and its two doubles are those
    of [min(X, Y) * cos / 3] and [- min(X, Y) * sin / 3], for the cosine and
    sine the C library returns. *)
Lemma horizon_right_offset_defined (P : Platform) (st : SLAMSettingsData)
  (att : AttitudeActualData) :
  0 <= FrameDimensions_X st < 2 ^ 16 ->
  0 <= FrameDimensions_Y st < 2 ^ 16 ->
  unit_range (cos (libm P) (roll_radians att)) ->
  unit_range (sin (libm P) (roll_radians att)) ->
  (exists off, horizon_right_offset P st att = Some off /\
               Z.abs (pt_x off) < 2 ^ 18 /\ Z.abs (pt_y off) < 2 ^ 18) /\
  (Qabs (SF2Q (horizon_right_x P st att)
         - inject_Z (Z.min (FrameDimensions_X st) (FrameDimensions_Y st))
           * SF2Q (cos (libm P) (roll_radians att)) / 3) < 1 # 2 ^ 32)%Q /\
  (Qabs (SF2Q (horizon_right_y P st att)
         - - inject_Z (Z.min (FrameDimensions_X st) (FrameDimensions_Y st))
           * SF2Q (sin (libm P) (roll_radians att)) / 3) < 1 # 2 ^ 32)%Q.
Proof.
  intros Hx Hy Hc Hs.
  unfold horizon_right_offset, horizon_right_x, horizon_right_y.
  rewrite (horizon_scale_exact st Hx Hy).
  set (n := Z.min (FrameDimensions_X st) (FrameDimensions_Y st)).
  destruct (double_of_Z_exact n 16 ltac:(lia) ltac:(unfold n; lia)) as (Fn & Mn & En).
  destruct (scaled_third (double_of_Z n) _ Fn Mn Hc) as (Fx & Mx & Ex).
  destruct (scaled_third (dneg (double_of_Z n)) _
              ltac:(unfold dneg; rewrite SFopp_finite; exact Fn)
              ltac:(apply SFopp_magnitude; exact Mn) Hs) as (Fy & My & Ey).
  unfold dneg in Ey at 2. rewrite SFopp_Q, En in Ey. rewrite En in Ex.
  destruct (int_of_double_bounded 18 _ ltac:(lia) Fx Mx) as (x & Hix & Hbx).
  destruct (int_of_double_bounded 18 _ ltac:(lia) Fy My) as (y & Hiy & Hby).
  split; [|split; [exact Ex | exact Ey]].
  exists (cvPoint x y). rewrite Hix, Hiy. cbn [obind pt_x pt_y].
  repeat split; assumption.
Qed.

(** The line is drawn: both ends are computed, no [int] out of range. *)
Lemma horizon_line_defined (P : Platform) (st : SLAMSettingsData)
  (att : AttitudeActualData) :
  0 <= FrameDimensions_X st < 2 ^ 16 ->
  0 <= FrameDimensions_Y st < 2 ^ 16 ->
  is_finite (Pitch att) = true ->
  (Qabs (SF2Q (Pitch att)) <= 60)%Q ->
  unit_range (cos (libm P) (roll_radians att)) ->
  unit_range (sin (libm P) (roll_radians att)) ->
  exists l r, horizon_line P st att = Some (l, r).
Proof.
  intros HX HY Fp Hp Hc Hs.
  destruct (horizon_center_defined st att ltac:(lia) ltac:(lia) Fp Hp)
    as (c & Ec & Hcx & Hcy).
  destruct (horizon_right_offset_defined P st att HX HY Hc Hs)
    as [(off & Eo & Hox & Hoy) _].
  unfold horizon_line. rewrite Ec, Eo. cbn [obind].
  unfold int_sub, int_add, int_checked, in_int, INT_MIN, INT_MAX.
  assert (H15 : 2 ^ 15 = 32768) by reflexivity.
  assert (H18 : 2 ^ 18 = 262144) by reflexivity.
  assert (H22 : 2 ^ 22 = 4194304) by reflexivity.
  assert (H31 : 2 ^ 31 = 2147483648) by reflexivity.
  rewrite H15 in Hcx. rewrite H22 in Hcy. rewrite H18 in Hox, Hoy. rewrite H31.
  repeat match goal with
  | |- context [(?a <=? ?b) && (?c <=? ?d)] =>
      replace ((a <=? b) && (c <=? d)) with true
        by (symmetry; apply andb_true_iff; split; apply Z.leb_le; lia);
      cbn [obind]
  end.
  eauto.
Qed.

(** *** The length of the half-line

    Squares of rationals, for the comparison of the half-line with a third
    of the scale. *)

Section HalfLength.
Local Open Scope Q_scope.

Lemma Qsquare_lower (x y d : Q) :
  0 <= x -> 0 <= y -> 0 <= d -> y - d <= x -> y * y - 2 * d * y <= x * x.
Proof.
  intros Hx Hy Hd H.
  assert (Hxx : 0 <= x * x) by (apply Qmult_le_0_compat; assumption).
  destruct (Qlt_le_dec (y - d) 0) as [Hn|Hp].
  - assert (H1 : 0 <= y * (2 * d - y)) by (apply Qmult_le_0_compat; lra).
    lra.
  - assert (H1 : 0 <= (x - (y - d)) * (x + (y - d)))
      by (apply Qmult_le_0_compat; lra).
    assert (H2 : 0 <= d * d) by (apply Qmult_le_0_compat; assumption).
    lra.
Qed.

Lemma Qsquare_le (x y : Q) : 0 <= x -> x <= y -> x * x <= y * y.
Proof.
  intros Hx H.
  assert (H1 : 0 <= (y - x) * (y + x)) by (apply Qmult_le_0_compat; lra).
  lra.
Qed.

Lemma Qsquare_le_inv (x y : Q) : 0 <= y -> x * x <= y * y -> x <= y.
Proof.
  intros Hy H. destruct (Qlt_le_dec y x) as [Hlt|Hle]; [|exact Hle].
  exfalso.
  assert (H1 : 0 < (x - y) * (x + y)).
  { apply Qmult_lt_0_compat; lra. }
  lra.
Qed.

Lemma Qsquare_nonneg (x : Q) : 0 <= x * x.
Proof.
  destruct (Qlt_le_dec x 0) as [H|H].
  - setoid_replace (x * x) with ((- x) * (- x)) by ring.
    apply Qmult_le_0_compat; lra.
  - apply Qmult_le_0_compat; assumption.
Qed.

(** The half-line against a third of the scale, all lengths squared.
    [P] and [R] are the exact coordinates, in absolute value, [N] the third
    of the scale; [a] and [b] the doubles, [A] and [B] their integral
    parts. *)
Lemma half_length_Q (N P R a b A B : Q) :
  0 <= N <= 21845 ->
  0 <= P <= N -> 0 <= R <= N ->
  N * N * (1 - (1 # 2 ^ 40)) <= P * P + R * R <= N * N * (1 + (1 # 2 ^ 40)) ->
  0 <= a -> P - (1 # 2 ^ 32) <= a <= P + (1 # 2 ^ 32) ->
  0 <= b -> R - (1 # 2 ^ 32) <= b <= R + (1 # 2 ^ 32) ->
  0 <= A <= a -> a - 1 <= A ->
  0 <= B <= b -> b - 1 <= B ->
  A * A + B * B <= N * N + (1 # 16) /\
  (4 <= N -> (N - 2) * (N - 2) <= A * A + B * B).
Proof.
  change (1 # 2 ^ 40) with (1 # 1099511627776).
  change (1 # 2 ^ 32) with (1 # 4294967296).
  intros HN HP HR Hc Ha0 Ha Hb0 Hb HA HA1 HB HB1.
  assert (HNN : N * N <= 21845 * N)
    by (apply Qmult_le_compat_r; lra).
  assert (HNN0 : 0 <= N * N) by apply Qsquare_nonneg.
  split.
  - pose proof (Qsquare_le A a (proj1 HA) (proj2 HA)) as H1.
    pose proof (Qsquare_le B b (proj1 HB) (proj2 HB)) as H2.
    pose proof (Qsquare_le a (P + (1 # 4294967296)) Ha0 (proj2 Ha)) as H3.
    pose proof (Qsquare_le b (R + (1 # 4294967296)) Hb0 (proj2 Hb)) as H4.
    lra.
  - intros HN4.
    pose proof (Qsquare_lower A a 1 (proj1 HA) Ha0 ltac:(lra) HA1) as H1.
    pose proof (Qsquare_lower B b 1 (proj1 HB) Hb0 ltac:(lra) HB1) as H2.
    pose proof (Qsquare_lower a P (1 # 4294967296) Ha0 (proj1 HP) ltac:(lra)
                  (proj1 Ha)) as H3.
    pose proof (Qsquare_lower b R (1 # 4294967296) Hb0 (proj1 HR) ltac:(lra)
                  (proj1 Hb)) as H4.
    assert (HPR : P + R <= (17 # 12) * N).
    { apply Qsquare_le_inv; [lra|].
      pose proof (Qsquare_nonneg (P - R)) as Hsq. lra. }
    lra.
Qed.

Lemma Qabs_square (x : Q) : Qabs x * Qabs x == x * x.
Proof.
  rewrite <- Qabs_Qmult. apply Qabs_pos, Qsquare_nonneg.
Qed.

Lemma Qabs_near (x t : Q) (d : Q) :
  Qabs (x - t) < d -> Qabs t - d <= Qabs x <= Qabs t + d.
Proof.
  intros H.
  pose proof (Qabs_triangle_reverse x t) as H1.
  pose proof (Qabs_triangle_reverse t x) as H2.
  assert (E : Qabs (t - x) == Qabs (x - t)).
  { rewrite <- (Qabs_opp (x - t)). apply Qabs_wd. ring. }
  rewrite E in H2. lra.
Qed.

Lemma half_length_bounds (n ox oy : Z) (c s hx hy : Q) :
  (0 <= n < 2 ^ 16)%Z ->
  Qabs c <= 1 -> Qabs s <= 1 ->
  Qabs (c * c + s * s - 1) <= 1 # 2 ^ 40 ->
  Qabs (hx - inject_Z n * c / 3) < 1 # 2 ^ 32 ->
  Qabs (hy - - inject_Z n * s / 3) < 1 # 2 ^ 32 ->
  Qabs (inject_Z ox) <= Qabs hx -> Qabs (hx - inject_Z ox) < 1 ->
  Qabs (inject_Z oy) <= Qabs hy -> Qabs (hy - inject_Z oy) < 1 ->
  (9 * (ox * ox + oy * oy) <= n * n /\
   (12 <= n -> (n - 6) * (n - 6) <= 9 * (ox * ox + oy * oy)))%Z.
Proof.
  intros Hn Hc Hs Hcs Hx Hy Hox Hox1 Hoy Hoy1.
  set (N := inject_Z n / 3).
  assert (HN0 : 0 <= N).
  { unfold N. assert (0 <= inject_Z n).
    { change 0 with (inject_Z 0). rewrite <- Zle_Qle. lia. }
    apply Qle_shift_div_l; lra. }
  assert (HN1 : N <= 21845).
  { unfold N. assert (inject_Z n <= 65535).
    { change 65535 with (inject_Z 65535). rewrite <- Zle_Qle. lia. }
    apply Qle_shift_div_r; lra. }
  assert (Ex : Qabs (inject_Z n * c / 3) == N * Qabs c).
  { setoid_replace (inject_Z n * c / 3) with (N * c) by (unfold N; field).
    rewrite Qabs_Qmult, (Qabs_pos N HN0). reflexivity. }
  assert (Ey : Qabs (- inject_Z n * s / 3) == N * Qabs s).
  { setoid_replace (- inject_Z n * s / 3) with (- (N * s)) by (unfold N; field).
    rewrite Qabs_opp, Qabs_Qmult, (Qabs_pos N HN0). reflexivity. }
  pose proof (Qabs_nonneg c) as Hc0. pose proof (Qabs_nonneg s) as Hs0.
  pose proof (Qabs_near _ _ _ Hx) as Hxa. rewrite Ex in Hxa.
  pose proof (Qabs_near _ _ _ Hy) as Hya. rewrite Ey in Hya.
  assert (Hox1' : Qabs hx - 1 <= Qabs (inject_Z ox)).
  { pose proof (Qabs_triangle_reverse hx (inject_Z ox)). lra. }
  assert (Hoy1' : Qabs hy - 1 <= Qabs (inject_Z oy)).
  { pose proof (Qabs_triangle_reverse hy (inject_Z oy)). lra. }
  assert (HP : 0 <= N * Qabs c <= N).
  { split; [apply Qmult_le_0_compat; assumption|].
    setoid_replace N with (N * 1) at 2 by ring.
    rewrite (Qmult_comm N (Qabs c)), (Qmult_comm N 1).
    apply Qmult_le_compat_r; assumption. }
  assert (HR : 0 <= N * Qabs s <= N).
  { split; [apply Qmult_le_0_compat; assumption|].
    setoid_replace N with (N * 1) at 2 by ring.
    rewrite (Qmult_comm N (Qabs s)), (Qmult_comm N 1).
    apply Qmult_le_compat_r; assumption. }
  assert (Hsum : N * Qabs c * (N * Qabs c) + N * Qabs s * (N * Qabs s)
                 == N * N * (c * c + s * s)).
  { setoid_replace (N * Qabs c * (N * Qabs c) + N * Qabs s * (N * Qabs s))
      with (N * N * (Qabs c * Qabs c + Qabs s * Qabs s)) by ring.
    rewrite !Qabs_square. reflexivity. }
  assert (Hcirc : N * N * (1 - (1 # 2 ^ 40))
                  <= N * Qabs c * (N * Qabs c) + N * Qabs s * (N * Qabs s)
                  <= N * N * (1 + (1 # 2 ^ 40))).
  { rewrite Hsum.
    apply Qabs_Qle_condition in Hcs.
    pose proof (Qsquare_nonneg N) as HNN.
    split.
    - rewrite !(Qmult_comm (N * N)). apply Qmult_le_compat_r; [|assumption].
      change (1 # 2 ^ 40) with (1 # 1099511627776) in *. lra.
    - rewrite !(Qmult_comm (N * N)). apply Qmult_le_compat_r; [|assumption].
      change (1 # 2 ^ 40) with (1 # 1099511627776) in *. lra. }
  destruct (half_length_Q N (N * Qabs c) (N * Qabs s) (Qabs hx) (Qabs hy)
              (Qabs (inject_Z ox)) (Qabs (inject_Z oy))
              (conj HN0 HN1) HP HR Hcirc (Qabs_nonneg _) Hxa (Qabs_nonneg _) Hya
              (conj (Qabs_nonneg _) Hox) Hox1' (conj (Qabs_nonneg _) Hoy) Hoy1')
    as [Hup Hlow].
  rewrite !Qabs_square in Hup, Hlow.
  assert (En : inject_Z n == 3 * N) by (unfold N; field).
  assert (Eo : inject_Z (9 * (ox * ox + oy * oy))
               == 9 * (inject_Z ox * inject_Z ox + inject_Z oy * inject_Z oy)).
  { rewrite !inject_Z_mult, inject_Z_plus, !inject_Z_mult. reflexivity. }
  split.
  - apply Z.lt_succ_r. rewrite Zlt_Qlt. unfold Z.succ.
    rewrite Eo, inject_Z_plus, inject_Z_mult, En.
    change (inject_Z 1) with 1. lra.
  - intros H12.
    rewrite Zle_Qle.
    rewrite Eo, inject_Z_mult. unfold Z.sub. rewrite inject_Z_plus, En.
    change (inject_Z (- (6))) with (- (6)).
    assert (H4 : 4 <= N).
    { assert (12 <= inject_Z n).
      { change 12 with (inject_Z 12). rewrite <- Zle_Qle. assumption. }
      lra. }
    specialize (Hlow H4). lra.
Qed.

End HalfLength.

(** C5, as the code has it.  Whenever the line is drawn, the right end
    minus the centre and the centre minus the left end are the same vector,
    the [right] of line 197: the two ends are displaced from the centre by
    opposite vectors, mirror images of each other through the centre.  The
    coordinates of that vector are the doubles [scale * cos(roll) / 3] and
    [-scale * sin(roll) / 3] with their fractions dropped: each is no larger
    in absolute value than the double and less than 1 away from it.  With
    frame dimensions from 0 to 65535, a finite pitch between -60 and 60
    degrees and a C library whose cosine and sine at the roll are finite and
    between -1 and 1, the line is drawn, and the two doubles are less than
    [2^-32] away from [min(X, Y) * c / 3] and [- min(X, Y) * s / 3], [c] and
    [s] the cosine and the sine the library returned.  When moreover the
    squares of [c] and [s] add up to 1 within [2^-40], the length of the
    vector is at most [min(X, Y) / 3] and, from a scale of 12 on, at least
    [min(X, Y) / 3 - 2]: three times the length lies between [min(X, Y) - 6]
    and [min(X, Y)]. *)
Theorem C5_endpoints_mirror_through_center
  (P : Platform) (st : SLAMSettingsData) (att : AttitudeActualData) :
  (forall l r : CvPoint,
     horizon_line P st att = Some (l, r) ->
     exists c,
       horizon_center st att = Some c /\
       pt_x r - pt_x c = pt_x c - pt_x l /\
       pt_y r - pt_y c = pt_y c - pt_y l /\
       (Qabs (inject_Z (pt_x r - pt_x c)) <= Qabs (SF2Q (horizon_right_x P st att)))%Q /\
       (Qabs (SF2Q (horizon_right_x P st att) - inject_Z (pt_x r - pt_x c)) < 1)%Q /\
       (Qabs (inject_Z (pt_y r - pt_y c)) <= Qabs (SF2Q (horizon_right_y P st att)))%Q /\
       (Qabs (SF2Q (horizon_right_y P st att) - inject_Z (pt_y r - pt_y c)) < 1)%Q) /\
  (0 <= FrameDimensions_X st < 2 ^ 16 ->
   0 <= FrameDimensions_Y st < 2 ^ 16 ->
   is_finite (Pitch att) = true ->
   (Qabs (SF2Q (Pitch att)) <= 60)%Q ->
   unit_range (cos (libm P) (roll_radians att)) ->
   unit_range (sin (libm P) (roll_radians att)) ->
   (exists l r, horizon_line P st att = Some (l, r)) /\
   (Qabs (SF2Q (horizon_right_x P st att)
          - inject_Z (Z.min (FrameDimensions_X st) (FrameDimensions_Y st))
            * SF2Q (cos (libm P) (roll_radians att)) / 3) < 1 # 2 ^ 32)%Q /\
   (Qabs (SF2Q (horizon_right_y P st att)
          - - inject_Z (Z.min (FrameDimensions_X st) (FrameDimensions_Y st))
            * SF2Q (sin (libm P) (roll_radians att)) / 3) < 1 # 2 ^ 32)%Q /\
   (on_unit_circle (cos (libm P) (roll_radians att))
                   (sin (libm P) (roll_radians att)) ->
    forall c l r : CvPoint,
      horizon_center st att = Some c ->
      horizon_line P st att = Some (l, r) ->
      9 * ((pt_x r - pt_x c) ^ 2 + (pt_y r - pt_y c) ^ 2)
        <= Z.min (FrameDimensions_X st) (FrameDimensions_Y st) ^ 2 /\
      (12 <= Z.min (FrameDimensions_X st) (FrameDimensions_Y st) ->
       (Z.min (FrameDimensions_X st) (FrameDimensions_Y st) - 6) ^ 2
         <= 9 * ((pt_x r - pt_x c) ^ 2 + (pt_y r - pt_y c) ^ 2)))).
Proof.
  split.
  - intros l r H.
    destruct (horizon_line_spec P st att l r H)
      as (c & off & Hc & Hoff & Hlx & Hly & Hrx & Hry).
    destruct (horizon_right_offset_spec P st att off Hoff) as [Hx Hy].
    destruct (trunc_spec _ _ Hx) as [Hx1 Hx2].
    destruct (trunc_spec _ _ Hy) as [Hy1 Hy2].
    exists c. split; [exact Hc|].
    replace (pt_x r - pt_x c) with (pt_x off) by lia.
    replace (pt_y r - pt_y c) with (pt_y off) by lia.
    split; [lia|]. split; [lia|]. tauto.
  - intros HX HY Fp Hp Hc Hs.
    destruct (horizon_right_offset_defined P st att HX HY Hc Hs)
      as (_ & Ex & Ey).
    split; [exact (horizon_line_defined P st att HX HY Fp Hp Hc Hs)|].
    split; [exact Ex|]. split; [exact Ey|].
    intros Hcirc c l r Ec H.
    destruct (horizon_line_spec P st att l r H)
      as (c' & off & Hc' & Hoff & Hlx & Hly & Hrx & Hry).
    rewrite Ec in Hc'. injection Hc' as <-.
    destruct (horizon_right_offset_spec P st att off Hoff) as [Hx Hy].
    destruct (trunc_spec _ _ Hx) as [Hx1 Hx2].
    destruct (trunc_spec _ _ Hy) as [Hy1 Hy2].
    replace (pt_x r - pt_x c) with (pt_x off) by lia.
    replace (pt_y r - pt_y c) with (pt_y off) by lia.
    rewrite !Z.pow_2_r.
    apply (half_length_bounds _ (pt_x off) (pt_y off)
             (SF2Q (cos (libm P) (roll_radians att)))
             (SF2Q (sin (libm P) (roll_radians att)))
             (SF2Q (horizon_right_x P st att))
             (SF2Q (horizon_right_y P st att)));
      try assumption; try lia.
    + exact (proj2 Hc).
    + exact (proj2 Hs).
Qed.

(** C5 on a 640 by 480 frame, level: the ends are 160 columns either side
    of the centre (320, 240), and 160 is a third of 480. *)
Lemma C5_endpoints_mirror_through_center_witness :
  exists l r,
    horizon_line platform32 (frame_settings 640 480 30) level = Some (l, r) /\
    l = cvPoint 160 240 /\ r = cvPoint 480 240 /\
    pt_x r - 320 = 320 - pt_x l /\
    9 * ((pt_x r - 320) ^ 2 + (pt_y r - 240) ^ 2) <= 480 ^ 2 /\
    (480 - 6) ^ 2 <= 9 * ((pt_x r - 320) ^ 2 + (pt_y r - 240) ^ 2).
Proof.
  destruct (C5_endpoints_mirror_through_center platform32 (frame_settings 640 480 30) level) as [HA HB].
  destruct HB as ((l & r & H) & _ & _ & HC);
    try (vm_compute; split; [discriminate | reflexivity]);
    try (vm_compute; reflexivity);
    try (vm_compute; discriminate);
    try (split; vm_compute; [reflexivity | discriminate]).
  exists l, r. split; [exact H|].
  destruct (HA l r H) as (c & Hc & Hx & _).
  destruct (HC ltac:(vm_compute; discriminate) c l r Hc H) as [Hup Hlow].
  specialize (Hlow ltac:(vm_compute; discriminate)).
  vm_compute in H. injection H as <- <-.
  vm_compute in Hc. injection Hc as <-.
  split; [reflexivity|]. split; [reflexivity|].
  split; [exact Hx|]. split; [exact Hup | exact Hlow].
Defined.

(** C5 as stated fails in the magnitude.  On a 640 by 400 frame, level,
    whichever C library is linked: the centre is (320, 200) and the ends are
    (187, 200) and (453, 200), 133 columns either side of the centre, and
    133 is not 400 / 3: nine times its square is 159201, not 160000. *)
Lemma C5_counterexample_length :
  for_every_libm (fun L =>
    let P := {| tick_bits := 32; portTICK_RATE_MS := 1; libm := L |} in
    horizon_center (frame_settings 640 400 30) level = Some (cvPoint 320 200) /\
    horizon_line P (frame_settings 640 400 30) level
      = Some (cvPoint 187 200, cvPoint 453 200) /\
    9 * ((453 - 320) ^ 2 + (200 - 200) ^ 2) <> Z.min 640 400 ^ 2).
Proof.
  intros L. cbv zeta.
  split; [vm_compute; reflexivity|].
  split; [vm_compute; reflexivity|].
  vm_compute. discriminate.
Qed.

(** ** C6: level and upright *)

Lemma roll_radians_zero (att : AttitudeActualData) (sgn : bool) :
  Roll att = S754_zero sgn -> roll_radians att = S754_zero sgn.
Proof.
  intros H. unfold roll_radians. rewrite H.
  destruct sgn; vm_compute; reflexivity.
Qed.

Lemma roll_radians_90 (att : AttitudeActualData) :
  Roll att = float_of_Z 90 -> roll_radians att = HALF_PI.
Proof.
  intros H. unfold roll_radians. rewrite H. vm_compute. reflexivity.
Qed.

(** At a roll of zero the second coordinate of the offset is 0. *)
Lemma horizon_right_offset_roll_zero (P : Platform) (st : SLAMSettingsData)
  (att : AttitudeActualData) (sgn : bool) (off : CvPoint) :
  Roll att = S754_zero sgn ->
  horizon_right_offset P st att = Some off ->
  pt_y off = 0.
Proof.
  intros Hroll Hoff.
  destruct (horizon_right_offset_spec P st att off Hoff) as [_ Hy].
  unfold horizon_right_y in Hy.
  rewrite (roll_radians_zero att sgn Hroll), double_of_Z_3 in Hy.
  cbn [sin] in Hy.
  destruct (horizon_scale st) as [s|s| |s m e];
    cbn [dneg SFopp dmul SFmul ddiv SFdiv trunc] in Hy;
    congruence.
Qed.

Lemma double_of_Z_magnitude (z : Z) :
  Z.abs z < 2 ^ 31 -> magnitude_le 32 (double_of_Z z).
Proof.
  intros Hz.
  apply (binary_normalize_magnitude 53 1024 ltac:(lia) z 31); [lia | exact Hz |].
  unfold SpecFloat.emin. lia.
Qed.

Lemma horizon_scale_magnitude (st : SLAMSettingsData) :
  Z.abs (FrameDimensions_X st) < 2 ^ 31 ->
  Z.abs (FrameDimensions_Y st) < 2 ^ 31 ->
  magnitude_le 32 (horizon_scale st).
Proof.
  intros Hx Hy. unfold horizon_scale.
  destruct (fmin_cases (double_of_Z (FrameDimensions_X st))
              (double_of_Z (FrameDimensions_Y st))) as [-> | ->];
    apply double_of_Z_magnitude; assumption.
Qed.

(** At a roll of 90 degrees, with a cosine of the C library that is below
    [2^-40] at the double nearest to pi/2, the first coordinate of the
    offset is 0. *)
Lemma horizon_right_offset_roll_90 (P : Platform) (st : SLAMSettingsData)
  (att : AttitudeActualData) (off : CvPoint) :
  Roll att = float_of_Z 90 ->
  Z.abs (FrameDimensions_X st) < 2 ^ 31 ->
  Z.abs (FrameDimensions_Y st) < 2 ^ 31 ->
  is_finite (libm_cos (libm P) HALF_PI) = true ->
  (Qabs (SF2Q (libm_cos (libm P) HALF_PI)) < 1 # (2 ^ 40))%Q ->
  horizon_right_offset P st att = Some off ->
  pt_x off = 0.
Proof.
  intros Hroll Hx Hy Hfin Hsmall Hoff.
  destruct (horizon_right_offset_spec P st att off Hoff) as [Hrx _].
  unfold horizon_right_x in Hrx.
  rewrite (roll_radians_90 att Hroll), double_of_Z_3 in Hrx.
  change (cos (libm P) HALF_PI) with (libm_cos (libm P) HALF_PI) in Hrx.
  pose proof (SF2Q_small 40 _ Hfin Hsmall) as Hc.
  pose proof (horizon_scale_magnitude st Hx Hy) as Hs.
  pose proof (SFmul_magnitude 53 1024 ltac:(lia) 32 (- 40) _ _ Hs Hc) as Hm.
  unfold SpecFloat.emin in Hm. specialize (Hm ltac:(lia)).
  pose proof (SFdiv_magnitude 53 1024 ltac:(lia) _ 2 _ false 6755399441055744 (-51) Hm) as Hd.
  unfold SpecFloat.emin in Hd.
  specialize (Hd ltac:(vm_compute; discriminate) ltac:(lia)).
  assert (H0 : magnitude_le 0 (ddiv (dmul (horizon_scale st) (libm_cos (libm P) HALF_PI))
                                 (S754_finite false 6755399441055744 (-51)))).
  { eapply magnitude_le_mono; [|exact Hd]. lia. }
  rewrite (trunc_small _ H0) in Hrx. congruence.
Qed.

(** C6.  Whenever the line is drawn: at a roll of zero (of either sign)
    its two ends have the same [y]; at a roll of 90 degrees, for frame
    dimensions that fit an [int] and a C library whose cosine at the double
    nearest to pi/2 is finite and below [2^-40] in absolute value, its two
    ends have the same [x].  And the line is drawn in both cases, for frame
    dimensions from 0 to 65535 and a finite pitch between -60 and 60
    degrees: at a roll of zero whichever C library is linked, at a roll of
    90 degrees with one whose cosine and sine at the double nearest to pi/2
    are finite and between -1 and 1. *)
Theorem C6_horizontal_at_0_vertical_at_90
  (P : Platform) (st : SLAMSettingsData) (att : AttitudeActualData) :
  (forall l r : CvPoint,
     horizon_line P st att = Some (l, r) ->
     ((exists sgn, Roll att = S754_zero sgn) -> pt_y l = pt_y r) /\
     (Roll att = float_of_Z 90 ->
      Z.abs (FrameDimensions_X st) < 2 ^ 31 ->
      Z.abs (FrameDimensions_Y st) < 2 ^ 31 ->
      is_finite (libm_cos (libm P) HALF_PI) = true ->
      (Qabs (SF2Q (libm_cos (libm P) HALF_PI)) < 1 # (2 ^ 40))%Q ->
      pt_x l = pt_x r)) /\
  (0 <= FrameDimensions_X st < 2 ^ 16 ->
   0 <= FrameDimensions_Y st < 2 ^ 16 ->
   is_finite (Pitch att) = true ->
   (Qabs (SF2Q (Pitch att)) <= 60)%Q ->
   ((exists sgn, Roll att = S754_zero sgn) ->
    exists l r, horizon_line P st att = Some (l, r)) /\
   (Roll att = float_of_Z 90 ->
    unit_range (libm_cos (libm P) HALF_PI) ->
    unit_range (libm_sin (libm P) HALF_PI) ->
    exists l r, horizon_line P st att = Some (l, r))).
Proof.
  split.
  - intros l r H.
    destruct (horizon_line_spec P st att l r H)
      as (c & off & Hc & Hoff & Hlx & Hly & Hrx & Hry).
    split.
    + intros [sgn Hroll].
      pose proof (horizon_right_offset_roll_zero P st att sgn off Hroll Hoff) as H0.
      lia.
    + intros Hroll Hx Hy Hfin Hsmall.
      pose proof (horizon_right_offset_roll_90 P st att off Hroll Hx Hy Hfin Hsmall Hoff) as H0.
      lia.
  - intros HX HY Fp Hp. split.
    + intros [sgn Hroll].
      apply (horizon_line_defined P st att HX HY Fp Hp);
        rewrite (roll_radians_zero att sgn Hroll).
      * exact unit_range_one.
      * exact (unit_range_zero sgn).
    + intros Hroll Hc Hs.
      apply (horizon_line_defined P st att HX HY Fp Hp);
        rewrite (roll_radians_90 att Hroll).
      * exact Hc.
      * exact Hs.
Qed.

(** C6 on a 640 by 480 frame: level, the line runs from (160, 240) to
    (480, 240); rolled by 90 degrees, from (320, 400) to (320, 80). *)
Lemma C6_horizontal_at_0_vertical_at_90_witness :
  (exists l r,
     horizon_line platform32 (frame_settings 640 480 30) level = Some (l, r) /\
     pt_y l = 240 /\ pt_y r = 240) /\
  (exists l r,
     horizon_line platform32 (frame_settings 640 480 30)
       (attitude (float_of_Z 90) (S754_zero false)) = Some (l, r) /\
     pt_x l = 320 /\ pt_x r = 320).
Proof.
  split.
  - destruct (C6_horizontal_at_0_vertical_at_90 platform32
                (frame_settings 640 480 30) level) as [HA HB].
    destruct HB as [H0 _];
      try (vm_compute; split; [discriminate | reflexivity]);
      try (vm_compute; reflexivity);
      try (vm_compute; discriminate).
    destruct (H0 (ex_intro _ false eq_refl)) as (l & r & H).
    exists l, r. split; [exact H|].
    destruct (HA l r H) as [Hy _].
    specialize (Hy (ex_intro _ false eq_refl)).
    vm_compute in H. injection H as <- <-. split; reflexivity.
  - destruct (C6_horizontal_at_0_vertical_at_90 platform32
                (frame_settings 640 480 30)
                (attitude (float_of_Z 90) (S754_zero false))) as [HA HB].
    destruct HB as [_ H90];
      try (vm_compute; split; [discriminate | reflexivity]);
      try (vm_compute; reflexivity);
      try (vm_compute; discriminate).
    destruct (H90 eq_refl) as (l & r & H);
      try (split; vm_compute; [reflexivity | discriminate]).
    exists l, r. split; [exact H|].
    destruct (HA l r H) as [_ Hx].
    vm_compute in H. injection H as <- <-. split; reflexivity.
Defined.

(** ** C7: the board bring-up *)

Import Board.

(** A call on an initialised board returns the state it was given. *)
Lemma PIOS_Board_Init_complete (D : Drivers) (s : BoardState) :
  board_init_complete s = true -> PIOS_Board_Init D s = Returned s.
Proof. intros H. unfold PIOS_Board_Init. rewrite H. reflexivity. Qed.

(** The first call, when it returns: the flag is set, the calls made are
    the set-up steps, and the channel identifier is the one the driver
    left. *)
Lemma PIOS_Board_Init_first (D : Drivers) (s s' : BoardState) :
  board_init_complete s = false ->
  PIOS_Board_Init D s = Returned s' ->
  board_init_complete s' = true /\
  hw s' = hw s ++ setup_steps D /\
  PIOS_COM_TELEM_USB s' =
    snd (PIOS_COM_MSG_Init D (PIOS_COM_TELEM_USB s) (snd (PIOS_USART_Init D))).
Proof.
  intros Hc H. unfold PIOS_Board_Init in H. rewrite Hc in H.
  unfold led_setup, setupCom, setup_steps in *.
  destruct (PIOS_INCLUDE_LED D).
  - destruct (PIOS_BOARD_HW_DEFS_GetLedCfg D (board_rev D)) as [cfg|]; [|discriminate].
    destruct (negb (fst (PIOS_USART_Init D) =? 0)); [discriminate|].
    cbn [log set_com PIOS_COM_TELEM_USB] in H.
    destruct (negb (fst (PIOS_COM_MSG_Init D (PIOS_COM_TELEM_USB s)
                           (snd (PIOS_USART_Init D))) =? 0));
      [discriminate|].
    injection H as <-. cbn. rewrite <- !app_assoc. repeat split.
  - destruct (negb (fst (PIOS_USART_Init D) =? 0)); [discriminate|].
    cbn [log set_com PIOS_COM_TELEM_USB] in H.
    destruct (negb (fst (PIOS_COM_MSG_Init D (PIOS_COM_TELEM_USB s)
                           (snd (PIOS_USART_Init D))) =? 0));
      [discriminate|].
    injection H as <-. cbn. rewrite <- !app_assoc. repeat split.
Qed.

Lemma PIOS_Board_Init_sets_flag (D : Drivers) (s s' : BoardState) :
  PIOS_Board_Init D s = Returned s' -> board_init_complete s' = true.
Proof.
  intros H. destruct (board_init_complete s) eqn:Hc.
  - rewrite (PIOS_Board_Init_complete D s Hc) in H. injection H as <-. exact Hc.
  - apply (PIOS_Board_Init_first D s s' Hc H).
Qed.

Lemma init_calls_complete (D : Drivers) (n : nat) (s : BoardState) :
  board_init_complete s = true -> init_calls D n s = Returned s.
Proof.
  intros H. induction n as [|n IH]; simpl; [reflexivity|].
  rewrite (PIOS_Board_Init_complete D s H). exact IH.
Qed.

(** C7.  [PIOS_Board_Init] is idempotent.  Called with the flag set it
    returns the state unchanged: no hardware call is made and
    [PIOS_COM_TELEM_USB] keeps its value.  The call made with the flag clear
    either halts in an assertion or returns with the flag set after exactly
    the set-up steps (delay, LED configuration and LED, CRC clock, USART,
    message channel).  Hence any number of calls does what the first one
    does. *)
Theorem C7_PIOS_Board_Init_idempotent (D : Drivers) (s : BoardState) (n : nat) :
  PIOS_Board_Init D (set_complete s) = Returned (set_complete s) /\
  (forall s' : BoardState,
     PIOS_Board_Init D s = Returned s' ->
     board_init_complete s' = true /\
     PIOS_Board_Init D s' = Returned s' /\
     (board_init_complete s = false -> hw s' = hw s ++ setup_steps D)) /\
  init_calls D (S n) s = PIOS_Board_Init D s.
Proof.
  split; [|split].
  - apply PIOS_Board_Init_complete. reflexivity.
  - intros s' H.
    pose proof (PIOS_Board_Init_sets_flag D s s' H) as Hc.
    split; [exact Hc|]. split.
    + apply PIOS_Board_Init_complete. exact Hc.
    + intros Hs. apply (PIOS_Board_Init_first D s s' Hs H).
  - cbn [init_calls].
    destruct (PIOS_Board_Init D s) as [s'|h] eqn:H; [|reflexivity].
    apply init_calls_complete.
    apply (PIOS_Board_Init_sets_flag D s s' H).
Qed.

(** C7 on the sample drivers: three calls from reset make the six set-up
    calls once and leave the channel identifier the first call obtained. *)
Lemma C7_PIOS_Board_Init_idempotent_witness :
  exists s',
    init_calls sample_drivers 3 reset_state = Returned s' /\
    board_init_complete s' = true /\
    PIOS_COM_TELEM_USB s' = 42 /\
    hw s' =
      [HW_PIOS_DELAY_Init; HW_PIOS_BOARD_HW_DEFS_GetLedCfg 1; HW_PIOS_LED_Init 5;
       HW_RCC_AHBPeriphClockCmd_CRC_ENABLE; HW_PIOS_USART_Init;
       HW_PIOS_COM_MSG_Init 17].
Proof.
  destruct (C7_PIOS_Board_Init_idempotent sample_drivers reset_state 2)
    as (_ & _ & H).
  eexists. split.
  - rewrite H. reflexivity.
  - repeat split.
Defined.

(** ** C8: a video source that fails to open *)

Lemma slamTask_init_no_capture (P : Platform) (e : TaskEnv) (s s' : State) (tr : list call) :
  env_capture e = None ->
  slamTask_init P e s = Some (s', tr) ->
  quiet s' /\ filter is_video_call tr = [].
Proof.
  intros He H. unfold slamTask_init in H. rewrite He in H.
  destruct (frame_increment P (settings s)) as [inc|]; [|discriminate].
  simpl in H. injection H as <- <-.
  unfold quiet, no_video. simpl.
  repeat split; try lia. left. reflexivity.
Qed.

Lemma step_quiet (P : Platform) (ev : event) (s : State) :
  quiet s ->
  exists s' tr,
    step P ev s = Some (s', tr) /\ quiet s' /\ filter is_video_call tr = [].
Proof.
  intros (Hpc & (Hvs & Hcf & Hlf) & Hf).
  destruct ev as [e|a|v]; simpl.
  - destruct Hpc as [Hpc|Hpc]; rewrite Hpc.
    + unfold slamTask_handshake.
      destruct (feq (Pitch (attitudeActual (locals s))) (float_of_Z 100));
        eexists; eexists; (split; [reflexivity|]);
        unfold quiet, no_video; simpl; tauto.
    + destruct (slamTask_loop_degraded P e s) as (s' & E & (Hpc' & Hvs' & Hcf') & Hlf' & Hf').
      { unfold degraded. tauto. }
      exists s', (degraded_pass P s e). split; [exact E|]. split.
      * unfold quiet, no_video. rewrite Hf'.
        pose proof (wrap_range 32 (frame (locals s) + 1)). intuition lia.
      * apply degraded_pass_calls. exact Hlf.
  - eexists. eexists. split; [reflexivity|].
    unfold quiet, no_video. simpl. tauto.
  - eexists. eexists. split; [reflexivity|].
    unfold quiet, no_video. destruct (callback_connected s); simpl; tauto.
Qed.

Lemma run_quiet (P : Platform) (evs : list event) :
  forall (s s' : State) (tr : list call),
  quiet s ->
  run P evs s = Some (s', tr) ->
  quiet s' /\ filter is_video_call tr = [].
Proof.
  induction evs as [|ev rest IH]; intros s s' tr Hq Hrun; simpl in Hrun.
  - injection Hrun as <- <-. split; [exact Hq|reflexivity].
  - destruct (step_quiet P ev s Hq) as (s1 & tr1 & Hstep & Hq1 & Hv1).
    rewrite Hstep in Hrun. simpl in Hrun.
    destruct (run P rest s1) as [[s2 tr2]|] eqn:Hrest; [|discriminate].
    simpl in Hrun. injection Hrun as <- <-.
    destruct (IH s1 s2 tr2 Hq1 Hrest) as [Hq2 Hv2].
    rewrite filter_app, Hv1, Hv2. split; [exact Hq2|reflexivity].
Qed.

(** C8.  When [cvCaptureFromFile] returns NULL, neither the start-up nor
    the handshake makes a video call, and once the task is in its main
    loop every interleaving of passes runs to its end: the task stays in
    the loop, the frame counter advances by one per pass, no frame is
    grabbed or retrieved, no image is cloned, released, drawn on or shown,
    and each pass calls [opencvslam_run] once, with [x = 0]. *)
Theorem C8_null_video_source_degraded_loop
  (P : Platform) (e0 : TaskEnv) (s0 s : State) (evs_h : list event)
  (tr_h : list call) (evs : list event) :
  pc s0 = AtStart ->
  env_capture e0 = None ->
  run P (Ev_Task e0 :: evs_h) s0 = Some (s, tr_h) ->
  pc s = InLoop ->
  filter is_video_call tr_h = [] /\
  exists s' tr,
    run P evs s = Some (s', tr) /\
    pc s' = InLoop /\
    frame (locals s') = wrap 32 (frame (locals s) + Z.of_nat (task_steps evs)) /\
    filter is_video_call tr = [] /\
    filter is_fusion_call tr = repeat (Call_opencvslam_run 0) (task_steps evs).
Proof.
  intros Hpc0 He0 Hrun Hpc.
  simpl in Hrun. rewrite Hpc0 in Hrun.
  destruct (slamTask_init P e0 s0) as [[s1 tr1]|] eqn:Hinit; [|discriminate].
  simpl in Hrun.
  destruct (run P evs_h s1) as [[s2 tr2]|] eqn:Hh; [|discriminate].
  simpl in Hrun. injection Hrun as <- <-.
  destruct (slamTask_init_no_capture P e0 s0 s1 tr1 He0 Hinit) as [Hq1 Hv1].
  destruct (run_quiet P evs_h s1 s2 tr2 Hq1 Hh) as [(_ & (Hvs & Hcf & Hlf) & Hf) Hv2].
  split.
  - rewrite filter_app, Hv1, Hv2. reflexivity.
  - destruct (run_degraded P evs s2) as (s' & tr & Hr & (Hpc' & _) & Hf' & Hv' & Hfu').
    + unfold degraded. tauto.
    + exact Hlf.
    + exact Hf.
    + exists s', tr. tauto.
Qed.

(** C8 on the worked configuration: no source, three passes. *)
Lemma C8_null_video_source_degraded_loop_witness :
  exists s tr_h s' tr,
    run platform32 (to_loop (env None None 5000))
      (started (frame_settings 640 480 30)) = Some (s, tr_h) /\
    run platform32
      [Ev_Task (env None None 5040); Ev_Task (env None None 5070);
       Ev_Task (env None None 5100)] s = Some (s', tr) /\
    frame (locals s') = 3 /\
    filter is_video_call (tr_h ++ tr) = [] /\
    filter is_fusion_call tr =
      [Call_opencvslam_run 0; Call_opencvslam_run 0; Call_opencvslam_run 0].
Proof.
  eexists. eexists.
  match goal with
  | |- exists s' tr, run _ ?evs_h ?s0 = Some (?s, ?tr_h) /\
                     run _ ?evs _ = _ /\ _ =>
      assert (Hh : run platform32 evs_h s0 = Some (s, tr_h))
        by (vm_compute; reflexivity);
      destruct (C8_null_video_source_degraded_loop platform32
                  (env None None 5000) s0 s (tl evs_h) tr_h evs
                  ltac:(reflexivity) ltac:(reflexivity) Hh ltac:(reflexivity))
        as (Hv & s' & tr & Hr & _ & Hf & Hv' & Hfu)
  end.
  exists s', tr.
  split; [exact Hh|]. split; [exact Hr|].
  split; [rewrite Hf; reflexivity|].
  split; [rewrite filter_app, Hv, Hv'; reflexivity | exact Hfu].
Defined.

(** ** C9 and C10: settings published while the loop runs *)

(** A settings update, once the callback is connected, copies the whole
    object into [settings] and touches nothing of the task. *)
Lemma step_SLAMSettingsSet (P : Platform) (v : SLAMSettingsData) (s : State) :
  callback_connected s = true ->
  exists s1,
    step P (Ev_SLAMSettingsSet v) s = Some (s1, []) /\
    settings s1 = v /\
    obj_SLAMSettings (objects s1) = v /\
    obj_AttitudeActual (objects s1) = obj_AttitudeActual (objects s) /\
    locals s1 = locals s /\
    pc s1 = pc s.
Proof.
  intros Hc. simpl. rewrite Hc.
  eexists. split; [reflexivity|]. simpl. tauto.
Qed.

(** C9.  With the task in its main loop, a settings update re-reads the
    whole settings object into [settings] at once and leaves the task's
    variables as they are; whatever follows, the increment is the one the
    loop was entered with and every wake argument is computed from it. *)
Theorem C9_settings_update_keeps_increment
  (P : Platform) (v : SLAMSettingsData) (evs : list event)
  (s s' : State) (tr : list call) :
  0 < tick_bits P ->
  pc s = InLoop ->
  callback_connected s = true ->
  0 <= frame (locals s) < 2 ^ 32 ->
  run P (Ev_SLAMSettingsSet v :: evs) s = Some (s', tr) ->
  (exists s1,
     step P (Ev_SLAMSettingsSet v) s = Some (s1, []) /\
     settings s1 = v /\
     locals s1 = locals s) /\
  increment (locals s') = increment (locals s) /\
  wake_arguments tr =
    map (fun k => (startTime (locals s)
                   + wrap 32 (frame (locals s) + Z.of_nat k) * increment (locals s))
                  mod 2 ^ tick_bits P)
        (seq 1 (task_steps evs)).
Proof.
  intros Hb Hpc Hc Hf Hrun.
  destruct (step_SLAMSettingsSet P v s Hc) as (s1 & Hstep & Hset & _ & _ & Hloc & Hpc1).
  split.
  - exists s1. tauto.
  - destruct (run_InLoop P (Ev_SLAMSettingsSet v :: evs) Hb s s' tr Hpc Hf Hrun)
      as (_ & _ & Hinc & _ & _ & Hw).
    split; [exact Hinc|]. exact Hw.
Qed.

(** C9 on the worked configuration: the rate goes from 30 to 60 frames per
    second after the first pass; the passes still wake 33 ticks apart. *)
Lemma C9_settings_update_keeps_increment_witness :
  exists s s' tr,
    in_loop (frame_settings 640 480 30) (env None None 5000) = Some s /\
    run platform32
      [Ev_SLAMSettingsSet (frame_settings 640 480 60);
       Ev_Task (env None None 5040); Ev_Task (env None None 5070)] s
      = Some (s', tr) /\
    FrameRate (settings s') = 60 /\
    increment (locals s') = 33 /\
    wake_arguments tr = [5033; 5066].
Proof.
  eexists. eexists. eexists.
  split; [vm_compute; reflexivity|].
  match goal with
  | |- run _ _ ?s = _ /\ _ => pose (s0 := s)
  end.
  split; [vm_compute; reflexivity|].
  split; [reflexivity|].
  match goal with
  | |- increment (locals ?s') = _ /\ wake_arguments ?tr = _ =>
      destruct (C9_settings_update_keeps_increment platform32
                  (frame_settings 640 480 60)
                  [Ev_Task (env None None 5040); Ev_Task (env None None 5070)]
                  s0 s' tr
                  ltac:(reflexivity) ltac:(reflexivity) ltac:(reflexivity)
                  ltac:(vm_compute; split; [discriminate | reflexivity])
                  ltac:(vm_compute; reflexivity)) as (_ & Hinc & Hw)
  end.
  split; [exact Hinc | exact Hw].
Defined.

(** One pass with a source and a frame: the line is drawn on the clone
    of the frame retrieved, which [lastFrame] then points to, and it is
    the horizon of the settings and the attitude as they stand at that
    pass. *)
Lemma slamTask_loop_draws (P : Platform) (e : TaskEnv) (s s' : State)
  (tr : list call) (img : IplImage) :
  VideoSource (locals s) <> None ->
  env_frame e = Some img ->
  slamTask_loop P e s = Some (s', tr) ->
  exists l r,
    horizon_line P (settings s) (obj_AttitudeActual (objects s)) = Some (l, r) /\
    filter is_line_call tr = [Call_cvLine (env_clone e) l r 255 255 0 3] /\
    filter is_capture_property_call tr = [] /\
    lastFrame (locals s') = Some (env_clone e) /\
    currentFrame (locals s') = Some img.
Proof.
  intros Hvs He H. unfold slamTask_loop in H.
  destruct (VideoSource (locals s)) as [cap|]; [|congruence].
  rewrite He in H.
  destruct (horizon_line P (settings s) (obj_AttitudeActual (objects s)))
    as [[l r]|]; simpl in H; [|discriminate].
  injection H as <- <-.
  exists l, r. split; [reflexivity|].
  destruct (lastFrame (locals s)); repeat split; reflexivity.
Qed.

(** C10.  A settings update delivered between two passes, followed by a
    pass of the loop: the line that pass draws, on the clone
    [cvCloneImage] returned for the frame retrieved, is the horizon
    computed from the frame dimensions just published, while the
    increment and the wake argument are those of the loop's entry and no
    capture property is set again. *)
Theorem C10_overlay_uses_current_settings
  (P : Platform) (v : SLAMSettingsData) (e : TaskEnv) (img : IplImage)
  (s s' : State) (tr : list call) :
  pc s = InLoop ->
  callback_connected s = true ->
  VideoSource (locals s) <> None ->
  env_frame e = Some img ->
  run P [Ev_SLAMSettingsSet v; Ev_Task e] s = Some (s', tr) ->
  settings s' = v /\
  (exists l r,
     horizon_line P v (obj_AttitudeActual (objects s)) = Some (l, r) /\
     filter is_line_call tr = [Call_cvLine (env_clone e) l r 255 255 0 3]) /\
  lastFrame (locals s') = Some (env_clone e) /\
  filter is_capture_property_call tr = [] /\
  increment (locals s') = increment (locals s) /\
  wake_arguments tr =
    [wake_argument P (startTime (locals s)) (wrap 32 (frame (locals s) + 1))
       (increment (locals s))].
Proof.
  intros Hpc Hc Hvs He Hrun.
  destruct (step_SLAMSettingsSet P v s Hc) as (s1 & Hstep & Hset & _ & Hatt & Hloc & Hpc1).
  cbn [run] in Hrun. rewrite Hstep in Hrun. cbn [obind fst snd] in Hrun.
  assert (Hl : step P (Ev_Task e) s1 = slamTask_loop P e s1).
  { simpl. rewrite Hpc1, Hpc. reflexivity. }
  rewrite Hl in Hrun.
  destruct (slamTask_loop P e s1) as [[s2 tr2]|] eqn:Hloop; [|discriminate].
  cbn [obind fst snd app] in Hrun. rewrite app_nil_r in Hrun.
  injection Hrun as <- <-.
  destruct (slamTask_loop_spec P e s1 s2 tr2 Hloop)
    as (_ & _ & Hinc & _ & Hset2 & _ & _ & Hw).
  destruct (slamTask_loop_draws P e s1 s2 tr2 img)
    as (l & r & Hline & Hcall & Hprop & Hlast & _).
  { rewrite Hloc. exact Hvs. }
  { exact He. }
  { exact Hloop. }
  rewrite Hset, Hatt in Hline. rewrite Hloc in Hinc, Hw.
  split; [congruence|].
  split; [exists l, r; tauto|].
  tauto.
Qed.

(** C10 on the worked configuration: the frame goes from 640 by 480 to 320
    by 240 between two passes; the line moves from around (320, 240) to
    around (160, 120) while the passes still wake 33 ticks apart.  The
    frames retrieved are the images 8 and 9, their clones 108 and 109. *)
Lemma C10_overlay_uses_current_settings_witness :
  exists s s1 tr1 s2 tr2,
    in_loop (frame_settings 640 480 30) (env (Some 1) (Some 7) 5000) = Some s /\
    run platform32 [Ev_Task (env (Some 1) (Some 8) 5040)] s = Some (s1, tr1) /\
    filter is_line_call tr1 =
      [Call_cvLine 108 (cvPoint 160 240) (cvPoint 480 240) 255 255 0 3] /\
    run platform32
      [Ev_SLAMSettingsSet (frame_settings 320 240 60);
       Ev_Task (env (Some 1) (Some 9) 5070)] s1 = Some (s2, tr2) /\
    filter is_line_call tr2 =
      [Call_cvLine 109 (cvPoint 80 120) (cvPoint 240 120) 255 255 0 3] /\
    wake_arguments tr2 = [5066].
Proof.
  eexists. eexists. eexists. eexists. eexists.
  split; [vm_compute; reflexivity|].
  split; [vm_compute; reflexivity|].
  split; [reflexivity|].
  match goal with
  | |- run _ _ ?s = _ /\ _ => pose (s1 := s)
  end.
  split; [vm_compute; reflexivity|].
  match goal with
  | |- filter _ ?tr = _ /\ wake_arguments _ = _ =>
      destruct (C10_overlay_uses_current_settings platform32
                  (frame_settings 320 240 60) (env (Some 1) (Some 9) 5070) 9
                  s1 _ tr
                  ltac:(reflexivity) ltac:(reflexivity) ltac:(discriminate)
                  ltac:(reflexivity) ltac:(vm_compute; reflexivity))
        as (_ & (l & r & Hline & Hcall) & _ & _ & _ & Hw)
  end.
  split.
  - rewrite Hcall. vm_compute in Hline. injection Hline as <- <-. reflexivity.
  - exact Hw.
Defined.

(* ================================================================== *)
(** * Part III: further properties of the code *)
(* ================================================================== *)

(** ** The board bring-up: success and failure *)

(** [setupCom], case by case. *)
Lemma setupCom_cases (D : Drivers) (s : BoardState) :
  let id := snd (PIOS_USART_Init D) in
  let r := PIOS_COM_MSG_Init D (PIOS_COM_TELEM_USB s) id in
  (fst (PIOS_USART_Init D) <> 0 /\
   setupCom D s = Halted (log (log s HW_PIOS_USART_Init) HW_PIOS_Assert_failed)) \/
  (fst (PIOS_USART_Init D) = 0 /\ fst r <> 0 /\
   setupCom D s =
     Halted (log (set_com (log (log s HW_PIOS_USART_Init) (HW_PIOS_COM_MSG_Init id)) (snd r))
               HW_PIOS_Assert_failed)) \/
  (fst (PIOS_USART_Init D) = 0 /\ fst r = 0 /\
   setupCom D s =
     Returned (set_com (log (log s HW_PIOS_USART_Init) (HW_PIOS_COM_MSG_Init id)) (snd r))).
Proof.
  cbv zeta. unfold setupCom.
  destruct (Z.eqb_spec (fst (PIOS_USART_Init D)) 0) as [Hu|Hu]; cbn [negb].
  - change (PIOS_COM_TELEM_USB (log s HW_PIOS_USART_Init)) with (PIOS_COM_TELEM_USB s).
    destruct (Z.eqb_spec
                (fst (PIOS_COM_MSG_Init D (PIOS_COM_TELEM_USB s) (snd (PIOS_USART_Init D)))) 0)
      as [Hc|Hc]; cbn [negb]; [right; right | right; left]; auto.
  - left. auto.
Qed.

(** [led_setup], case by case. *)
Lemma led_setup_cases (D : Drivers) (s : BoardState) :
  (PIOS_INCLUDE_LED D = false /\ led_setup D s = Returned s) \/
  (PIOS_INCLUDE_LED D = true /\
   PIOS_BOARD_HW_DEFS_GetLedCfg D (board_rev D) = None /\
   led_setup D s =
     Halted (log (log s (HW_PIOS_BOARD_HW_DEFS_GetLedCfg (board_rev D)))
               HW_PIOS_Assert_failed)) \/
  (exists cfg,
     PIOS_INCLUDE_LED D = true /\
     PIOS_BOARD_HW_DEFS_GetLedCfg D (board_rev D) = Some cfg /\
     led_setup D s =
       Returned (log (log s (HW_PIOS_BOARD_HW_DEFS_GetLedCfg (board_rev D)))
                   (HW_PIOS_LED_Init cfg))).
Proof.
  unfold led_setup. destruct (PIOS_INCLUDE_LED D); [|left; auto].
  destruct (PIOS_BOARD_HW_DEFS_GetLedCfg D (board_rev D)) as [cfg|];
    [right; right; exists cfg; auto | right; left; auto].
Qed.

(** X1.  A first call of [PIOS_Board_Init] returns exactly when nothing it
    asserts fails: the LED configuration of the board revision is found
    (when the LED is compiled in), [PIOS_USART_Init] returns 0 and
    [PIOS_COM_MSG_Init], called with the identifier the USART got, returns
    0.  Otherwise the system halts in the assertion. *)
Theorem X1_PIOS_Board_Init_returns_iff (D : Drivers) (s : BoardState) :
  board_init_complete s = false ->
  ((exists s', PIOS_Board_Init D s = Returned s') <-> bring_up_succeeds D s) /\
  ((exists h, PIOS_Board_Init D s = Halted h) <-> ~ bring_up_succeeds D s).
Proof.
  intros Hs. unfold PIOS_Board_Init, bring_up_succeeds. rewrite Hs.
  destruct (led_setup_cases D (log s HW_PIOS_DELAY_Init))
    as [[Hl ->] | [(Hl & Hcfg & ->) | (cfg & Hl & Hcfg & ->)]].
  - destruct (setupCom_cases D (log (log s HW_PIOS_DELAY_Init)
                                  HW_RCC_AHBPeriphClockCmd_CRC_ENABLE))
      as [[Hu ->] | [(Hu & Hc & ->) | (Hu & Hc & ->)]]; cbv zeta in *;
      cbn [PIOS_COM_TELEM_USB log] in *;
      (split; split;
       [ intros [x Hx]; try discriminate; intuition congruence
       | intros H; try (eexists; reflexivity); intuition congruence
       | intros [x Hx]; try discriminate; intuition congruence
       | intros H; try (eexists; reflexivity); exfalso; apply H; intuition congruence ]).
  - split; split;
      [ intros [x Hx]; discriminate
      | intros (H & _); exfalso; apply (H Hl Hcfg)
      | intros _ (H & _); apply (H Hl Hcfg)
      | intros _; eexists; reflexivity ].
  - destruct (setupCom_cases D
                (log (log (log (log s HW_PIOS_DELAY_Init)
                                (HW_PIOS_BOARD_HW_DEFS_GetLedCfg (board_rev D)))
                           (HW_PIOS_LED_Init cfg))
                   HW_RCC_AHBPeriphClockCmd_CRC_ENABLE))
      as [[Hu ->] | [(Hu & Hc & ->) | (Hu & Hc & ->)]]; cbv zeta in *;
      cbn [PIOS_COM_TELEM_USB log] in *;
      (split; split;
       [ intros [x Hx]; try discriminate; intuition congruence
       | intros H; try (eexists; reflexivity); intuition congruence
       | intros [x Hx]; try discriminate; intuition congruence
       | intros H; try (eexists; reflexivity); exfalso; apply H; intuition congruence ]).
Qed.

(** X1 on the sample drivers: everything succeeds, the first call from
    reset returns; with the failing USART it halts. *)
Lemma X1_PIOS_Board_Init_returns_iff_witness :
  (exists s', PIOS_Board_Init sample_drivers reset_state = Returned s') /\
  (exists h, PIOS_Board_Init usart_failing_drivers reset_state = Halted h).
Proof.
  split.
  - destruct (X1_PIOS_Board_Init_returns_iff sample_drivers reset_state eq_refl)
      as [[_ Hret] _].
    apply Hret. split; [intros _; discriminate | split; reflexivity].
  - destruct (X1_PIOS_Board_Init_returns_iff usart_failing_drivers reset_state eq_refl)
      as [_ [_ Hhalt]].
    apply Hhalt. intros (_ & H & _). discriminate H.
Defined.

(** X2.  When a first call of [PIOS_Board_Init] halts in an assertion, the
    flag is still clear, the calls made are an initial part of the set-up
    steps followed by the failed assertion, and [PIOS_COM_TELEM_USB] has
    its old value unless [PIOS_COM_MSG_Init] was among them. *)
Theorem X2_PIOS_Board_Init_halts_early (D : Drivers) (s h : BoardState) :
  board_init_complete s = false ->
  PIOS_Board_Init D s = Halted h ->
  board_init_complete h = false /\
  exists done rest,
    setup_steps D = done ++ rest /\
    hw h = hw s ++ done ++ [HW_PIOS_Assert_failed] /\
    (filter is_com_msg_call done = [] ->
     rest <> [] /\ PIOS_COM_TELEM_USB h = PIOS_COM_TELEM_USB s).
Proof.
  intros Hs. unfold PIOS_Board_Init, setup_steps. rewrite Hs.
  destruct (led_setup_cases D (log s HW_PIOS_DELAY_Init))
    as [[Hl ->] | [(Hl & Hcfg & ->) | (cfg & Hl & Hcfg & ->)]];
    rewrite Hl; rewrite ?Hcfg.
  - destruct (setupCom_cases D (log (log s HW_PIOS_DELAY_Init)
                                  HW_RCC_AHBPeriphClockCmd_CRC_ENABLE))
      as [[Hu ->] | [(Hu & Hc & ->) | (Hu & Hc & ->)]];
      intros H; [| |discriminate]; injection H as <-;
      (split; [exact Hs|]).
    + exists [HW_PIOS_DELAY_Init; HW_RCC_AHBPeriphClockCmd_CRC_ENABLE; HW_PIOS_USART_Init],
             [HW_PIOS_COM_MSG_Init (snd (PIOS_USART_Init D))].
      cbn [hw log app PIOS_COM_TELEM_USB]. rewrite <- !app_assoc.
      split; [reflexivity|]. split; [reflexivity|].
      intros _. split; [discriminate | reflexivity].
    + exists [HW_PIOS_DELAY_Init; HW_RCC_AHBPeriphClockCmd_CRC_ENABLE; HW_PIOS_USART_Init;
              HW_PIOS_COM_MSG_Init (snd (PIOS_USART_Init D))], [].
      cbn [hw log set_com app PIOS_COM_TELEM_USB]. rewrite <- !app_assoc.
      split; [reflexivity|]. split; [reflexivity|].
      cbn [filter is_com_msg_call]. discriminate.
  - intros H. injection H as <-. split; [exact Hs|].
    exists [HW_PIOS_DELAY_Init; HW_PIOS_BOARD_HW_DEFS_GetLedCfg (board_rev D)],
           [HW_RCC_AHBPeriphClockCmd_CRC_ENABLE; HW_PIOS_USART_Init;
            HW_PIOS_COM_MSG_Init (snd (PIOS_USART_Init D))].
    cbn [hw log app PIOS_COM_TELEM_USB]. rewrite <- !app_assoc.
    split; [reflexivity|]. split; [reflexivity|].
    intros _. split; [discriminate | reflexivity].
  - destruct (setupCom_cases D
                (log (log (log (log s HW_PIOS_DELAY_Init)
                                (HW_PIOS_BOARD_HW_DEFS_GetLedCfg (board_rev D)))
                           (HW_PIOS_LED_Init cfg))
                   HW_RCC_AHBPeriphClockCmd_CRC_ENABLE))
      as [[Hu ->] | [(Hu & Hc & ->) | (Hu & Hc & ->)]];
      intros H; [| |discriminate]; injection H as <-;
      (split; [exact Hs|]).
    + exists [HW_PIOS_DELAY_Init; HW_PIOS_BOARD_HW_DEFS_GetLedCfg (board_rev D);
              HW_PIOS_LED_Init cfg; HW_RCC_AHBPeriphClockCmd_CRC_ENABLE;
              HW_PIOS_USART_Init],
             [HW_PIOS_COM_MSG_Init (snd (PIOS_USART_Init D))].
      cbn [hw log app PIOS_COM_TELEM_USB]. rewrite <- !app_assoc.
      split; [reflexivity|]. split; [reflexivity|].
      intros _. split; [discriminate | reflexivity].
    + exists [HW_PIOS_DELAY_Init; HW_PIOS_BOARD_HW_DEFS_GetLedCfg (board_rev D);
              HW_PIOS_LED_Init cfg; HW_RCC_AHBPeriphClockCmd_CRC_ENABLE;
              HW_PIOS_USART_Init; HW_PIOS_COM_MSG_Init (snd (PIOS_USART_Init D))], [].
      cbn [hw log set_com app PIOS_COM_TELEM_USB]. rewrite <- !app_assoc.
      split; [reflexivity|]. split; [reflexivity|].
      cbn [filter is_com_msg_call]. discriminate.
Qed.

(** X2 on the drivers whose USART fails: the bring-up halts after the
    delay, the LED, the clock and the USART call, the flag clear and the
    channel identifier still 0. *)
Lemma X2_PIOS_Board_Init_halts_early_witness :
  exists h,
    PIOS_Board_Init usart_failing_drivers reset_state = Halted h /\
    board_init_complete h = false /\
    PIOS_COM_TELEM_USB h = 0 /\
    hw h = [HW_PIOS_DELAY_Init; HW_PIOS_BOARD_HW_DEFS_GetLedCfg 1; HW_PIOS_LED_Init 5;
            HW_RCC_AHBPeriphClockCmd_CRC_ENABLE; HW_PIOS_USART_Init;
            HW_PIOS_Assert_failed].
Proof.
  eexists. split; [reflexivity|].
  match goal with
  | |- board_init_complete ?h = _ /\ _ =>
      destruct (X2_PIOS_Board_Init_halts_early usart_failing_drivers reset_state h
                  eq_refl eq_refl) as (Hflag & _)
  end.
  split; [exact Hflag|]. split; reflexivity.
Defined.

(** ** The module from power-on to its main loop *)

(** X3.  Module not enabled in the hardware settings: [SLAMStart] neither
    connects the callback nor creates the task.  Whatever the other tasks
    publish and however often the scheduler runs, no call is made, and the
    task's variables and the settings snapshot stay as they were. *)
Theorem X3_disabled_module_is_inert
  (P : Platform) (s0 : State) (evs : list event) :
  pc s0 = NotCreated ->
  callback_connected s0 = false ->
  exists s',
    run P evs (SLAMStart (SLAMInitialize false s0)) = Some (s', []) /\
    pc s' = NotCreated /\
    callback_connected s' = false /\
    locals s' = locals s0 /\
    settings s' = settings s0.
Proof.
  intros Hpc Hcb.
  assert (Hgen : forall s, pc s = NotCreated -> callback_connected s = false ->
            exists s', run P evs s = Some (s', []) /\
                       pc s' = NotCreated /\ callback_connected s' = false /\
                       locals s' = locals s /\ settings s' = settings s).
  { induction evs as [|ev rest IH]; intros s Hp Hc.
    - exists s. cbn [run]. auto.
    - cbn [run].
      assert (Hstep : exists s1, step P ev s = Some (s1, []) /\
                pc s1 = NotCreated /\ callback_connected s1 = false /\
                locals s1 = locals s /\ settings s1 = settings s).
      { destruct ev as [e|a|v]; cbn [step].
        - rewrite Hp. exists s. auto.
        - eexists. split; [reflexivity|]. cbn. auto.
        - rewrite Hc. eexists. split; [reflexivity|]. cbn. auto. }
      destruct Hstep as (s1 & -> & Hp1 & Hc1 & Hl1 & Hs1). cbn [obind fst snd].
      destruct (IH s1 Hp1 Hc1) as (s' & -> & Hp' & Hc' & Hl' & Hs').
      cbn [obind fst snd app]. exists s'.
      split; [reflexivity|]. repeat split; congruence. }
  unfold SLAMStart, SLAMInitialize. cbn [slamEnabled].
  destruct (Hgen {| pc := pc s0; locals := locals s0; slamEnabled := false;
                    settings := settings s0;
                    callback_connected := callback_connected s0;
                    objects := objects s0 |} Hpc Hcb)
    as (s' & Hrun & H). exists s'. split; [exact Hrun | exact H].
Qed.

(** X3 on the worked configuration with the module left disabled: the
    events that bring an enabled module into its loop do nothing. *)
Lemma X3_disabled_module_is_inert_witness :
  exists s',
    run platform32 (to_loop (env (Some 1) (Some 7) 5000))
      (SLAMStart (SLAMInitialize false (power_on (frame_settings 640 480 30))))
      = Some (s', []) /\
    pc s' = NotCreated /\
    FrameRate (settings s') = 0.
Proof.
  destruct (X3_disabled_module_is_inert platform32
              (power_on (frame_settings 640 480 30))
              (to_loop (env (Some 1) (Some 7) 5000)) eq_refl eq_refl)
    as (s' & Hrun & Hpc & _ & _ & Hset).
  exists s'. split; [exact Hrun|]. split; [exact Hpc|].
  rewrite Hset. reflexivity.
Defined.



Lemma ddiv_by_zero : ddiv (double_of_Z 1000) (double_of_Z 0) = S754_infinity false.
Proof. vm_compute. reflexivity. Qed.

(** X6.  A configured frame rate of 0: [1000./FrameRate] is infinite, and
    so is the float it is converted to; divided by the tick period it is
    infinite or a NaN, which no tick type holds.  The increment is
    undefined and so is the start-up of the task, whatever the platform. *)
Theorem X6_zero_frame_rate_is_undefined
  (P : Platform) (e : TaskEnv) (s : State) :
  FrameRate (settings s) = 0 ->
  frame_increment P (settings s) = None /\
  (pc s = AtStart -> step P (Ev_Task e) s = None).
Proof.
  intros H.
  assert (Hinc : frame_increment P (settings s) = None).
  { unfold frame_increment. rewrite H, ddiv_by_zero. cbn [float_of_double].
    unfold unsigned_of_float, fdiv.
    destruct (float_of_Z (portTICK_RATE_MS P)); reflexivity. }
  split; [exact Hinc|].
  intros Hpc. cbn [step]. rewrite Hpc. unfold slamTask_init. rewrite Hinc.
  reflexivity.
Qed.

(** X6 on the worked configuration with a frame rate of 0: the task has no
    defined start-up. *)
Lemma X6_zero_frame_rate_is_undefined_witness :
  step platform32 (Ev_Task (env None None 5000)) (started (frame_settings 640 480 0))
    = None.
Proof.
  apply (X6_zero_frame_rate_is_undefined platform32 (env None None 5000)
           (started (frame_settings 640 480 0)) eq_refl).
  reflexivity.
Defined.

(** With an increment of 0 every wake argument is the start tick. *)
Lemma run_increment_zero (P : Platform) (evs : list event) :
  0 < tick_bits P ->
  forall (s s' : State) (tr : list call),
  pc s = InHandshake \/ pc s = InLoop ->
  increment (locals s) = 0 ->
  0 <= startTime (locals s) < 2 ^ tick_bits P ->
  run P evs s = Some (s', tr) ->
  Forall (fun t => t = startTime (locals s)) (wake_arguments tr).
Proof.
  intros Hw. induction evs as [|ev rest IH]; intros s s' tr Hpc Hinc Hst H;
    cbn [run] in H.
  - injection H as <- <-. constructor.
  - destruct (step P ev s) as [[s1 tr1]|] eqn:E; [|discriminate].
    cbn [obind fst snd] in H.
    destruct (run P rest s1) as [[s2 tr2]|] eqn:E2; [|discriminate].
    cbn [obind fst snd] in H. injection H as <- <-.
    rewrite wake_arguments_app. apply Forall_app.
    assert (Hstep : (pc s1 = InHandshake \/ pc s1 = InLoop) /\
                    increment (locals s1) = 0 /\
                    startTime (locals s1) = startTime (locals s) /\
                    Forall (fun t => t = startTime (locals s)) (wake_arguments tr1)).
    { destruct Hpc as [Hpc|Hpc].
      - destruct ev as [e|a|v]; cbn [step] in E.
        + rewrite Hpc in E. unfold slamTask_handshake in E.
          destruct (feq _ _); injection E as <- <-; cbn; rewrite ?Hinc; auto.
        + injection E as <- <-. cbn. auto.
        + destruct (callback_connected s); injection E as <- <-; cbn; auto.
      - destruct (step_InLoop P ev s s1 tr1 Hpc E) as (Hp1 & Hs1 & Hi1 & _ & Hev).
        split; [auto|]. split; [congruence|]. split; [exact Hs1|].
        destruct ev as [e|a|v].
        + destruct Hev as [_ ->]. constructor; [|constructor].
          rewrite wake_argument_mod by exact Hw.
          rewrite Hinc, Z.mul_0_r, Z.add_0_r. apply Z.mod_small. exact Hst.
        + destruct Hev as [_ ->]. constructor.
        + destruct Hev as [_ ->]. constructor. }
    destruct Hstep as (Hp1 & Hi1 & Hs1 & Hf). split; [exact Hf|].
    rewrite <- Hs1. apply (IH s1 s2 tr2 Hp1 Hi1); [rewrite Hs1; exact Hst | exact E2].
Qed.

(** X7.  A frame rate above 1000 frames per second, at 1000 ticks per
    second: the increment is 0, so every wake argument the loop passes to
    [vTaskDelayUntil] is the start tick itself. *)
Theorem X7_fast_frame_rate_never_waits
  (P : Platform) (e0 : TaskEnv) (s0 s1 s' : State) (tr1 tr : list call)
  (evs : list event) :
  10 <= tick_bits P ->
  portTICK_RATE_MS P = 1 ->
  1000 < FrameRate (settings s0) ->
  pc s0 = AtStart ->
  step P (Ev_Task e0) s0 = Some (s1, tr1) ->
  run P evs s1 = Some (s', tr) ->
  increment (locals s1) = 0 /\
  increment (locals s') = 0 /\
  Forall (fun t => t = startTime (locals s1)) (wake_arguments tr).
Proof.
  intros Hw Hms Hrate Hpc Hstep Hrun.
  cbn [step] in Hstep. rewrite Hpc in Hstep. unfold slamTask_init in Hstep.
  rewrite (frame_increment_quotient P (settings s0) Hw Hms ltac:(lia)) in Hstep.
  rewrite (Z.div_small 1000 (FrameRate (settings s0))) in Hstep by lia.
  cbn [obind] in Hstep. injection Hstep as <- <-.
  cbn [set_task locals increment startTime pc] in *.
  split; [reflexivity|].
  match type of Hrun with
  | run P evs ?s = _ =>
      pose proof (run_increment_fixed P evs s s' tr (or_introl eq_refl) Hrun) as Hfix;
      pose proof (run_increment_zero P evs ltac:(lia) s s' tr (or_introl eq_refl)
                    eq_refl) as Hz
  end.
  cbn [set_task locals increment startTime pc] in Hfix, Hz.
  split; [exact Hfix|].
  apply Hz; [|exact Hrun].
  apply wrap_range. lia.
Qed.

(** X7 on the worked configuration at 2000 frames per second: the two
    passes both give the start tick 5000 to [vTaskDelayUntil]. *)
Lemma X7_fast_frame_rate_never_waits_witness :
  exists s1 tr1 s' tr,
    step platform32 (Ev_Task (env None None 5000)) (started (frame_settings 640 480 2000))
      = Some (s1, tr1) /\
    run platform32
      [Ev_AttitudeActualSet level; Ev_Task (env None None 5000);
       Ev_Task (env None None 5000); Ev_Task (env None None 5001);
       Ev_Task (env None None 5002)] s1 = Some (s', tr) /\
    increment (locals s') = 0 /\
    wake_arguments tr = [5000; 5000].
Proof.
  eexists. eexists. eexists. eexists.
  split; [vm_compute; reflexivity|].
  match goal with
  | |- run _ _ ?s = _ /\ _ => pose (s1 := s)
  end.
  split; [vm_compute; reflexivity|].
  match goal with
  | |- increment (locals ?s') = _ /\ wake_arguments ?tr = _ =>
      destruct (X7_fast_frame_rate_never_waits platform32 (env None None 5000)
                  (started (frame_settings 640 480 2000)) s1 s' _ tr
                  [Ev_AttitudeActualSet level; Ev_Task (env None None 5000);
                   Ev_Task (env None None 5000); Ev_Task (env None None 5001);
                   Ev_Task (env None None 5002)]
                  ltac:(vm_compute; discriminate) eq_refl
                  ltac:(vm_compute; reflexivity) eq_refl
                  ltac:(vm_compute; reflexivity)
                  ltac:(vm_compute; reflexivity)) as (_ & Hinc & _)
  end.
  split; [exact Hinc | reflexivity].
Defined.

(** X8.  The handshake ends: once another task has published an attitude
    whose pitch is not 100 (a NaN included), the next evaluation of the
    loop condition re-reads it and the one after leaves for the main loop,
    the frame counter still at 0 and nothing done but reading the
    attitude. *)
Theorem X8_handshake_ends_after_a_writer
  (P : Platform) (e0 e1 e2 : TaskEnv) (s0 s1 : State) (tr1 : list call)
  (evs : list event) (a : AttitudeActualData) :
  pc s0 = AtStart ->
  step P (Ev_Task e0) s0 = Some (s1, tr1) ->
  no_pitch_writer evs ->
  feq (Pitch a) (float_of_Z 100) = false ->
  exists s',
    run P (evs ++ [Ev_AttitudeActualSet a; Ev_Task e1; Ev_Task e2]) s1
      = Some (s', repeat Call_AttitudeActualGet (task_steps evs + 1)) /\
    pc s' = InLoop /\
    attitudeActual (locals s') = a /\
    frame (locals s') = 0.
Proof.
  intros Hpc Hstep Hno Ha.
  cbn [step] in Hstep. rewrite Hpc in Hstep.
  destruct (slamTask_init_handshake P e0 s0 s1 tr1 Hstep) as (Hspin & _).
  destruct (run_spinning P evs s1 Hspin Hno) as (s2 & tr2 & Hrun & Hspin2 & ->).
  rewrite run_app, Hrun. cbn [obind fst snd].
  destruct Hspin2 as (Hp2 & Hloc & _ & Hf).
  cbn [run step set_objects pc locals objects obind fst snd].
  rewrite Hp2. unfold slamTask_handshake at 1.
  cbn [set_objects locals objects obj_AttitudeActual set_obj_AttitudeActual].
  rewrite Hloc.
  cbn [obind fst snd set_task pc locals set_attitudeActual attitudeActual].
  unfold slamTask_handshake.
  cbn [set_task locals set_attitudeActual attitudeActual].
  rewrite Ha.
  cbn [obind fst snd set_task pc locals attitudeActual frame set_attitudeActual app].
  eexists. split.
  - f_equal. f_equal.
    change [Call_AttitudeActualGet] with (repeat Call_AttitudeActualGet 1).
    rewrite <- repeat_app. reflexivity.
  - cbn [pc locals attitudeActual frame set_task set_attitudeActual].
    split; [reflexivity|]. split; [reflexivity|]. exact Hf.
Qed.

(** X8 on the worked configuration: the task polls once, a level attitude
    is published, and two more steps bring it into the main loop; it has
    read the attitude twice in the handshake. *)
Lemma X8_handshake_ends_after_a_writer_witness :
  exists s1 tr1 s',
    step platform32 (Ev_Task (env None None 5000)) (started (frame_settings 640 480 30))
      = Some (s1, tr1) /\
    run platform32
      ([Ev_Task (env None None 5000)] ++
       [Ev_AttitudeActualSet level; Ev_Task (env None None 5000);
        Ev_Task (env None None 5000)]) s1
      = Some (s', [Call_AttitudeActualGet; Call_AttitudeActualGet]) /\
    pc s' = InLoop /\
    Pitch (attitudeActual (locals s')) = S754_zero false.
Proof.
  eexists. eexists.
  assert (Hstep : step platform32 (Ev_Task (env None None 5000))
                    (started (frame_settings 640 480 30))
                  = Some (_, _)) by (vm_compute; reflexivity).
  destruct (X8_handshake_ends_after_a_writer platform32
              (env None None 5000) (env None None 5000) (env None None 5000)
              (started (frame_settings 640 480 30)) _ _
              [Ev_Task (env None None 5000)] level
              eq_refl Hstep
              ltac:(intros a [H|[]]; discriminate H)
              ltac:(vm_compute; reflexivity)) as (s' & Hrun & Hpc & Hatt & _).
  exists s'. split; [exact Hstep|]. split; [exact Hrun|].
  split; [exact Hpc|]. rewrite Hatt. reflexivity.
Defined.

(** ** What the main loop calls *)

Lemma delay_previous_app (t1 t2 : list call) :
  delay_previous (t1 ++ t2) = delay_previous t1 ++ delay_previous t2.
Proof.
  induction t1 as [|c t1 IH]; [reflexivity|].
  destruct c; cbn [app delay_previous]; rewrite IH; reflexivity.
Qed.

Lemma diffus_arguments_app (t1 t2 : list call) :
  diffus_arguments (t1 ++ t2) = diffus_arguments t1 ++ diffus_arguments t2.
Proof.
  induction t1 as [|c t1 IH]; [reflexivity|].
  destruct c; cbn [app diffus_arguments]; rewrite IH; reflexivity.
Qed.

(** The calls of one pass of the loop, read one kind at a time. *)
Lemma slamTask_loop_calls (P : Platform) (e : TaskEnv) (s s' : State) (tr : list call) :
  slamTask_loop P e s = Some (s', tr) ->
  filter is_fusion_call tr = [Call_opencvslam_run 0] /\
  delay_previous tr = [startTime (locals s)] /\
  diffus_arguments tr = [timeval (locals s)] /\
  timeval (locals s') = wrap 32 (env_raw e) /\
  (clones_held s + length (filter is_clone_call tr)
   = length (filter is_release_call tr) + clones_held s')%nat.
Proof.
  unfold slamTask_loop, clones_held. intros H.
  destruct (VideoSource (locals s)) as [src|];
    destruct (lastFrame (locals s)) as [old|];
    [ destruct (env_frame e) as [img|]
    | destruct (env_frame e) as [img|]
    | destruct (currentFrame (locals s)) as [img|]
    | destruct (currentFrame (locals s)) as [img|] ];
    try (destruct (horizon_line P (settings s) (obj_AttitudeActual (objects s)))
           as [[l r]|]; [|discriminate]);
    cbn [obind fst snd] in H; injection H as <- <-;
    cbn [app filter is_fusion_call is_clone_call is_release_call delay_previous
         diffus_arguments length set_task locals lastFrame currentFrame timeval];
    repeat split; reflexivity.
Qed.





Lemma last_cons_default {A : Type} (l : list A) (a d : A) :
  last (a :: l) d = last l a.
Proof.
  revert a d. induction l as [|b l IH]; intros a d; [reflexivity|].
  change (last (a :: b :: l) d) with (last (b :: l) d).
  rewrite (IH b d). symmetry. apply IH.
Qed.

(** What a run of the main loop calls, one kind at a time. *)
Lemma run_loop_calls (P : Platform) (evs : list event) :
  forall (s s' : State) (tr : list call),
  pc s = InLoop ->
  run P evs s = Some (s', tr) ->
  filter is_fusion_call tr = repeat (Call_opencvslam_run 0) (task_steps evs) /\
  delay_previous tr = repeat (startTime (locals s)) (task_steps evs) /\
  diffus_arguments tr = removelast (timeval (locals s) :: raw_reads evs) /\
  timeval (locals s') = last (raw_reads evs) (timeval (locals s)).
Proof.
  induction evs as [|ev rest IH]; intros s s' tr Hpc H; cbn [run] in H.
  - injection H as <- <-. repeat split.
  - destruct (step P ev s) as [[s1 tr1]|] eqn:E; [|discriminate].
    cbn [obind fst snd] in H.
    destruct (run P rest s1) as [[s2 tr2]|] eqn:E2; [|discriminate].
    cbn [obind fst snd] in H. injection H as <- <-.
    destruct (step_InLoop P ev s s1 tr1 Hpc E) as (Hp1 & Hs1 & _ & _ & Hev).
    destruct (IH s1 s2 tr2 Hp1 E2) as (Hf & Hd & Hu & Ht).
    rewrite filter_app, delay_previous_app, diffus_arguments_app, Hf, Hd, Hu, Ht, Hs1.
    destruct ev as [e|a|v].
    + cbn [step] in E. rewrite Hpc in E.
      destruct (slamTask_loop_calls P e s s1 tr1 E) as (Hf1 & Hd1 & Hu1 & Ht1 & _).
      rewrite Hf1, Hd1, Hu1, Ht1. cbn [task_steps raw_reads repeat app].
      split; [reflexivity|]. split; [reflexivity|]. split; [reflexivity|].
      symmetry. apply last_cons_default.
    + destruct Hev as [_ ->]. cbn [step] in E. injection E as <-.
      cbn [task_steps raw_reads filter delay_previous diffus_arguments app
           set_objects locals].
      repeat split.
    + destruct Hev as [_ ->]. cbn [step] in E.
      assert (Hl : locals s1 = locals s)
        by (destruct (callback_connected s); injection E as <-; reflexivity).
      rewrite Hl.
      cbn [task_steps raw_reads filter delay_previous diffus_arguments app].
      repeat split.
Qed.

(** X10.  In every mode, with or without a video source or a frame, each
    pass of the main loop calls [opencvslam_run] exactly once and always
    with [x = 0]: nothing the pass reads reaches the fusion step. *)
Theorem X10_fusion_input_is_always_zero
  (P : Platform) (evs : list event) (s s' : State) (tr : list call) :
  pc s = InLoop ->
  run P evs s = Some (s', tr) ->
  pc s' = InLoop /\
  filter is_fusion_call tr = repeat (Call_opencvslam_run 0) (task_steps evs).
Proof.
  intros Hpc H.
  destruct (run_InLoop_fixed P evs s s' tr Hpc H) as (Hp & _).
  destruct (run_loop_calls P evs s s' tr Hpc H) as (Hf & _).
  split; assumption.
Qed.

(** X10 on the worked configuration with a source that delivers frames:
    two passes, two calls of [opencvslam_run], both with 0. *)
Lemma X10_fusion_input_is_always_zero_witness :
  exists s s' tr,
    in_loop (frame_settings 640 480 30) (env (Some 1) (Some 7) 5000) = Some s /\
    run platform32
      [Ev_Task (env (Some 1) (Some 8) 5040); Ev_Task (env (Some 1) (Some 9) 5070)] s
      = Some (s', tr) /\
    filter is_fusion_call tr = [Call_opencvslam_run 0; Call_opencvslam_run 0].
Proof.
  eexists. eexists. eexists.
  split; [vm_compute; reflexivity|].
  match goal with
  | |- run _ _ ?s = _ /\ _ => pose (s0 := s)
  end.
  split; [vm_compute; reflexivity|].
  match goal with
  | |- filter _ ?tr = _ =>
      destruct (X10_fusion_input_is_always_zero platform32
                  [Ev_Task (env (Some 1) (Some 8) 5040);
                   Ev_Task (env (Some 1) (Some 9) 5070)]
                  s0 _ tr eq_refl ltac:(vm_compute; reflexivity)) as (_ & Hf)
  end.
  exact Hf.
Defined.

(** X11.  Each pass resets [currentTime] to the start tick before it calls
    [vTaskDelayUntil]: the call is made once per pass and its first
    argument is always the start tick, never the tick the scheduler wrote
    back in the pass before. *)
Theorem X11_delay_is_always_from_start
  (P : Platform) (evs : list event) (s s' : State) (tr : list call) :
  pc s = InLoop ->
  run P evs s = Some (s', tr) ->
  delay_previous tr = repeat (startTime (locals s)) (task_steps evs) /\
  startTime (locals s') = startTime (locals s).
Proof.
  intros Hpc H.
  destruct (run_InLoop_fixed P evs s s' tr Hpc H) as (_ & Hs & _).
  destruct (run_loop_calls P evs s s' tr Hpc H) as (_ & Hd & _).
  split; assumption.
Qed.

(** X11 on the worked configuration: the scheduler reports wake-ups at
    5040 and 5070; both calls of [vTaskDelayUntil] are made from the start
    tick 5000. *)
Lemma X11_delay_is_always_from_start_witness :
  exists s s' tr,
    in_loop (frame_settings 640 480 30) (env None None 5000) = Some s /\
    run platform32 [Ev_Task (env None None 5040); Ev_Task (env None None 5070)] s
      = Some (s', tr) /\
    currentTime (locals s') = 5070 /\
    delay_previous tr = [5000; 5000].
Proof.
  eexists. eexists. eexists.
  split; [vm_compute; reflexivity|].
  match goal with
  | |- run _ _ ?s = _ /\ _ => pose (s0 := s)
  end.
  split; [vm_compute; reflexivity|].
  match goal with
  | |- _ /\ delay_previous ?tr = _ =>
      destruct (X11_delay_is_always_from_start platform32
                  [Ev_Task (env None None 5040); Ev_Task (env None None 5070)]
                  s0 _ tr eq_refl ltac:(vm_compute; reflexivity)) as (Hd & _)
  end.
  split; [reflexivity | exact Hd].
Defined.

(** X12.  The elapsed time of a pass is taken against the raw timer value
    read in the pass before: the arguments of [PIOS_DELAY_DiffuS] are
    [timeval] as the loop was entered followed by the values
    [PIOS_DELAY_GetRaw] returned in all passes but the last, and [timeval]
    ends as the value it returned last. *)
Theorem X12_elapsed_time_is_pass_to_pass
  (P : Platform) (evs : list event) (s s' : State) (tr : list call) :
  pc s = InLoop ->
  run P evs s = Some (s', tr) ->
  diffus_arguments tr = removelast (timeval (locals s) :: raw_reads evs) /\
  timeval (locals s') = last (raw_reads evs) (timeval (locals s)).
Proof.
  intros Hpc H.
  destruct (run_loop_calls P evs s s' tr Hpc H) as (_ & _ & Hu & Ht).
  split; assumption.
Qed.

(** X12 on the worked configuration: the raw timer reads 5000000 at
    start-up, 5040000 and 5070000 in the two passes; the passes measure
    from 5000000 and from 5040000. *)
Lemma X12_elapsed_time_is_pass_to_pass_witness :
  exists s s' tr,
    in_loop (frame_settings 640 480 30) (env None None 5000) = Some s /\
    run platform32 [Ev_Task (env None None 5040); Ev_Task (env None None 5070)] s
      = Some (s', tr) /\
    diffus_arguments tr = [5000000; 5040000] /\
    timeval (locals s') = 5070000.
Proof.
  eexists. eexists. eexists.
  split; [vm_compute; reflexivity|].
  match goal with
  | |- run _ _ ?s = _ /\ _ => pose (s0 := s)
  end.
  split; [vm_compute; reflexivity|].
  match goal with
  | |- diffus_arguments ?tr = _ /\ timeval (locals ?s') = _ =>
      destruct (X12_elapsed_time_is_pass_to_pass platform32
                  [Ev_Task (env None None 5040); Ev_Task (env None None 5070)]
                  s0 s' tr eq_refl ltac:(vm_compute; reflexivity)) as (Hu & Ht)
  end.
  split; [exact Hu | exact Ht].
Defined.

(** X13.  With a tick type of at most 32 bits the wrap of the frame
    counter does not show in the schedule: under any interleaving, and for
    any number of passes, the wake argument of the [k]-th pass is
    [start + (frame + k) * increment] reduced to the tick type, [frame] the
    counter as the run begins, so two successive wake arguments are always
    [increment] apart modulo [2^w]. *)
Theorem X13_counter_wrap_keeps_the_cadence
  (P : Platform) (evs : list event) (s s' : State) (tr : list call) :
  0 < tick_bits P <= 32 ->
  pc s = InLoop ->
  0 <= frame (locals s) < 2 ^ 32 ->
  run P evs s = Some (s', tr) ->
  wake_arguments tr =
    map (fun k => (startTime (locals s)
                   + (frame (locals s) + Z.of_nat k) * increment (locals s))
                  mod 2 ^ tick_bits P)
        (seq 1 (task_steps evs)).
Proof.
  intros Hw Hpc Hf H.
  destruct (run_InLoop P evs ltac:(lia) s s' tr Hpc Hf H) as (_ & _ & _ & _ & _ & Hwk).
  rewrite Hwk. unfold wake_schedule. apply map_ext. intros k.
  unfold wrap.
  assert (Hd : (2 ^ tick_bits P | 2 ^ 32)).
  { exists (2 ^ (32 - tick_bits P)). rewrite <- Z.pow_add_r by lia. f_equal. lia. }
  assert (Hpos : 0 < 2 ^ tick_bits P) by (apply Z.pow_pos_nonneg; lia).
  rewrite Z.add_mod by lia.
  rewrite (Z.mul_mod ((frame (locals s) + Z.of_nat k) mod 2 ^ 32)) by lia.
  rewrite (Z.mod_mod_divide _ _ _ Hd).
  rewrite <- Z.mul_mod by lia. rewrite <- Z.add_mod by lia. reflexivity.
Qed.

(** X13 on the worked configuration: the first two passes wake at 5033
    and 5066. *)
Lemma X13_counter_wrap_keeps_the_cadence_witness :
  exists s s' tr,
    in_loop (frame_settings 640 480 30) (env None None 5000) = Some s /\
    run platform32 [Ev_Task (env None None 5040); Ev_Task (env None None 5070)] s
      = Some (s', tr) /\
    wake_arguments tr = [5033; 5066].
Proof.
  eexists. eexists. eexists.
  split; [vm_compute; reflexivity|].
  match goal with
  | |- run _ _ ?s = _ /\ _ => pose (s0 := s)
  end.
  split; [vm_compute; reflexivity|].
  match goal with
  | |- wake_arguments ?tr = _ =>
      exact (X13_counter_wrap_keeps_the_cadence platform32
               [Ev_Task (env None None 5040); Ev_Task (env None None 5070)]
               s0 _ tr ltac:(vm_compute; split; [reflexivity | discriminate])
               eq_refl ltac:(vm_compute; split; [discriminate | reflexivity])
               ltac:(vm_compute; reflexivity))
  end.
Defined.

(** ** Where the horizon line lies *)

(** An integral part against a third of a whole number: [h] is the double,
    [t] the exact value it is next to, [u] a value between -1 and 1. *)
Lemma third_bound (a n : Z) (h u : Q) (t : Q) :
  0 <= n ->
  (Qabs (inject_Z a) <= Qabs h)%Q ->
  (Qabs (h - t) < 1 # 2 ^ 32)%Q ->
  (Qabs u <= 1)%Q ->
  (t == inject_Z n * u / 3 \/ t == - inject_Z n * u / 3)%Q ->
  Z.abs a <= n / 3.
Proof.
  intros Hn Ha Hh Hu Ht.
  apply Z.div_le_lower_bound; [lia|].
  assert (HQ : (inject_Z (3 * Z.abs a) < inject_Z (n + 1))%Q).
  { rewrite inject_Z_mult, inject_Z_plus. rewrite Qabs_inject_Z in Ha.
    change (1 # 2 ^ 32)%Q with (1 # 4294967296)%Q in Hh.
    apply Qabs_Qlt_condition in Hh. apply Qabs_Qle_condition in Hu.
    assert (Hn' : (0 <= inject_Z n)%Q) by (rewrite <- (Zle_Qle 0); exact Hn).
    assert (Ht' : (- inject_Z n <= 3 * t <= inject_Z n)%Q).
    { destruct Hu as [Hu1 Hu2].
      assert (H1 : (u * inject_Z n <= 1 * inject_Z n)%Q)
        by (apply Qmult_le_compat_r; assumption).
      assert (H2 : (- (1) * inject_Z n <= u * inject_Z n)%Q)
        by (apply Qmult_le_compat_r; assumption).
      set (N := inject_Z n) in *.
      assert (E1 : (3 * (N * u / 3) == u * N)%Q) by field.
      assert (E2 : (3 * (- N * u / 3) == - (u * N))%Q) by field.
      destruct Ht as [-> | ->]; [rewrite E1 | rewrite E2]; split; lra. }
    revert Ha. apply Qabs_case; intros Hsign Ha;
      change (inject_Z 3) with 3%Q; change (inject_Z 1) with 1%Q; lra. }
  rewrite <- Zlt_Qlt in HQ. lia.
Qed.

(** X15.  The line stays within a third of the smaller frame dimension of
    the centre, and within the frame's columns.  With frame dimensions
    from 0 to 65535, a finite pitch between -60 and 60 degrees and a C
    library whose cosine and sine at the roll are finite and between -1
    and 1: the line is drawn, each end is at most [min(X, Y) / 3] (integer
    quotient) columns and rows away from the centre, and for a frame at
    least one pixel wide both ends have a column from 0 to [X - 1]. *)
Theorem X15_line_stays_within_a_third
  (P : Platform) (st : SLAMSettingsData) (att : AttitudeActualData) :
  0 <= FrameDimensions_X st < 2 ^ 16 ->
  0 <= FrameDimensions_Y st < 2 ^ 16 ->
  is_finite (Pitch att) = true ->
  (Qabs (SF2Q (Pitch att)) <= 60)%Q ->
  unit_range (cos (libm P) (roll_radians att)) ->
  unit_range (sin (libm P) (roll_radians att)) ->
  exists c l r,
    horizon_center st att = Some c /\
    horizon_line P st att = Some (l, r) /\
    Z.abs (pt_x r - pt_x c) <= Z.min (FrameDimensions_X st) (FrameDimensions_Y st) / 3 /\
    Z.abs (pt_y r - pt_y c) <= Z.min (FrameDimensions_X st) (FrameDimensions_Y st) / 3 /\
    Z.abs (pt_x l - pt_x c) <= Z.min (FrameDimensions_X st) (FrameDimensions_Y st) / 3 /\
    Z.abs (pt_y l - pt_y c) <= Z.min (FrameDimensions_X st) (FrameDimensions_Y st) / 3 /\
    (1 <= FrameDimensions_X st ->
     0 <= pt_x l < FrameDimensions_X st /\ 0 <= pt_x r < FrameDimensions_X st).
Proof.
  intros HX HY Fp Hp Hc Hs.
  destruct (horizon_line_defined P st att HX HY Fp Hp Hc Hs) as (l & r & Hline).
  destruct (horizon_line_spec P st att l r Hline)
    as (c & off & Ec & Eoff & Hlx & Hly & Hrx & Hry).
  destruct (horizon_right_offset_spec P st att off Eoff) as [Tx Ty].
  destruct (trunc_spec _ _ Tx) as [Tx1 _].
  destruct (trunc_spec _ _ Ty) as [Ty1 _].
  destruct (horizon_right_offset_defined P st att HX HY Hc Hs) as (_ & Ex & Ey).
  set (n := Z.min (FrameDimensions_X st) (FrameDimensions_Y st)) in *.
  assert (Hn : 0 <= n) by (unfold n; lia).
  pose proof (third_bound (pt_x off) n _ _ _ Hn Tx1 Ex (proj2 Hc)
                (or_introl (Qeq_refl _))) as Bx.
  pose proof (third_bound (pt_y off) n _ _ _ Hn Ty1 Ey (proj2 Hs)
                (or_intror (Qeq_refl _))) as By.
  exists c, l, r. split; [exact Ec|]. split; [exact Hline|].
  split; [replace (pt_x r - pt_x c) with (pt_x off) by lia; exact Bx|].
  split; [replace (pt_y r - pt_y c) with (pt_y off) by lia; exact By|].
  split; [replace (pt_x l - pt_x c) with (- pt_x off) by lia;
          rewrite Z.abs_opp; exact Bx|].
  split; [replace (pt_y l - pt_y c) with (- pt_y off) by lia;
          rewrite Z.abs_opp; exact By|].
  intros H1.
  assert (Hcx : pt_x c = FrameDimensions_X st / 2).
  { unfold horizon_center in Ec.
    destruct (int_of_double (horizon_center_y st att)); [|discriminate].
    cbn [obind] in Ec. injection Ec as <-. cbn [pt_x]. unfold int_div.
    apply Z.quot_div_nonneg; lia. }
  assert (Hn3 : n / 3 <= FrameDimensions_X st / 3)
    by (apply Z.div_le_mono; unfold n; lia).
  pose proof (Z.div_mod (FrameDimensions_X st) 2 ltac:(lia)) as D2.
  pose proof (Z.mod_pos_bound (FrameDimensions_X st) 2 ltac:(lia)) as M2.
  pose proof (Z.div_mod (FrameDimensions_X st) 3 ltac:(lia)) as D3.
  pose proof (Z.mod_pos_bound (FrameDimensions_X st) 3 ltac:(lia)) as M3.
  lia.
Qed.

(** X15 on a 640 by 480 frame, level: the ends (160, 240) and (480, 240)
    are 160 columns from the centre, inside the frame. *)
Lemma X15_line_stays_within_a_third_witness :
  exists l r,
    horizon_line platform32 (frame_settings 640 480 30) level = Some (l, r) /\
    0 <= pt_x l < 640 /\ 0 <= pt_x r < 640.
Proof.
  destruct (X15_line_stays_within_a_third platform32 (frame_settings 640 480 30) level)
    as (c & l & r & _ & Hline & _ & _ & _ & _ & Hcols);
    try (vm_compute; split; [discriminate | reflexivity]);
    try (vm_compute; reflexivity);
    try (vm_compute; discriminate);
    try (split; vm_compute; [reflexivity | discriminate]).
  exists l, r. split; [exact Hline|].
  apply Hcols. vm_compute. discriminate.
Defined.

(** X16.  Level flight: with a pitch of zero (of either sign) and a frame
    height that fits an [int], the centre of the overlay is computed and
    is exactly the middle of the frame, [(X / 2, Y / 2)] in integer
    division. *)
Theorem X16_level_pitch_centres_the_horizon
  (st : SLAMSettingsData) (att : AttitudeActualData) (sgn : bool) :
  Pitch att = S754_zero sgn ->
  Z.abs (FrameDimensions_Y st) < 2 ^ 31 ->
  horizon_center st att
    = Some (cvPoint (Z.quot (FrameDimensions_X st) 2)
                    (Z.quot (FrameDimensions_Y st) 2)).
Proof.
  intros Hp HY. unfold horizon_center, horizon_center_y, int_div. rewrite Hp.
  set (Y := FrameDimensions_Y st) in *.
  assert (Hfy : is_finite (float_of_Z Y) = true).
  { unfold float_of_Z.
    assert (Hd : Zdigits2 (Z.abs Y) <= 31) by (apply Zdigits2_le_iff; lia).
    pose proof (Zdigits2_nonneg (Z.abs Y)) as Hd0.
    assert (Hemin : SpecFloat.emin 24 128 = -149) by reflexivity.
    apply (binary_normalize_error_Q 24 128 ltac:(lia) Y 0). rewrite Hemin. lia. }
  assert (Hz : exists b, ddiv (double_of_float (fmul (S754_zero sgn) (float_of_Z Y)))
                           (double_of_Z 60) = S754_zero b).
  { rewrite double_of_Z_60.
    destruct (float_of_Z Y) as [s|s| |s m e]; try discriminate;
      cbn [fmul SFmul double_of_float ddiv SFdiv]; eauto. }
  destruct Hz as [b ->].
  assert (HYq : Z.abs (Z.quot Y 2) < 2 ^ 31).
  { pose proof (Z.quot_abs Y 2 ltac:(lia)) as Hq. rewrite <- Hq.
    change (Z.abs 2) with 2.
    apply Z.quot_lt_upper_bound; lia. }
  destruct (double_of_Z_exact (Z.quot Y 2) 31 ltac:(lia) HYq) as (F0 & M0 & E0).
  assert (Hsum : is_finite (dadd (double_of_Z (Z.quot Y 2)) (S754_zero b)) = true /\
                 magnitude_le 31 (dadd (double_of_Z (Z.quot Y 2)) (S754_zero b)) /\
                 (SF2Q (dadd (double_of_Z (Z.quot Y 2)) (S754_zero b))
                  == inject_Z (Z.quot Y 2))%Q).
  { destruct (double_of_Z (Z.quot Y 2)) as [s|s| |s m e]; try discriminate.
    - destruct s, b; (split; [reflexivity|]; split; [exact I | exact E0]).
    - cbn [dadd SFadd]. repeat split; assumption. }
  destruct Hsum as (Fs & Ms & Es).
  destruct (int_of_double_bounded 31 _ ltac:(lia) Fs Ms) as (z & Hz & _).
  rewrite Hz. cbn [obind]. f_equal. f_equal.
  apply int_of_double_trunc in Hz.
  exact (trunc_integral _ _ _ Hz Es).
Qed.

(** X16 on a 640 by 480 frame, level: the centre is (320, 240). *)
Lemma X16_level_pitch_centres_the_horizon_witness :
  horizon_center (frame_settings 640 480 30) level = Some (cvPoint 320 240).
Proof.
  exact (X16_level_pitch_centres_the_horizon (frame_settings 640 480 30) level false
           eq_refl ltac:(vm_compute; reflexivity)).
Defined.
